(** * Column-partitioned Dijkstra over an SPMD group: model and properties

    Shallow embedding of [dijsktra.c] (the MPI program [mpi_Dijkstra]).
    Every rank of the communicator runs the same text; the ranks meet only in
    collectives ([MPI_Scatter], [MPI_Allreduce], [MPI_Gather]).  The group is
    modelled as the list of the ranks' local states, rank [r] at position [r],
    and a collective as a function of what all ranks contribute.

    - [int] values are mathematical integers with the 32-bit wrap-around
      written out ([Int32.wrap]);
    - C arrays are lists; a read or write outside the array, and a division
      by zero, have no defined result ([None]);
    - [for] loops over an index range are folds over that range. *)

From Stdlib Require Import ZArith Lia String.
From stdpp Require Import base tactics option list.

Local Open Scope Z_scope.

(** ** 32-bit signed arithmetic *)

Module Int32.

Definition min_signed : Z := -2147483648.
Definition max_signed : Z := 2147483647.
Definition modulus : Z := 4294967296.

Definition in_range (x : Z) : Prop := min_signed <= x <= max_signed.

Definition wrap (x : Z) : Z := (x - min_signed) mod modulus + min_signed.

Definition add (a b : Z) : Z := wrap (a + b).
Definition sub (a b : Z) : Z := wrap (a - b).
Definition mul (a b : Z) : Z := wrap (a * b).

(** [a / b] and [a % b] of C truncate toward zero; undefined for [b = 0]. *)
Definition quot (a b : Z) : option Z :=
  if decide (b = 0) then None else Some (wrap (Z.quot a b)).
Definition rem (a b : Z) : option Z :=
  if decide (b = 0) then None else Some (Z.rem a b).

End Int32.

(** ** Arrays *)

Definition rd (a : list Z) (i : Z) : option Z :=
  if decide (0 <= i) then a !! Z.to_nat i else None.

Definition wr (a : list Z) (i : Z) (x : Z) : option (list Z) :=
  if decide (0 <= i < Z.of_nat (length a))
  then Some (<[Z.to_nat i := x]> a) else None.

(** [malloc (len * sizeof(int))]: the content of fresh memory is
    indeterminate; [junk] stands for it. *)
Definition malloc (len : Z) (junk : Z) : list Z := replicate (Z.to_nat len) junk.

(** ** Counted loops: [for (i = lo; i < hi; i++) body] *)

Fixpoint for_range {S : Type} (k : nat) (i : Z)
    (body : Z -> S -> option S) (s : S) : option S :=
  match k with
  | O => Some s
  | Datatypes.S k' => s' ← body i s; for_range k' (i + 1) body s'
  end.

Definition for_loop {S : Type} (lo hi : Z)
    (body : Z -> S -> option S) (s : S) : option S :=
  for_range (Z.to_nat (hi - lo)) lo body s.

(** ** The program *)

Definition INFINITY : Z := 1000000.

(** Local state of one rank inside [Dijkstra]. *)
Record worker : Type := Worker {
  my_rank : Z;
  loc_mat : list Z;
  loc_dist : list Z;
  loc_pred : list Z;
  loc_known : list Z
}.

(** [Find_min_dist], lines 319-338. The loop state is
    [(shortest_dist, loc_u)]. *)
Definition Find_min_body (loc_dist loc_known : list Z)
    (loc_v : Z) (st : Z * Z) : option (Z * Z) :=
  k ← rd loc_known loc_v;
  if decide (k = 0) then
    d ← rd loc_dist loc_v;
    if decide (d < st.1) then Some (d, loc_v) else Some st
  else Some st.

Definition Find_min_dist (loc_dist loc_known : list Z) (loc_n : Z) : option Z :=
  st ← for_loop 0 loc_n (Find_min_body loc_dist loc_known) (INFINITY, -1);
  Some st.2.

(** [Dijkstra_Init], lines 239-257; returns [(loc_pred, loc_dist, loc_known)]. *)
Definition Init_body (loc_mat : list Z) (loc_n : Z)
    (loc_v : Z) (st : list Z * list Z) : option (list Z * list Z) :=
  x ← rd loc_mat (Int32.add (Int32.mul 0 loc_n) loc_v);
  d ← wr st.1 loc_v x;
  pr ← wr st.2 loc_v 0;
  Some (d, pr).

Definition Dijkstra_Init (loc_mat loc_pred loc_dist loc_known : list Z)
    (my_rank loc_n : Z) : option (list Z * list Z * list Z) :=
  kn ← wr loc_known 0 (if decide (my_rank = 0) then 1 else 0);
  kn ← for_loop 1 loc_n (fun loc_v kn => wr kn loc_v 0) kn;
  st ← for_loop 0 loc_n (Init_body loc_mat loc_n) (loc_dist, loc_pred);
  Some (st.2, st.1, kn).

(** Lines 276-287: what a rank hands to the reduction, [my_min]. *)
Definition my_min (w : worker) (loc_n : Z) : option (Z * Z) :=
  loc_u ← Find_min_dist (loc_dist w) (loc_known w) loc_n;
  if decide (loc_u <> -1) then
    d ← rd (loc_dist w) loc_u;
    Some (d, Int32.add loc_u (Int32.mul (my_rank w) loc_n))
  else Some (INFINITY, -1).

(** [MPI_MINLOC] on [MPI_2INT] pairs [(value, index)]: the smaller value
    wins, and among equal values the smaller index (MPI standard, the
    predefined reduction operations MINLOC and MAXLOC). *)
Definition MPI_MINLOC (a b : Z * Z) : Z * Z :=
  if decide (a.1 < b.1) then a
  else if decide (b.1 < a.1) then b
  else (a.1, Z.min a.2 b.2).

(** [MPI_Allreduce(my_min, glbl_min, 1, MPI_2INT, MPI_MINLOC, comm)]: the
    contributions are combined in rank order and the one result is delivered
    to every rank.  A communicator has at least one rank. *)
Definition MPI_Allreduce_MINLOC (contribs : list (Z * Z)) : option (Z * Z) :=
  match contribs with
  | [] => None
  | c :: cs => Some (foldl MPI_MINLOC c cs)
  end.

(** Lines 302-314, the relaxation loop; the state is [(loc_dist, loc_pred)]. *)
Definition Relax_body (loc_mat loc_known : list Z) (loc_n glbl_u dist_glbl_u : Z)
    (loc_v : Z) (st : list Z * list Z) : option (list Z * list Z) :=
  k ← rd loc_known loc_v;
  if decide (k = 0) then
    m ← rd loc_mat (Int32.add (Int32.mul glbl_u loc_n) loc_v);
    let new_dist := Int32.add dist_glbl_u m in
    cur ← rd st.1 loc_v;
    if decide (new_dist < cur) then
      d ← wr st.1 loc_v new_dist;
      pr ← wr st.2 loc_v glbl_u;
      Some (d, pr)
    else Some st
  else Some st.

(** Lines 300-314 on one rank, after the test of line 297 did not leave
    the loop. *)
Definition mark_and_relax (loc_n loc_u : Z) (glbl_min : Z * Z) (w : worker)
    : option worker :=
  let glbl_u := glbl_min.2 in
  let dist_glbl_u := glbl_min.1 in
  kn ← wr (loc_known w) loc_u 1;
  st ← for_loop 0 loc_n
         (Relax_body (loc_mat w) kn loc_n glbl_u dist_glbl_u)
         (loc_dist w, loc_pred w);
  Some (Worker (my_rank w) (loc_mat w) st.1 st.2 kn).

Inductive loop_ctl (A : Type) : Type :=
  | Break : loop_ctl A
  | Next : A -> loop_ctl A.
Arguments Break {A}.
Arguments Next {A} _.

(** Lines 276-291 on the whole group: every rank computes [my_min], the
    reduction combines them; the result is the [glbl_min] of every rank. *)
Definition winner (loc_n : Z) (ws : list worker) : option (Z * Z) :=
  contribs ← mapM (fun w => my_min w loc_n) ws;
  MPI_Allreduce_MINLOC contribs.

(** One iteration of the loop of lines 274-315 on the whole group.  All
    ranks have the same [loc_n] and receive the same [glbl_min], so the
    assignment of line 292 and the test of line 297 come out the same on each
    of them. *)
Definition round (loc_n : Z) (ws : list worker) : option (loop_ctl (list worker)) :=
  glbl_min ← winner loc_n ws;
  loc_u ← Int32.rem glbl_min.2 loc_n;
  if decide (glbl_min.2 = -1) then Some Break
  else ws' ← mapM (mark_and_relax loc_n loc_u glbl_min) ws; Some (Next ws').

(** [k] further iterations of the loop from the state [ws]. *)
Fixpoint Dijkstra_loop (loc_n : Z) (k : nat) (ws : list worker)
    : option (list worker) :=
  match k with
  | O => Some ws
  | Datatypes.S k' =>
      r ← round loc_n ws;
      match r with
      | Break => Some ws
      | Next ws' => Dijkstra_loop loc_n k' ws'
      end
  end.

(** Lines 269-272 on one rank: [loc_known] is allocated, the three arrays
    are initialised. *)
Definition Dijkstra_start (loc_n : Z) (junk : Z) (rank : Z)
    (loc_mat loc_dist loc_pred : list Z) : option worker :=
  let loc_known := malloc loc_n junk in
  st ← Dijkstra_Init loc_mat loc_pred loc_dist loc_known rank loc_n;
  Some (Worker rank loc_mat st.1.2 st.1.1 st.2).

(** [Dijkstra] on the group: [bufs] holds, per rank, the arguments
    [(loc_mat, loc_dist, loc_pred)]. *)
Definition Dijkstra_begin (bufs : list (list Z * list Z * list Z)) (loc_n : Z)
    (junk : Z) : option (list worker) :=
  mapM (fun rb : nat * (list Z * list Z * list Z) =>
          Dijkstra_start loc_n junk (Z.of_nat rb.1) rb.2.1.1 rb.2.1.2 rb.2.2)
       (imap pair bufs).

Definition Dijkstra (bufs : list (list Z * list Z * list Z)) (loc_n n : Z)
    (junk : Z) : option (list worker) :=
  ws ← Dijkstra_begin bufs loc_n junk;
  Dijkstra_loop loc_n (Z.to_nat (Int32.sub n 1)) ws.

(** ** Distribution and collection *)

(** The block-column datatype of [Build_blk_col_type] describes [n] runs of
    [loc_n] ints, one per row, [n] ints apart; resized to the extent of
    [loc_n] ints, the block of rank [r] starts [r * loc_n] ints into [mat].
    [MPI_Scatter] in [Read_matrix] delivers it as [n * loc_n] contiguous ints. *)
Definition blk_col (mat : list Z) (n loc_n : Z) (r : nat) : list Z :=
  i ← seq 0 (Z.to_nat n);
  take (Z.to_nat loc_n) (drop (i * Z.to_nat n + r * Z.to_nat loc_n)%nat mat).

Definition Read_matrix (mat : list Z) (n loc_n : Z) (p : nat) : list (list Z) :=
  (fun r => blk_col mat n loc_n r) <$> seq 0 p.

(** [MPI_Gather(loc, loc_n, MPI_INT, global, loc_n, MPI_INT, 0, comm)]: rank
    [r]'s first [loc_n] ints land at offset [r * loc_n] of the receive
    buffer; what lies behind them keeps its content. *)
Definition MPI_Gather (locs : list (list Z)) (loc_n : Z) (global : list Z) : list Z :=
  let got := l ← locs; take (Z.to_nat loc_n) l in
  take (length global) got ++ drop (length got) global.

Inductive outcome : Type :=
  | Exit_failure (msg : string)
  | Results (loc_n : Z) (global_dist global_pred : list Z).

(** The arguments [(loc_mat, loc_dist, loc_pred)] with which the ranks call
    [Dijkstra]: the scattered block and the two arrays of lines 70-71. *)
Definition rank_bufs (p : nat) (n loc_n : Z) (mat : list Z) (junk : Z)
    : list (list Z * list Z * list Z) :=
  (fun m => (m, malloc loc_n junk, malloc loc_n junk)) <$> Read_matrix mat n loc_n p.

(** [main] up to the two gathers of lines 99-100; [p] is the size of the
    communicator, [n] and [mat] are what rank 0 reads from the input,
    [malloc_ok] tells whether the allocations of lines 69-71 succeed. *)
Definition main (p : nat) (n : Z) (mat : list Z) (malloc_ok : bool) (junk : Z)
    : option outcome :=
  loc_n ← Int32.quot n (Z.of_nat p);
  if negb malloc_ok then Some (Exit_failure "Memory allocation failed")
  else
    let global_dist := malloc n junk in
    let global_pred := malloc n junk in
    ws ← Dijkstra (rank_bufs p n loc_n mat junk) loc_n n junk;
    Some (Results loc_n
            (MPI_Gather (loc_dist <$> ws) loc_n global_dist)
            (MPI_Gather (loc_pred <$> ws) loc_n global_pred)).

(** [Print_paths], lines 371-391: the chain of [v] is collected into [path]
    by the [while] loop of lines 377-382.  [fuel] bounds the number of
    iterations the model follows; [None] stands for a loop that has not
    finished within [fuel] iterations or has left an array. *)
Fixpoint path_loop (fuel : nat) (global_pred path : list Z) (count w : Z)
    : option (list Z * Z) :=
  if decide (w <> 0) then
    match fuel with
    | O => None
    | Datatypes.S fuel' =>
        path' ← wr path count w;
        w' ← rd global_pred w;
        path_loop fuel' global_pred path' (Int32.add count 1) w'
    end
  else Some (path, count).

(** What lines 383-388 print for one vertex: [0], then
    [path[count-1] .. path[0]]. *)
Definition printed_path (path : list Z) (count : Z) : list Z :=
  0 :: reverse (take (Z.to_nat count) path).

(** [Print_paths]: [path] is allocated once and reused for every vertex
    [v = 1 .. n-1]; the state of the outer loop is [path] and the lines
    printed so far. *)
Definition Print_paths_body (fuel : nat) (global_pred : list Z)
    (v : Z) (st : list Z * list (list Z)) : option (list Z * list (list Z)) :=
  r ← path_loop fuel global_pred st.1 0 v;
  Some (r.1, st.2 ++ [printed_path r.1 r.2]).

Definition Print_paths (fuel : nat) (global_pred : list Z) (n : Z) (junk : Z)
    : option (list (list Z)) :=
  st ← for_loop 1 n (Print_paths_body fuel global_pred) (malloc n junk, []);
  Some st.2.

(** ** The scenario of the description *)

Definition scenario4 : list Z :=
  [ 0; 1; 4; INFINITY;
    INFINITY; 0; 2; 5;
    INFINITY; INFINITY; 0; 1;
    INFINITY; INFINITY; INFINITY; 0 ].

(** ** Notions for the statements: layout *)

(** The layout the program assumes: [p] ranks, [n = p * loc_n] with
    [loc_n >= 1], rank [r] at position [r] with a block of [n * loc_n]
    weights and three arrays of [loc_n] cells; [n * loc_n] is an [int]. *)
Record wf_worker (n loc_n : Z) (r : nat) (w : worker) : Prop := {
  wf_rank : my_rank w = Z.of_nat r;
  wf_mat : Z.of_nat (length (loc_mat w)) = n * loc_n;
  wf_dist : Z.of_nat (length (loc_dist w)) = loc_n;
  wf_pred : Z.of_nat (length (loc_pred w)) = loc_n;
  wf_known : Z.of_nat (length (loc_known w)) = loc_n
}.

(** A group of [p >= 1] such ranks. *)
Record wf_group (n loc_n : Z) (ws : list worker) : Prop := {
  wf_pos : 0 < loc_n;
  wf_ranks : (0 < length ws)%nat;
  wf_size : n = Z.of_nat (length ws) * loc_n;
  wf_fits : n * loc_n <= Int32.max_signed;
  wf_each : forall (r : nat) w, ws !! r = Some w -> wf_worker n loc_n r w
}.

(** Global index of local vertex [j] of rank [r]. *)
Definition glbl (loc_n : Z) (r j : nat) : Z := Z.of_nat r * loc_n + Z.of_nat j.

(** An input the program is meant for: [p] ranks, an [n] by [n] matrix in
    row-major order, [n] divisible by [p] with quotient [loc_n]. *)
Record valid_input (p : nat) (n loc_n : Z) (mat : list Z) : Prop := {
  vi_p : (0 < p)%nat;
  vi_loc_n : 0 < loc_n;
  vi_n : n = Z.of_nat p * loc_n;
  vi_fits : n * loc_n <= Int32.max_signed;
  vi_mat : Z.of_nat (length mat) = n * n
}.

(** The state of a rank before the first round: only the source (local
    vertex 0 of rank 0) is known, every distance is the direct weight from the
    source, every predecessor is 0. *)
Record initial (loc_n : Z) (w : worker) : Prop := {
  init_known0 :
    loc_known w !! 0%nat = Some (if decide (my_rank w = 0) then 1 else 0);
  init_known : forall v : nat, (0 < v < Z.to_nat loc_n)%nat ->
    loc_known w !! v = Some 0;
  init_dist : forall v : nat, (v < Z.to_nat loc_n)%nat ->
    loc_dist w !! v = loc_mat w !! v;
  init_pred : forall v : nat, (v < Z.to_nat loc_n)%nat ->
    loc_pred w !! v = Some 0
}.

(** The array rank 0 would obtain by gathering one of the local arrays:
    local cell [j] of rank [r] is global cell [r * loc_n + j]. *)
Definition gathered (field : worker -> list Z) (ws : list worker) : list Z :=
  ws ≫= field.

(** ** Notions for the statements: candidates and winners *)

(** Local vertex [v] is not yet known and has tentative distance [d]. *)
Definition unvisited (loc_dist loc_known : list Z) (v : nat) (d : Z) : Prop :=
  loc_known !! v = Some 0 /\ loc_dist !! v = Some d.

(** What [(shortest_dist, loc_u)] records about the cells below [j]. *)
Definition argmin_upto (loc_dist loc_known : list Z) (j : nat) (st : Z * Z) : Prop :=
  (st = (INFINITY, -1) /\
   forall (v : nat) d, (v < j)%nat -> unvisited loc_dist loc_known v d -> INFINITY <= d) \/
  (exists i : nat,
     st.2 = Z.of_nat i /\ (i < j)%nat /\
     unvisited loc_dist loc_known i st.1 /\ st.1 < INFINITY /\
     forall (v : nat) d, (v < j)%nat -> unvisited loc_dist loc_known v d ->
       st.1 < d \/ (st.1 = d /\ (i <= v)%nat)).

(** Order on candidates: by value, then by index. *)
Definition lex_le (a b : Z * Z) : Prop := a.1 < b.1 \/ (a.1 = b.1 /\ a.2 <= b.2).

(** What rank [r] hands to the reduction. *)
Definition candidate_of (loc_n : Z) (r : nat) (w : worker) (c : Z * Z) : Prop :=
  (c = (INFINITY, -1) /\
   forall (v : nat) d, (v < Z.to_nat loc_n)%nat ->
     unvisited (loc_dist w) (loc_known w) v d -> INFINITY <= d) \/
  (exists j : nat,
     c.2 = glbl loc_n r j /\ (j < Z.to_nat loc_n)%nat /\
     unvisited (loc_dist w) (loc_known w) j c.1 /\ c.1 < INFINITY /\
     forall (v : nat) d, (v < Z.to_nat loc_n)%nat ->
       unvisited (loc_dist w) (loc_known w) v d ->
       c.1 < d \/ (c.1 = d /\ (j <= v)%nat)).

(** No rank has an unvisited vertex with a distance below [INFINITY]. *)
Definition exhausted (loc_n : Z) (ws : list worker) : Prop :=
  forall (r : nat) w (v : nat) d, ws !! r = Some w -> (v < Z.to_nat loc_n)%nat ->
    unvisited (loc_dist w) (loc_known w) v d -> INFINITY <= d.

(** [g] is the unvisited vertex least by (distance, global index). *)
Definition least_unvisited (loc_n : Z) (ws : list worker) (g : Z * Z) : Prop :=
  exists (r : nat) w (j : nat),
    ws !! r = Some w /\ (j < Z.to_nat loc_n)%nat /\ g.2 = glbl loc_n r j /\
    unvisited (loc_dist w) (loc_known w) j g.1 /\ g.1 < INFINITY /\
    forall (r' : nat) w' (v : nat) d, ws !! r' = Some w' -> (v < Z.to_nat loc_n)%nat ->
      unvisited (loc_dist w') (loc_known w') v d ->
      g.1 < d \/ (g.1 = d /\ g.2 <= glbl loc_n r' v).

(** Vertex [x] is unvisited with tentative distance [d], read off the
    gathered arrays. *)
Definition gunvisited (ws : list worker) (x : Z) (d : Z) : Prop :=
  0 <= x /\
  unvisited (gathered loc_dist ws) (gathered loc_known ws) (Z.to_nat x) d.

(** ** Notions for the statements: how a round changes a rank *)

(** Cell [v] after the loop, against the arrays before it: untouched, or
    relaxed through [glbl_u]. *)
Definition relaxed_or_kept (mat kn : list Z) (loc_n U D : Z)
    (d0 p0 d p : list Z) (v : nat) : Prop :=
  (d !! v = d0 !! v /\ p !! v = p0 !! v) \/
  (kn !! v = Some 0 /\
   exists m cur,
     rd mat (Int32.add (Int32.mul U loc_n) (Z.of_nat v)) = Some m /\
     d0 !! v = Some cur /\ Int32.add D m < cur /\
     d !! v = Some (Int32.add D m) /\ p !! v = Some U).

(** From [w] to [w'] no distance has gone up, and what was known is still
    known and has kept its distance. *)
Record advances (w w' : worker) : Prop := {
  adv_len_dist : length (loc_dist w') = length (loc_dist w);
  adv_len_known : length (loc_known w') = length (loc_known w);
  adv_le : forall (v : nat) (d d' : Z),
    loc_dist w !! v = Some d -> loc_dist w' !! v = Some d' -> d' <= d;
  adv_fixed : forall (v : nat) (k : Z),
    loc_known w !! v = Some k -> k <> 0 ->
    loc_dist w' !! v = loc_dist w !! v /\
    exists k', loc_known w' !! v = Some k' /\ k' <> 0
}.

(** A weight of the input: an edge length, or [INFINITY] for no edge. *)
Definition weight_ok (x : Z) : Prop := 0 <= x <= INFINITY.

(** Weights and distances of a rank are between 0 and [INFINITY]. *)
Record bounded (w : worker) : Prop := {
  bd_mat : Forall weight_ok (loc_mat w);
  bd_dist : Forall weight_ok (loc_dist w)
}.

(** [x] is the source or one of the vertices of [W]. *)
Definition pred_into (W : list Z) (x : Z) : Prop := x = 0 \/ x ∈ W.

(** [W] lists the winners of the rounds so far, latest first: each is
    known to its owner, and its predecessor is the source or an earlier
    winner. *)
Fixpoint won (loc_n : Z) (ws : list worker) (W : list Z) : Prop :=
  match W with
  | [] => True
  | u :: W' =>
      (exists (r : nat) w (j : nat),
         ws !! r = Some w /\ (j < Z.to_nat loc_n)%nat /\ u = glbl loc_n r j /\
         (exists kv, loc_known w !! j = Some kv /\ kv <> 0) /\
         exists x, loc_pred w !! j = Some x /\ pred_into W' x) /\
      won loc_n ws W'
  end.

(** Every predecessor held by any rank is the source or a winner, and the
    winners are as [won] says. *)
Record chained (loc_n : Z) (ws : list worker) (W : list Z) : Prop := {
  ch_all : forall (r : nat) w (j : nat) x,
    ws !! r = Some w -> loc_pred w !! j = Some x -> pred_into W x;
  ch_won : won loc_n ws W
}.

(** ** Reference algorithm and the states of the scenario *)

(** Specification side: the sequential single-source algorithm the
    description compares the run with, on the whole matrix: [n - 1] times,
    take the unvisited vertex of least tentative distance (the first one among
    equals), mark it, and relax every unvisited vertex through it. *)
Module Reference.

Definition weight (n : nat) (mat : list Z) (u v : nat) : Z :=
  nth (u * n + v) mat INFINITY.

Definition closest (dist : list Z) (visited : list bool) : option nat :=
  fst <$>
  foldl (fun (best : option (nat * Z)) (c : nat * (Z * bool)) =>
           if c.2.2 then best
           else match best with
                | Some b => if decide (c.2.1 < b.2) then Some (c.1, c.2.1) else best
                | None => if decide (c.2.1 < INFINITY) then Some (c.1, c.2.1) else None
                end)
        None (zip (seq 0 (length dist)) (zip dist visited)).

Fixpoint rounds (k n : nat) (mat dist : list Z) (visited : list bool) : list Z :=
  match k with
  | O => dist
  | Datatypes.S k' =>
      match closest dist visited with
      | None => dist
      | Some u =>
          let visited' := <[u := true]> visited in
          let du := nth u dist 0 in
          rounds k' n mat
            (imap (fun v dv => if nth v visited' false then dv
                               else Z.min dv (du + weight n mat u v)) dist)
            visited'
      end
  end.

Definition sequential_Dijkstra (n : nat) (mat : list Z) : list Z :=
  rounds (n - 1) n mat (take n mat) (true :: replicate (n - 1) false).

End Reference.

(** The two ranks of the scenario after [Dijkstra_Init]. *)
Definition scenario4_start2 : list worker :=
  [ Worker 0 [0; 1; INFINITY; 0; INFINITY; INFINITY; INFINITY; INFINITY]
      [0; 1] [0; 0] [1; 0];
    Worker 1 [4; INFINITY; 2; 5; 0; 1; INFINITY; 0]
      [4; INFINITY] [0; 0] [0; 0] ].

(** The same two ranks after the first round. *)
Definition scenario4_round1 : list worker :=
  [ Worker 0 [0; 1; INFINITY; 0; INFINITY; INFINITY; INFINITY; INFINITY]
      [0; 1] [0; 0] [1; 1];
    Worker 1 [4; INFINITY; 2; 5; 0; 1; INFINITY; 0]
      [3; INFINITY] [1; 0] [0; 1] ].

(** The single rank of the scenario after [Dijkstra_Init]. *)
Definition scenario4_start1 : list worker :=
  [ Worker 0 scenario4 [0; 1; 4; INFINITY] [0; 0; 0; 0] [1; 0; 0; 0] ].

(** Number of vertices some rank holds as known. *)
Definition known_total (ws : list worker) : nat :=
  length (filter (fun kv => kv <> 0) (gathered loc_known ws)).

(** Rank that owns global vertex [u]. *)
Definition owner (loc_n u : Z) : Z := u / loc_n.

(** A graph on five vertices: the path 0 -> 1 -> 2 -> 3 -> 4, each edge of
    weight 1. *)
Definition path5 : list Z :=
  [ 0; 1; INFINITY; INFINITY; INFINITY;
    INFINITY; 0; 1; INFINITY; INFINITY;
    INFINITY; INFINITY; 0; 1; INFINITY;
    INFINITY; INFINITY; INFINITY; 0; 1;
    INFINITY; INFINITY; INFINITY; INFINITY; 0 ].

(** A graph on four vertices in which vertices 1, 2 and 3 are all at
    distance 1 from the source and have no other edge. *)
Definition tie4 : list Z :=
  [ 0; 1; 1; 1;
    INFINITY; 0; INFINITY; INFINITY;
    INFINITY; INFINITY; 0; INFINITY;
    INFINITY; INFINITY; INFINITY; 0 ].

(** Two ranks on [tie4] after [Dijkstra_Init], and after the first round. *)
Definition tie4_start2 : list worker :=
  [ Worker 0 [0; 1; INFINITY; 0; INFINITY; INFINITY; INFINITY; INFINITY]
      [0; 1] [0; 0] [1; 0];
    Worker 1 [1; 1; INFINITY; INFINITY; 0; INFINITY; INFINITY; 0]
      [1; 1] [0; 0] [0; 0] ].

Definition tie4_round1_of2 : list worker :=
  [ Worker 0 [0; 1; INFINITY; 0; INFINITY; INFINITY; INFINITY; INFINITY]
      [0; 1] [0; 0] [1; 1];
    Worker 1 [1; 1; INFINITY; INFINITY; 0; INFINITY; INFINITY; 0]
      [1; 1] [0; 0] [0; 1] ].

(** One rank on [tie4] after [Dijkstra_Init], after the first and after the
    second round. *)
Definition tie4_start1 : list worker :=
  [ Worker 0 tie4 [0; 1; 1; 1] [0; 0; 0; 0] [1; 0; 0; 0] ].

Definition tie4_round1_of1 : list worker :=
  [ Worker 0 tie4 [0; 1; 1; 1] [0; 0; 0; 0] [1; 1; 0; 0] ].

Definition tie4_round2_of1 : list worker :=
  [ Worker 0 tie4 [0; 1; 1; 1] [0; 0; 0; 0] [1; 1; 1; 0] ].

(** ** Further parts of the program *)

(** [Print_dists], lines 352-360: one row [(v, global_dist[v])] for every
    vertex [v = 1 .. n-1]; the state of the loop is the rows printed so far. *)
Definition Print_dists_body (global_dist : list Z)
    (v : Z) (out : list (Z * Z)) : option (list (Z * Z)) :=
  d ← rd global_dist v;
  Some (out ++ [(v, d)]).

Definition Print_dists (global_dist : list Z) (n : Z) : option (list (Z * Z)) :=
  for_loop 1 n (Print_dists_body global_dist) [].

(** [Print_matrix], lines 340-350: the rows of a [rows] by [cols] matrix
    stored row after row. *)
Definition Print_matrix_row (global_mat : list Z) (cols i : Z)
    (j : Z) (row : list Z) : option (list Z) :=
  x ← rd global_mat (Int32.add (Int32.mul i cols) j);
  Some (row ++ [x]).

Definition Print_matrix_body (global_mat : list Z) (cols : Z)
    (i : Z) (out : list (list Z)) : option (list (list Z)) :=
  row ← for_loop 0 cols (Print_matrix_row global_mat cols i) [];
  Some (out ++ [row]).

Definition Print_matrix (global_mat : list Z) (rows cols : Z)
    : option (list (list Z)) :=
  for_loop 0 rows (Print_matrix_body global_mat cols) [].

(** ** Notions for the further statements *)

(** Weight of the edge from [u] to [v] in the row-major matrix. *)
Definition edge (mat : list Z) (n u v : Z) : option Z := rd mat (u * n + v).

(** Total weight of the walk that starts at [x] and visits [xs] in order;
    [None] when an edge lies outside the matrix. *)
Fixpoint walk_weight (mat : list Z) (n : Z) (x : Z) (xs : list Z) : option Z :=
  match xs with
  | [] => Some 0
  | y :: ys =>
      m ← edge mat n x y;
      rest ← walk_weight mat n y ys;
      Some (m + rest)
  end.

(** Global vertex [x] is known to its owner, with distance [dx]. *)
Definition settled (loc_n : Z) (ws : list worker) (x dx : Z) : Prop :=
  exists (r : nat) w (j : nat),
    ws !! r = Some w /\ (j < Z.to_nat loc_n)%nat /\ x = glbl loc_n r j /\
    loc_dist w !! j = Some dx /\
    exists kv, loc_known w !! j = Some kv /\ kv <> 0.

(** The distance of local vertex [j] is accounted for by its predecessor
    [x]: it is the weight of the edge from the source, or the distance at
    which a winner [x] was settled plus the weight of the edge from [x]. *)
Definition explained_cell (loc_n : Z) (ws : list worker) (W : list Z)
    (w : worker) (j : nat) : Prop :=
  exists x d m,
    loc_pred w !! j = Some x /\ loc_dist w !! j = Some d /\
    rd (loc_mat w) (x * loc_n + Z.of_nat j) = Some m /\
    ((x = 0 /\ d = m) \/
     (x ∈ W /\ d < INFINITY /\
      exists dx, settled loc_n ws x dx /\ d = dx + m)).

(** Every cell is accounted for; the source stays known at rank 0 with
    predecessor 0 and is never a winner. *)
Record explained (loc_n : Z) (ws : list worker) (W : list Z) : Prop := {
  ex_cells : forall (r : nat) w (j : nat),
    ws !! r = Some w -> (j < Z.to_nat loc_n)%nat ->
    explained_cell loc_n ws W w j;
  ex_source : exists w kv,
    ws !! 0%nat = Some w /\ loc_known w !! 0%nat = Some kv /\ kv <> 0 /\
    loc_pred w !! 0%nat = Some 0 /\ loc_dist w !! 0%nat = loc_mat w !! 0%nat;
  ex_nonzero : forall u, u ∈ W -> u <> 0
}.

(** Rank [r] holds its block of the matrix [mat]. *)
Definition holds_blocks (mat : list Z) (n loc_n : Z) (ws : list worker) : Prop :=
  forall (r : nat) w, ws !! r = Some w -> loc_mat w = blk_col mat n loc_n r.

(** What the run delivers, for every admissible input with weights between
    0 and [INFINITY]. *)
Record consistent (mat : list Z) (n : Z) (gd gp : list Z) : Prop := {
  co_len_dist : Z.of_nat (length gd) = n;
  co_len_pred : Z.of_nat (length gp) = n;
  co_bounded : Forall weight_ok gd;
  co_source : rd gp 0 = Some 0 /\ rd gd 0 = rd mat 0;
  co_cells : forall v, 0 <= v < n ->
    exists u d m,
      rd gp v = Some u /\ 0 <= u < n /\ rd gd v = Some d /\
      edge mat n u v = Some m /\
      ((u = 0 /\ d = m) \/
       (u <> 0 /\ d < INFINITY /\ exists du, rd gd u = Some du /\ d = du + m))
}.

(** [xs] is the chain of [w] under the predecessor array [G]: [w], its
    predecessor, and so on, up to the vertex whose predecessor is 0; empty
    when [w] is 0 itself. *)
Fixpoint is_chain (G : list Z) (w : Z) (xs : list Z) : Prop :=
  match xs with
  | [] => w = 0
  | x :: xs' =>
      x = w /\ w <> 0 /\ exists w', rd G w = Some w' /\ is_chain G w' xs'
  end.

(** Where the walk from [x] through [ys] ends. *)
Definition walk_end (x : Z) (ys : list Z) : Z := default x (last ys).

(** A graph on four vertices in which no edge from another vertex leads
    into vertex 3. *)
Definition island4 : list Z :=
  [ 0; 2; 7; INFINITY;
    INFINITY; 0; 3; INFINITY;
    INFINITY; 1; 0; INFINITY;
    5; INFINITY; 4; 0 ].

(** The vertices of a walk are vertices of the graph. *)
Definition in_graph (n : Z) (ys : list Z) : Prop := Forall (fun y => 0 <= y < n) ys.

(** What the textbook argument keeps between rounds, with [W] the winners
    so far: an unvisited vertex is no farther than the edge from the source
    and than any winner plus its edge; winners are no farther than unvisited
    vertices and than any walk from the source; the source is settled; no
    winner is listed twice. *)
Record tight (mat : list Z) (n loc_n : Z) (ws : list worker) (W : list Z) : Prop := {
  ti_source_edge : forall x d m,
    gunvisited ws x d -> edge mat n 0 x = Some m -> d <= m;
  ti_winner_edge : forall x d u du m,
    gunvisited ws x d -> u ∈ W -> settled loc_n ws u du ->
    edge mat n u x = Some m -> d <= du + m;
  ti_order : forall u du x d,
    u ∈ W -> settled loc_n ws u du -> gunvisited ws x d -> du <= d;
  ti_least : forall u du ys wt,
    u ∈ W -> settled loc_n ws u du -> in_graph n ys ->
    walk_end 0 ys = u -> walk_weight mat n 0 ys = Some wt -> du <= wt;
  ti_settled : forall u, u ∈ W -> exists du, settled loc_n ws u du;
  ti_source : exists d0, settled loc_n ws 0 d0;
  ti_nodup : NoDup W
}.

(** Every vertex is the source, a winner, or unvisited: no vertex is held
    known without having won. *)
Definition all_accounted (n : Z) (ws : list worker) (W : list Z) : Prop :=
  forall x, 0 <= x < n -> x = 0 \/ x ∈ W \/ exists d, gunvisited ws x d.

(** ** Arithmetic and array facts *)

Lemma wrap_small (x : Z) : Int32.in_range x -> Int32.wrap x = x.
Proof.
  unfold Int32.in_range, Int32.wrap, Int32.min_signed, Int32.max_signed,
    Int32.modulus.
  intros H. rewrite Z.mod_small by lia. lia.
Qed.

Lemma rd_Some (a : list Z) (i x : Z) :
  rd a i = Some x <-> 0 <= i /\ a !! Z.to_nat i = Some x.
Proof.
  unfold rd. destruct (decide (0 <= i)); split; try done.
  - by intros [].
  - by intros [].
Qed.

Lemma rd_nat (a : list Z) (j : nat) : rd a (Z.of_nat j) = a !! j.
Proof. unfold rd. rewrite decide_True by lia. by rewrite Nat2Z.id. Qed.

Lemma wr_Some (a : list Z) (i x : Z) (a' : list Z) :
  wr a i x = Some a' <->
  0 <= i < Z.of_nat (length a) /\ a' = <[Z.to_nat i := x]> a.
Proof.
  unfold wr. destruct (decide (0 <= i < Z.of_nat (length a))); split.
  - intros [= <-]. done.
  - by intros [_ ->].
  - done.
  - by intros [].
Qed.

Lemma wr_nat (a : list Z) (j : nat) (x : Z) :
  (j < length a)%nat -> wr a (Z.of_nat j) x = Some (<[j := x]> a).
Proof.
  intros H. unfold wr. rewrite decide_True by lia. by rewrite Nat2Z.id.
Qed.

(** ** Loop rules *)

Section loops.
Context {S : Type}.
Implicit Types (body : Z -> S -> option S) (P : nat -> S -> Prop).

(** Total rule: the invariant also makes every iteration defined. *)
Lemma for_range_total P body (k : nat) (i : Z) (s : S) :
  P 0%nat s ->
  (forall (j : nat) t, (j < k)%nat -> P j t ->
     exists t', body (i + Z.of_nat j) t = Some t' /\ P (Datatypes.S j) t') ->
  exists s', for_range k i body s = Some s' /\ P k s'.
Proof.
  revert P i s. induction k as [|k IH]; intros P i s H0 Hstep.
  - exists s. by split.
  - destruct (Hstep 0%nat s) as (t & Hb & Ht); [lia | done |].
    rewrite Z.add_0_r in Hb.
    destruct (IH (fun j => P (Datatypes.S j)) (i + 1) t Ht) as (s' & Hr & Hs').
    + intros j u Hj Hu. destruct (Hstep (Datatypes.S j) u) as (u' & Hb' & Hu');
        [lia | done |].
      exists u'. split; [|done].
      by replace (i + 1 + Z.of_nat j) with (i + Z.of_nat (Datatypes.S j)) by lia.
    + exists s'. split; [|done]. simpl. by rewrite Hb.
Qed.

(** Partial rule: what a loop that was defined throughout has established. *)
Lemma for_range_partial P body (k : nat) (i : Z) (s s' : S) :
  P 0%nat s ->
  (forall (j : nat) t t', (j < k)%nat -> P j t ->
     body (i + Z.of_nat j) t = Some t' -> P (Datatypes.S j) t') ->
  for_range k i body s = Some s' -> P k s'.
Proof.
  revert P i s. induction k as [|k IH]; intros P i s H0 Hstep Hrun.
  - simpl in Hrun. by simplify_eq.
  - simpl in Hrun. destruct (body i s) as [t|] eqn:Hb; [|done]. simpl in Hrun.
    apply (IH (fun j => P (Datatypes.S j)) (i + 1) t); [| |done].
    + apply (Hstep 0%nat s); [lia | done |]. by rewrite Z.add_0_r.
    + intros j u u' Hj Hu Hb'. apply (Hstep (Datatypes.S j) u); [lia | done |].
      by replace (i + Z.of_nat (Datatypes.S j)) with (i + 1 + Z.of_nat j) by lia.
Qed.
End loops.

(** Case analysis on the first action of a defined sequence. *)
Ltac bind_case H x Hx :=
  match type of H with
  | (mbind _ ?m = Some _) => destruct m as [x|] eqn:Hx; simpl in H; [|discriminate H]
  end.

(** ** The relaxation loop *)

Lemma Relax_loop_partial (mat kn : list Z) (loc_n U D : Z) (d0 p0 d p : list Z) :
  for_loop 0 loc_n (Relax_body mat kn loc_n U D) (d0, p0) = Some (d, p) ->
  length d = length d0 /\ length p = length p0 /\
  forall v : nat, relaxed_or_kept mat kn loc_n U D d0 p0 d p v.
Proof.
  unfold for_loop. intros Hrun.
  pose (P := fun (j : nat) (st : list Z * list Z) =>
    length st.1 = length d0 /\ length st.2 = length p0 /\
    forall v : nat,
      (st.1 !! v = d0 !! v /\ st.2 !! v = p0 !! v) \/
      ((v < j)%nat /\ relaxed_or_kept mat kn loc_n U D d0 p0 st.1 st.2 v)).
  assert (HP : P (Z.to_nat (loc_n - 0)) (d, p)).
  { eapply (for_range_partial P); [| |exact Hrun].
    - repeat split; auto.
    - clear Hrun. intros j [dj pj] [dj' pj'] _ (Hld & Hlp & Hc) Hb.
      simpl in Hld, Hlp, Hc.
      assert (Hkeep : P (Datatypes.S j) (dj, pj)).
      { split_and!; auto. intros v.
        destruct (Hc v) as [?|[? ?]]; [by left|right; split; [lia|done]]. }
      unfold Relax_body in Hb. simpl in Hb. rewrite Z.add_0_l, !rd_nat in Hb.
      bind_case Hb k Hk.
      destruct (decide (k = 0)) as [->|]; [|by simplify_eq].
      bind_case Hb m Hm.
      bind_case Hb cur Hcur.
      destruct (decide (Int32.add D m < cur)) as [Hlt|]; [|by simplify_eq].
      assert (Hj : (j < length dj)%nat) by (by eapply lookup_lt_Some).
      bind_case Hb dj2 Hw1. bind_case Hb pj2 Hw2. simplify_eq.
      apply wr_Some in Hw1 as [Hi1 ->]. apply wr_Some in Hw2 as [Hi2 ->].
      rewrite !Nat2Z.id. unfold P. simpl. rewrite !length_insert.
      split_and!; auto.
      assert (Hj0 : dj !! j = d0 !! j /\ pj !! j = p0 !! j).
      { destruct (Hc j) as [?|[? _]]; [done|exfalso; lia]. }
      intros v. destruct (decide (v = j)) as [->|Hne].
      + right. split; [lia|]. right. split; [done|].
        exists m, cur. split_and!; auto.
        * destruct Hj0 as [<- _]. done.
        * apply list_lookup_insert_eq. lia.
        * apply list_lookup_insert_eq. lia.
      + rewrite !list_lookup_insert_ne by done.
        destruct (Hc v) as [?|[? Hr]]; [by left|right; split; [lia|]].
        unfold relaxed_or_kept in *. by rewrite !list_lookup_insert_ne by done. }
  destruct HP as (Hld & Hlp & Hc). split_and!; auto.
  intros v. destruct (Hc v) as [?|[_ ?]]; [by left|done].
Qed.

(** ** One round, rank by rank *)

Lemma mark_and_relax_Some (loc_n loc_u : Z) (g : Z * Z) (w w' : worker) :
  mark_and_relax loc_n loc_u g w = Some w' ->
  my_rank w' = my_rank w /\ loc_mat w' = loc_mat w /\
  0 <= loc_u < Z.of_nat (length (loc_known w)) /\
  loc_known w' = <[Z.to_nat loc_u := 1]> (loc_known w) /\
  length (loc_dist w') = length (loc_dist w) /\
  length (loc_pred w') = length (loc_pred w) /\
  forall v : nat,
    relaxed_or_kept (loc_mat w) (loc_known w') loc_n g.2 g.1
      (loc_dist w) (loc_pred w) (loc_dist w') (loc_pred w') v.
Proof.
  unfold mark_and_relax. intros H.
  bind_case H kn Hkn. bind_case H st Hst. destruct st as [d p].
  simplify_eq. simpl. apply wr_Some in Hkn as [Hu ->].
  apply Relax_loop_partial in Hst as (? & ? & ?). split_and!; try done; lia.
Qed.

Lemma round_Next (loc_n : Z) (ws ws' : list worker) :
  round loc_n ws = Some (Next ws') ->
  exists g loc_u,
    winner loc_n ws = Some g /\ g.2 <> -1 /\
    Int32.rem g.2 loc_n = Some loc_u /\
    Forall2 (fun w w' => mark_and_relax loc_n loc_u g w = Some w') ws ws'.
Proof.
  unfold round. intros H. bind_case H g Hg. bind_case H loc_u Hu.
  destruct (decide (g.2 = -1)); [done|].
  bind_case H ws2 Hws. simplify_eq. exists g, loc_u. split_and!; auto.
  by apply mapM_Some.
Qed.

(** Induction over the rounds of a run that was defined throughout: a
    relation between group states that holds across every completed round,
    is reflexive and transitive, holds between the start and the end. *)
Lemma Dijkstra_loop_ind (R : list worker -> list worker -> Prop) (loc_n : Z) :
  (forall ws, R ws ws) ->
  (forall a b c, R a b -> R b c -> R a c) ->
  (forall ws ws', round loc_n ws = Some (Next ws') -> R ws ws') ->
  forall k ws ws', Dijkstra_loop loc_n k ws = Some ws' -> R ws ws'.
Proof.
  intros Hrefl Htrans Hstep. induction k as [|k IH]; intros ws ws' H.
  - simpl in H. simplify_eq. apply Hrefl.
  - simpl in H. bind_case H r Hr. destruct r as [|ws1].
    + simplify_eq. apply Hrefl.
    + eapply Htrans; [by apply Hstep|by apply IH].
Qed.

(** ** Distances only go down, and settle *)

Lemma advances_refl (w : worker) : advances w w.
Proof.
  split; auto.
  - intros v d d' H1 H2. simplify_eq. lia.
  - intros v k Hk Hne. split; [done|]. by exists k.
Qed.

Lemma advances_trans (a b c : worker) : advances a b -> advances b c -> advances a c.
Proof.
  intros [l1 m1 le1 f1] [l2 m2 le2 f2]. split.
  - congruence.
  - congruence.
  - intros v d d'' Ha Hc.
    destruct (lookup_lt_is_Some_2 (loc_dist b) v) as [d' Hb].
    { rewrite l1. by eapply lookup_lt_Some. }
    specialize (le1 v d d' Ha Hb). specialize (le2 v d' d'' Hb Hc). lia.
  - intros v k Hk Hne. destruct (f1 v k Hk Hne) as [E1 (k' & Hk' & Hne')].
    destruct (f2 v k' Hk' Hne') as [E2 ?]. split; [congruence|done].
Qed.

Lemma mark_and_relax_advances (loc_n loc_u : Z) (g : Z * Z) (w w' : worker) :
  mark_and_relax loc_n loc_u g w = Some w' -> advances w w'.
Proof.
  intros H. apply mark_and_relax_Some in H
    as (_ & _ & Hu & Hkn & Hld & _ & Hc).
  split.
  - done.
  - rewrite Hkn. apply length_insert.
  - intros v d d' Hd Hd'. destruct (Hc v) as [[E _]|(_ & m & cur & _ & ? & ? & ? & _)].
    + rewrite E in Hd'. simplify_eq. lia.
    + simplify_eq. lia.
  - intros v k Hk Hne. rewrite Hkn.
    destruct (decide (v = Z.to_nat loc_u)) as [->|Hv].
    + rewrite list_lookup_insert_eq by lia. split; [|by exists 1].
      destruct (Hc (Z.to_nat loc_u)) as [[E _]|(Hz & _)]; [done|].
      rewrite Hkn, list_lookup_insert_eq in Hz by lia. done.
    + rewrite list_lookup_insert_ne by done. split; [|by exists k].
      destruct (Hc v) as [[E _]|(Hz & _)]; [done|].
      rewrite Hkn, list_lookup_insert_ne in Hz by done. congruence.
Qed.

Lemma round_advances (loc_n : Z) (ws ws' : list worker) :
  round loc_n ws = Some (Next ws') -> Forall2 advances ws ws'.
Proof.
  intros H. apply round_Next in H as (g & loc_u & _ & _ & _ & H).
  eapply Forall2_impl; [exact H|]. intros w w'. apply mark_and_relax_advances.
Qed.

(** ** The local minimum *)

Lemma Find_min_loop_spec (loc_dist loc_known : list Z) (loc_n : Z) :
  loc_n <= Z.of_nat (length loc_dist) ->
  loc_n <= Z.of_nat (length loc_known) ->
  exists st,
    for_loop 0 loc_n (Find_min_body loc_dist loc_known) (INFINITY, -1) = Some st /\
    argmin_upto loc_dist loc_known (Z.to_nat loc_n) st.
Proof.
  intros Hld Hlk. unfold for_loop. rewrite Z.sub_0_r.
  apply (for_range_total (argmin_upto loc_dist loc_known)).
  { left. split; [done|]. intros v d Hv. lia. }
  intros j [sd u] Hj Hinv. rewrite Z.add_0_l. unfold Find_min_body.
  rewrite !rd_nat.
  destruct (lookup_lt_is_Some_2 loc_known j) as [k Hk]; [lia|].
  destruct (lookup_lt_is_Some_2 loc_dist j) as [d Hd]; [lia|].
  rewrite Hk. simpl.
  assert (Hsd : sd <= INFINITY).
  { destruct Hinv as [[E _]|(i & _ & _ & _ & ? & _)]; simpl in *;
      [by simplify_eq|lia]. }
  destruct (decide (k = 0)) as [->|Hk0].
  - rewrite Hd. simpl. destruct (decide (d < sd)) as [Hlt|Hge].
    + eexists. split; [done|]. right. exists j. simpl. split_and!; auto; try lia.
      { by split. }
      intros v d' Hv [Hvk Hvd]. destruct (decide (v = j)) as [->|Hne].
      * right. simplify_eq. split; [done|lia].
      * left. destruct Hinv as [[E Hall]|(i & _ & _ & _ & _ & Hall)]; simpl in *.
        -- simplify_eq. specialize (Hall v d'). unfold unvisited in Hall.
           assert (INFINITY <= d') by (apply Hall; [lia|done]). lia.
        -- destruct (Hall v d') as [?|[? _]]; [lia|done|lia|lia].
    + eexists. split; [done|].
      destruct Hinv as [[E Hall]|(i & Hu & Hi & Hun & Hlt & Hall)]; simpl in *.
      * left. split; [done|]. simplify_eq. intros v d' Hv [Hvk Hvd].
        destruct (decide (v = j)) as [->|Hne]; [simplify_eq; lia|].
        apply (Hall v d'); [lia|done].
      * right. exists i. simpl. split_and!; auto; try lia.
        intros v d' Hv [Hvk Hvd].
        destruct (decide (v = j)) as [->|Hne]; [simplify_eq; lia|].
        apply (Hall v d'); [lia|done].
  - eexists. split; [done|].
    destruct Hinv as [[E Hall]|(i & Hu & Hi & Hun & Hlt & Hall)]; simpl in *.
    + left. split; [done|]. intros v d' Hv [Hvk Hvd].
      destruct (decide (v = j)) as [->|Hne]; [simplify_eq|].
      apply (Hall v d'); [lia|done].
    + right. exists i. simpl. split_and!; auto; try lia.
      intros v d' Hv [Hvk Hvd].
      destruct (decide (v = j)) as [->|Hne]; [simplify_eq|].
      apply (Hall v d'); [lia|done].
Qed.

(** ** The reduction *)

Lemma lex_le_refl (a : Z * Z) : lex_le a a.
Proof. right. split; [done|lia]. Qed.

Lemma lex_le_trans (a b c : Z * Z) : lex_le a b -> lex_le b c -> lex_le a c.
Proof. unfold lex_le. intros [?|[? ?]] [?|[? ?]]; [left|left|left|right]; lia. Qed.

Lemma MPI_MINLOC_spec (a b : Z * Z) :
  (MPI_MINLOC a b = a \/ MPI_MINLOC a b = b) /\
  lex_le (MPI_MINLOC a b) a /\ lex_le (MPI_MINLOC a b) b.
Proof.
  unfold MPI_MINLOC, lex_le. destruct a as [a1 a2], b as [b1 b2]. simpl.
  destruct (decide (a1 < b1)); [|destruct (decide (b1 < a1))]; simpl.
  - split_and!; [by left|right; split; [done|lia]|by left].
  - split_and!; [by right|by left|right; split; [done|lia]].
  - assert (a1 = b1) as -> by lia. split_and!.
    + destruct (Z.min_spec a2 b2) as [[_ ->]|[_ ->]]; [by left|by right].
    + right. split; [done|lia].
    + right. split; [done|lia].
Qed.

Lemma foldl_MINLOC_spec (cs : list (Z * Z)) (c : Z * Z) :
  foldl MPI_MINLOC c cs ∈ c :: cs /\
  forall c', c' ∈ c :: cs -> lex_le (foldl MPI_MINLOC c cs) c'.
Proof.
  revert c. induction cs as [|b cs IH]; intros c; simpl.
  - split; [apply list_elem_of_here|].
    intros c' Hc'. apply list_elem_of_singleton in Hc' as ->. apply lex_le_refl.
  - destruct (IH (MPI_MINLOC c b)) as [Hin Hle].
    destruct (MPI_MINLOC_spec c b) as (Hsel & Hc & Hb).
    split.
    + destruct Hsel as [E|E]; rewrite E in Hin |- *.
      * apply elem_of_cons in Hin as [Heq|Hin].
        { rewrite Heq. apply list_elem_of_here. }
        by do 2 apply list_elem_of_further.
      * by apply list_elem_of_further.
    + intros c' Hc'. apply elem_of_cons in Hc' as [->|Hc'].
      { eapply lex_le_trans; [|exact Hc]. apply Hle, list_elem_of_here. }
      apply elem_of_cons in Hc' as [->|Hc'].
      { eapply lex_le_trans; [|exact Hb]. apply Hle, list_elem_of_here. }
      by apply Hle, list_elem_of_further.
Qed.

(** ** Well-formed groups *)

Lemma glbl_bounds (n loc_n : Z) (ws : list worker) (r j : nat) :
  wf_group n loc_n ws -> (r < length ws)%nat -> (j < Z.to_nat loc_n)%nat ->
  0 <= Z.of_nat r * loc_n /\ 0 <= glbl loc_n r j < n /\ n <= Int32.max_signed.
Proof.
  intros [Hpos Hne Hn Hfit _] Hr Hj. unfold glbl. nia.
Qed.

Lemma my_min_spec (n loc_n : Z) (ws : list worker) (r : nat) (w : worker) :
  wf_group n loc_n ws -> ws !! r = Some w ->
  exists c, my_min w loc_n = Some c /\ candidate_of loc_n r w c.
Proof.
  intros Hwf Hw. pose proof (wf_each _ _ _ Hwf r w Hw) as [Hrk _ Hd _ Hk].
  destruct (Find_min_loop_spec (loc_dist w) (loc_known w) loc_n)
    as ([sd u] & Hrun & Hinv); [lia|lia|].
  unfold my_min, Find_min_dist. rewrite Hrun. simpl.
  destruct Hinv as [[E Hall]|(i & Hu & Hi & Hun & Hlt & Hall)]; simpl in *.
  - simplify_eq. rewrite decide_False by lia.
    eexists. split; [done|]. by left.
  - subst u. rewrite decide_True by lia. rewrite rd_nat.
    destruct Hun as [Hik Hid]. rewrite Hid. simpl. eexists. split; [done|].
    right. exists i. simpl. split_and!; auto; [|by split].
    apply lookup_lt_Some in Hw.
    destruct (glbl_bounds n loc_n ws r i Hwf Hw Hi) as (H0 & Hg & Hmax).
    unfold glbl in *. rewrite Hrk. unfold Int32.add, Int32.mul.
    rewrite (wrap_small (Z.of_nat r * loc_n)).
    + rewrite wrap_small; [lia|].
      unfold Int32.in_range, Int32.min_signed. lia.
    + unfold Int32.in_range, Int32.min_signed. lia.
Qed.

Lemma winner_candidates (n loc_n : Z) (ws : list worker) :
  wf_group n loc_n ws ->
  exists g cs,
    Forall2 (fun w c => my_min w loc_n = Some c) ws cs /\
    winner loc_n ws = Some g /\ g ∈ cs /\ forall c, c ∈ cs -> lex_le g c.
Proof.
  intros Hwf. unfold winner.
  destruct (mapM (fun w => my_min w loc_n) ws) as [cs|] eqn:Hcs.
  - apply mapM_Some in Hcs. simpl.
    destruct cs as [|c cs].
    + apply Forall2_length in Hcs. pose proof (wf_ranks _ _ _ Hwf).
      simpl in Hcs. lia.
    + simpl. destruct (foldl_MINLOC_spec cs c) as [Hin Hle].
      by exists (foldl MPI_MINLOC c cs), (c :: cs).
  - exfalso. apply eq_None_not_Some in Hcs. apply Hcs, mapM_is_Some.
    apply Forall_forall. intros w Hin.
    apply list_elem_of_lookup in Hin as [r Hr].
    destruct (my_min_spec n loc_n ws r w Hwf Hr) as (c & Hc & _).
    simpl. rewrite Hc. by eexists.
Qed.

Lemma candidate_lookup (n loc_n : Z) (ws : list worker) (cs : list (Z * Z))
    (r : nat) (w : worker) :
  wf_group n loc_n ws ->
  Forall2 (fun w c => my_min w loc_n = Some c) ws cs ->
  ws !! r = Some w ->
  exists c, cs !! r = Some c /\ my_min w loc_n = Some c /\ candidate_of loc_n r w c.
Proof.
  intros Hwf Hcs Hw.
  destruct (Forall2_lookup_l _ _ _ _ _ Hcs Hw) as (c & Hc & Hm).
  destruct (my_min_spec n loc_n ws r w Hwf Hw) as (c' & Hm' & Hcand).
  exists c. split_and!; auto. congruence.
Qed.

Lemma winner_spec (n loc_n : Z) (ws : list worker) :
  wf_group n loc_n ws ->
  exists g,
    winner loc_n ws = Some g /\
    ((g = (INFINITY, -1) /\ exhausted loc_n ws /\
      forall w, w ∈ ws -> my_min w loc_n = Some (INFINITY, -1)) \/
     (0 <= g.2 < n /\ least_unvisited loc_n ws g /\
      exists w, w ∈ ws /\ my_min w loc_n = Some g)).
Proof.
  intros Hwf. destruct (winner_candidates n loc_n ws Hwf)
    as (g & cs & Hcs & Hwin & Hin & Hle).
  exists g. split; [done|].
  apply list_elem_of_lookup in Hin as [r Hr].
  destruct (Forall2_lookup_r _ _ _ _ _ Hcs Hr) as (w & Hw & Hm).
  destruct (candidate_lookup n loc_n ws cs r w Hwf Hcs Hw) as (c & Hc & Hm' & Hcand).
  assert (c = g) as -> by congruence. clear Hc Hm'.
  destruct Hcand as [[-> Hall]|(j & Hg2 & Hj & Hun & Hlt & Hall)].
  - left. split; [done|].
    assert (Hsent : forall (r' : nat) w', ws !! r' = Some w' ->
              my_min w' loc_n = Some (INFINITY, -1) /\
              candidate_of loc_n r' w' (INFINITY, -1)).
    { intros r' w' Hw'.
      destruct (candidate_lookup n loc_n ws cs r' w' Hwf Hcs Hw')
        as (c & Hc & Hm' & Hcand).
      assert (Hlex : lex_le (INFINITY, -1) c)
        by (by eapply Hle, list_elem_of_lookup_2).
      destruct Hcand as [[-> ?]|(j & ? & ? & ? & Hlt & ?)].
      - split; [done|]. by left.
      - exfalso. unfold lex_le in Hlex. simpl in Hlex. lia. }
    split.
    + intros r' w' v d Hw' Hv Hun.
      destruct (Hsent r' w' Hw') as [_ [[_ Hall']|(j & Hj2 & _)]].
      * by eapply Hall'.
      * simpl in Hj2. unfold glbl in Hj2. pose proof (wf_pos _ _ _ Hwf). nia.
    + intros w' Hin'. apply list_elem_of_lookup in Hin' as [r' Hw'].
      by destruct (Hsent r' w' Hw').
  - right.
    pose proof (glbl_bounds n loc_n ws r j Hwf (lookup_lt_Some _ _ _ Hw) Hj)
      as (_ & Hb & _).
    split; [by rewrite Hg2|]. split; [|exists w; split;
      [by eapply list_elem_of_lookup_2|done]].
    exists r, w, j. split_and!; auto.
    intros r' w' v d Hw' Hv Hun'.
    destruct (candidate_lookup n loc_n ws cs r' w' Hwf Hcs Hw')
      as (c & Hc & Hm' & Hcand).
    assert (Hlex : lex_le g c) by (by eapply Hle, list_elem_of_lookup_2).
    unfold lex_le in Hlex.
    destruct Hcand as [[-> Hall']|(j' & Hc2 & Hj' & _ & _ & Hall')].
    + left. specialize (Hall' v d Hv Hun'). lia.
    + destruct (Hall' v d Hv Hun') as [?|[? ?]]; [left; lia|].
      destruct Hlex as [?|[? ?]]; [left; lia|]. right. split; [lia|].
      rewrite Hc2 in *. unfold glbl in *. lia.
Qed.

(** ** Every access of a round is inside its array *)

Lemma row_index (n loc_n U : Z) (v : nat) :
  0 < loc_n -> n * loc_n <= Int32.max_signed -> 0 <= U < n ->
  (v < Z.to_nat loc_n)%nat ->
  Int32.add (Int32.mul U loc_n) (Z.of_nat v) = U * loc_n + Z.of_nat v /\
  0 <= U * loc_n + Z.of_nat v < n * loc_n.
Proof.
  intros Hpos Hfit HU Hv. unfold Int32.add, Int32.mul.
  assert (0 <= U * loc_n /\ U * loc_n + Z.of_nat v < n * loc_n) by nia.
  rewrite (wrap_small (U * loc_n))
    by (unfold Int32.in_range, Int32.min_signed; lia).
  rewrite wrap_small by (unfold Int32.in_range, Int32.min_signed; lia). lia.
Qed.

Lemma Relax_loop_total (n loc_n U D : Z) (mat kn d0 p0 : list Z) :
  0 < loc_n -> n * loc_n <= Int32.max_signed -> 0 <= U < n ->
  Z.of_nat (length mat) = n * loc_n ->
  Z.of_nat (length kn) = loc_n ->
  Z.of_nat (length d0) = loc_n ->
  Z.of_nat (length p0) = loc_n ->
  is_Some (for_loop 0 loc_n (Relax_body mat kn loc_n U D) (d0, p0)).
Proof.
  intros Hpos Hfit HU Hm Hk Hd Hp. unfold for_loop. rewrite Z.sub_0_r.
  destruct (for_range_total
    (fun (_ : nat) (st : list Z * list Z) =>
       length st.1 = length d0 /\ length st.2 = length p0)
    (Relax_body mat kn loc_n U D) (Z.to_nat loc_n) 0 (d0, p0))
    as (st & Hrun & _); [done| |by exists st].
  intros j [dj pj] Hj [Hdj Hpj]. simpl in Hdj, Hpj.
  rewrite Z.add_0_l. unfold Relax_body. simpl. rewrite !rd_nat.
  destruct (lookup_lt_is_Some_2 kn j) as [k ->]; [lia|]. simpl.
  destruct (decide (k = 0)); [|by eexists].
  destruct (row_index n loc_n U j Hpos Hfit HU Hj) as [-> Hidx].
  unfold rd at 1. rewrite decide_True by lia.
  destruct (lookup_lt_is_Some_2 mat (Z.to_nat (U * loc_n + Z.of_nat j)))
    as [m ->]; [lia|]. simpl.
  destruct (lookup_lt_is_Some_2 dj j) as [cur ->]; [lia|]. simpl.
  destruct (decide (Int32.add D m < cur)); [|by eexists].
  rewrite !wr_nat by lia. simpl. eexists. split; [done|]. simpl.
  by rewrite !length_insert.
Qed.

Lemma mark_and_relax_total (n loc_n loc_u : Z) (g : Z * Z) (r : nat) (w : worker) :
  0 < loc_n -> n * loc_n <= Int32.max_signed -> 0 <= g.2 < n ->
  0 <= loc_u < loc_n -> wf_worker n loc_n r w ->
  exists w', mark_and_relax loc_n loc_u g w = Some w' /\ wf_worker n loc_n r w'.
Proof.
  intros Hpos Hfit HU Hu [Hrk Hm Hd Hp Hk].
  assert (is_Some (mark_and_relax loc_n loc_u g w)) as [w' Hw'].
  { unfold mark_and_relax. unfold wr at 1. rewrite decide_True by lia. simpl.
    assert (Hk' : Z.of_nat (length (<[Z.to_nat loc_u := 1]> (loc_known w))) = loc_n)
      by (by rewrite length_insert).
    destruct (Relax_loop_total n loc_n g.2 g.1 (loc_mat w)
      (<[Z.to_nat loc_u := 1]> (loc_known w)) (loc_dist w) (loc_pred w)
      Hpos Hfit HU Hm Hk' Hd Hp) as [st ->]. by eexists. }
  exists w'. split; [done|].
  apply mark_and_relax_Some in Hw' as (E1 & E2 & _ & E3 & E4 & E5 & _).
  split; [congruence..|]. rewrite E3, length_insert. done.
Qed.

Lemma round_total (n loc_n : Z) (ws : list worker) :
  wf_group n loc_n ws ->
  exists g,
    winner loc_n ws = Some g /\
    ((g.2 = -1 /\ round loc_n ws = Some Break) \/
     (0 <= g.2 < n /\
      (exists loc_u, Int32.rem g.2 loc_n = Some loc_u /\ 0 <= loc_u < loc_n) /\
      exists ws', round loc_n ws = Some (Next ws') /\ wf_group n loc_n ws')).
Proof.
  intros Hwf. pose proof Hwf as [Hpos Hne Hn Hfit Heach].
  destruct (winner_spec n loc_n ws Hwf) as (g & Hwin & Hcase).
  exists g. split; [done|]. unfold round. rewrite Hwin. simpl.
  unfold Int32.rem. rewrite decide_False by lia. simpl.
  destruct Hcase as [(-> & _)|(Hg & _)].
  - left. by rewrite decide_True.
  - right. split; [done|]. rewrite decide_False by lia.
    pose proof (Z.rem_bound_pos g.2 loc_n) as Hrem.
    split; [exists (Z.rem g.2 loc_n); split; [done|lia]|].
    destruct (mapM (mark_and_relax loc_n (Z.rem g.2 loc_n) g) ws) as [ws'|] eqn:Hmap.
    + exists ws'. split; [done|]. apply mapM_Some in Hmap.
      pose proof (Forall2_length _ _ _ Hmap) as Hlen.
      split; auto; [lia|lia|].
      intros r w' Hw'. destruct (Forall2_lookup_r _ _ _ _ _ Hmap Hw') as (w & Hw & Hstep).
      destruct (mark_and_relax_total n loc_n (Z.rem g.2 loc_n) g r w)
        as (w2 & Hw2 & Hwf2); [done|done|done|lia|by apply Heach|]. congruence.
    + exfalso. apply eq_None_not_Some in Hmap. apply Hmap, mapM_is_Some.
      apply Forall_forall. intros w Hin. apply list_elem_of_lookup in Hin as [r Hr].
      destruct (mark_and_relax_total n loc_n (Z.rem g.2 loc_n) g r w)
        as (w2 & Hw2 & _); [done|done|done|lia|by apply Heach|].
      simpl. rewrite Hw2. by eexists.
Qed.

Lemma Dijkstra_loop_total (n loc_n : Z) (k : nat) (ws : list worker) :
  wf_group n loc_n ws ->
  exists ws', Dijkstra_loop loc_n k ws = Some ws' /\ wf_group n loc_n ws'.
Proof.
  revert ws. induction k as [|k IH]; intros ws Hwf; simpl.
  - by exists ws.
  - destruct (round_total n loc_n ws Hwf)
      as (g & _ & [[_ ->]|(_ & _ & ws1 & -> & Hwf1)]); simpl.
    + by exists ws.
    + by apply IH.
Qed.

(** ** The state [Dijkstra_Init] leaves *)

Lemma known_loop_spec (loc_n : Z) (kn : list Z) :
  Z.of_nat (length kn) = loc_n ->
  exists kn',
    for_loop 1 loc_n (fun loc_v kn => wr kn loc_v 0) kn = Some kn' /\
    length kn' = length kn /\ kn' !! 0%nat = kn !! 0%nat /\
    forall v : nat, (0 < v < Z.to_nat loc_n)%nat -> kn' !! v = Some 0.
Proof.
  intros Hk. unfold for_loop.
  destruct (for_range_total
    (fun (j : nat) (a : list Z) =>
       length a = length kn /\ a !! 0%nat = kn !! 0%nat /\
       forall v : nat, (0 < v < 1 + j)%nat -> a !! v = Some 0)
    (fun loc_v kn => wr kn loc_v 0) (Z.to_nat (loc_n - 1)) 1 kn)
    as (kn' & Hrun & Hl & H0 & Hall).
  - split_and!; auto. intros v Hv. lia.
  - intros j a Hj (Hl & H0 & Hall).
    replace (1 + Z.of_nat j) with (Z.of_nat (Datatypes.S j)) by lia.
    rewrite wr_nat by lia. eexists. split; [done|].
    rewrite length_insert. split_and!; auto.
    + by rewrite list_lookup_insert_ne by lia.
    + intros v Hv. destruct (decide (v = Datatypes.S j)) as [->|Hne].
      * apply list_lookup_insert_eq. lia.
      * rewrite list_lookup_insert_ne by lia. apply Hall. lia.
  - exists kn'. split_and!; auto. intros v Hv. apply Hall. lia.
Qed.

Lemma Init_loop_spec (loc_n : Z) (mat d0 p0 : list Z) :
  loc_n <= Int32.max_signed ->
  loc_n <= Z.of_nat (length mat) ->
  Z.of_nat (length d0) = loc_n -> Z.of_nat (length p0) = loc_n ->
  exists d p,
    for_loop 0 loc_n (Init_body mat loc_n) (d0, p0) = Some (d, p) /\
    length d = length d0 /\ length p = length p0 /\
    forall v : nat, (v < Z.to_nat loc_n)%nat ->
      d !! v = mat !! v /\ p !! v = Some 0.
Proof.
  intros Hfit Hm Hd Hp. unfold for_loop. rewrite Z.sub_0_r.
  destruct (for_range_total
    (fun (j : nat) (st : list Z * list Z) =>
       length st.1 = length d0 /\ length st.2 = length p0 /\
       forall v : nat, (v < j)%nat -> st.1 !! v = mat !! v /\ st.2 !! v = Some 0)
    (Init_body mat loc_n) (Z.to_nat loc_n) 0 (d0, p0))
    as ([d p] & Hrun & Hl1 & Hl2 & Hall).
  - split_and!; auto. intros v Hv. lia.
  - intros j [dj pj] Hj (Hl1 & Hl2 & Hall). simpl in *.
    rewrite Z.add_0_l. unfold Init_body. simpl.
    replace (Int32.add (Int32.mul 0 loc_n) (Z.of_nat j)) with (Z.of_nat j).
    2:{ unfold Int32.add, Int32.mul. rewrite Z.mul_0_l.
        rewrite (wrap_small 0) by (unfold Int32.in_range, Int32.min_signed,
          Int32.max_signed; lia).
        rewrite wrap_small; [done|].
        unfold Int32.in_range, Int32.min_signed. lia. }
    rewrite rd_nat. destruct (lookup_lt_is_Some_2 mat j) as [x Hx]; [lia|].
    rewrite Hx. simpl. rewrite !wr_nat by lia. simpl.
    eexists. split; [done|]. simpl. rewrite !length_insert. split_and!; auto.
    intros v Hv. destruct (decide (v = j)) as [->|Hne].
    + rewrite !list_lookup_insert_eq by lia. done.
    + rewrite !list_lookup_insert_ne by done. apply Hall. lia.
  - exists d, p. by split_and!.
Qed.

Lemma Dijkstra_start_spec (n loc_n junk : Z) (r : nat) (mat d0 p0 : list Z) :
  0 < loc_n -> n * loc_n <= Int32.max_signed -> 0 < n ->
  Z.of_nat (length mat) = n * loc_n ->
  Z.of_nat (length d0) = loc_n -> Z.of_nat (length p0) = loc_n ->
  exists w,
    Dijkstra_start loc_n junk (Z.of_nat r) mat d0 p0 = Some w /\
    loc_mat w = mat /\ wf_worker n loc_n r w /\ initial loc_n w.
Proof.
  intros Hpos Hfit Hn Hm Hd Hp. unfold Dijkstra_start, Dijkstra_Init.
  assert (Hmal : Z.of_nat (length (malloc loc_n junk)) = loc_n).
  { unfold malloc. rewrite length_replicate. lia. }
  set (b := if decide (Z.of_nat r = 0) then 1 else 0).
  assert (Hw0 : wr (malloc loc_n junk) 0 b
                = Some (<[0%nat := b]> (malloc loc_n junk)))
    by (apply (wr_nat _ 0%nat); lia).
  rewrite Hw0. simpl.
  destruct (known_loop_spec loc_n (<[0%nat := b]> (malloc loc_n junk)))
    as (kn & -> & Hlk & Hk0 & Hkall); [by rewrite length_insert|]. simpl.
  destruct (Init_loop_spec loc_n mat d0 p0) as (d & p & -> & Hld & Hlp & Hall);
    [nia|nia|done|done|]. simpl.
  eexists. split; [done|]. rewrite length_insert in Hlk.
  split; [done|]. split.
  - split; simpl; auto; lia.
  - split; simpl.
    + rewrite Hk0. apply list_lookup_insert_eq. lia.
    + done.
    + intros v Hv. by apply Hall.
    + intros v Hv. by apply Hall.
Qed.

(** ** Distribution *)

Lemma length_bind_const {A B : Type} (f : A -> list B) (m : nat) (l : list A) :
  (forall a, a ∈ l -> length (f a) = m) -> length (l ≫= f) = (length l * m)%nat.
Proof.
  induction l as [|a l IH]; intros H; [done|].
  change ((a :: l) ≫= f) with (f a ++ (l ≫= f)).
  rewrite length_app, IH, H; [simpl; lia|apply list_elem_of_here|].
  intros b Hb. by apply H, list_elem_of_further.
Qed.

Lemma blk_col_length (p : nat) (n loc_n : Z) (mat : list Z) (r : nat) :
  valid_input p n loc_n mat -> (r < p)%nat ->
  Z.of_nat (length (blk_col mat n loc_n r)) = n * loc_n.
Proof.
  intros [Hp Hpos Hn Hfit Hm] Hr. unfold blk_col.
  rewrite (length_bind_const _ (Z.to_nat loc_n)).
  - rewrite length_seq. nia.
  - intros i Hi. apply elem_of_seq in Hi. rewrite length_take, length_drop. nia.
Qed.

Lemma blk_col_Forall (P : Z -> Prop) (n loc_n : Z) (mat : list Z) (r : nat) :
  Forall P mat -> Forall P (blk_col mat n loc_n r).
Proof.
  intros H. unfold blk_col. apply Forall_bind, Forall_forall. intros i _. simpl.
  by apply Forall_take, Forall_drop.
Qed.

Lemma Dijkstra_begin_spec (n loc_n junk : Z)
    (bufs : list (list Z * list Z * list Z)) :
  0 < loc_n -> n * loc_n <= Int32.max_signed ->
  (0 < length bufs)%nat -> n = Z.of_nat (length bufs) * loc_n ->
  (forall (r : nat) b, bufs !! r = Some b ->
     Z.of_nat (length b.1.1) = n * loc_n /\
     Z.of_nat (length b.1.2) = loc_n /\ Z.of_nat (length b.2) = loc_n) ->
  exists ws,
    Dijkstra_begin bufs loc_n junk = Some ws /\ wf_group n loc_n ws /\
    forall (r : nat) w, ws !! r = Some w ->
      initial loc_n w /\ exists b, bufs !! r = Some b /\ loc_mat w = b.1.1.
Proof.
  intros Hpos Hfit Hne Hn Hbufs. unfold Dijkstra_begin.
  set (f := fun rb : nat * (list Z * list Z * list Z) =>
          Dijkstra_start loc_n junk (Z.of_nat rb.1) rb.2.1.1 rb.2.1.2 rb.2.2).
  assert (Hstart : forall (r : nat) b, bufs !! r = Some b ->
            exists w, f (r, b) = Some w /\ loc_mat w = b.1.1 /\
                      wf_worker n loc_n r w /\ initial loc_n w).
  { intros r b Hb. destruct (Hbufs r b Hb) as (H1 & H2 & H3).
    apply Dijkstra_start_spec; auto. nia. }
  destruct (mapM f (imap pair bufs)) as [ws|] eqn:Hmap.
  - exists ws. split; [done|]. apply mapM_Some in Hmap.
    pose proof (Forall2_length _ _ _ Hmap) as Hlen. rewrite length_imap in Hlen.
    assert (Hall : forall (r : nat) w, ws !! r = Some w ->
              exists b, bufs !! r = Some b /\ loc_mat w = b.1.1 /\
                        wf_worker n loc_n r w /\ initial loc_n w).
    { intros r w Hw.
      destruct (Forall2_lookup_r _ _ _ _ _ Hmap Hw) as (x & Hx & Hfx).
      rewrite list_lookup_imap in Hx.
      destruct (bufs !! r) as [b|] eqn:Hb; [|done]. simpl in Hx. simplify_eq.
      destruct (Hstart r b Hb) as (w' & Hw' & ?). exists b.
      assert (w' = w) as -> by congruence. done. }
    split.
    + split; auto; [lia|lia|]. intros r w Hw.
      by destruct (Hall r w Hw) as (b & _ & _ & ? & _).
    + intros r w Hw. destruct (Hall r w Hw) as (b & ? & ? & _ & ?).
      split; [done|]. by exists b.
  - exfalso. apply eq_None_not_Some in Hmap. apply Hmap, mapM_is_Some.
    apply Forall_forall. intros x Hin. apply list_elem_of_lookup in Hin as [r Hr].
    rewrite list_lookup_imap in Hr.
    destruct (bufs !! r) as [b|] eqn:Hb; [|done]. simpl in Hr. simplify_eq.
    destruct (Hstart r b Hb) as (w & Hw & _). simpl. rewrite Hw. by eexists.
Qed.

(** ** The global view of the per-rank arrays *)

Lemma lookup_bind_uniform {A B : Type} (f : A -> list B) (m : nat)
    (l : list A) (r j : nat) (x : A) :
  (forall a, a ∈ l -> length (f a) = m) ->
  l !! r = Some x -> (j < m)%nat ->
  (l ≫= f) !! (r * m + j)%nat = f x !! j.
Proof.
  revert r. induction l as [|a l IH]; intros r Hlen Hr Hj; [done|].
  change ((a :: l) ≫= f) with (f a ++ (l ≫= f)).
  assert (Ha : length (f a) = m) by apply Hlen, list_elem_of_here.
  destruct r as [|r]; simpl in Hr.
  - simplify_eq. simpl. apply lookup_app_l. lia.
  - rewrite lookup_app_r by lia.
    replace (Datatypes.S r * m + j - length (f a))%nat with (r * m + j)%nat by lia.
    apply IH; auto. intros b Hb. by apply Hlen, list_elem_of_further.
Qed.

Lemma gathered_lookup (field : worker -> list Z) (n loc_n : Z)
    (ws : list worker) (r j : nat) (w : worker) :
  (forall w, w ∈ ws -> Z.of_nat (length (field w)) = loc_n) ->
  ws !! r = Some w -> (j < Z.to_nat loc_n)%nat ->
  gathered field ws !! Z.to_nat (glbl loc_n r j) = field w !! j.
Proof.
  intros Hlen Hw Hj. unfold gathered, glbl.
  replace (Z.to_nat (Z.of_nat r * loc_n + Z.of_nat j))
    with (r * Z.to_nat loc_n + j)%nat by nia.
  apply lookup_bind_uniform; auto. intros a Ha. specialize (Hlen a Ha). lia.
Qed.

Lemma gathered_length (field : worker -> list Z) (loc_n : Z) (ws : list worker) :
  (forall w, w ∈ ws -> Z.of_nat (length (field w)) = loc_n) ->
  Z.of_nat (length (gathered field ws)) = Z.of_nat (length ws) * loc_n.
Proof.
  intros Hlen. unfold gathered.
  rewrite (length_bind_const _ (Z.to_nat loc_n)).
  - destruct ws as [|w ws]; [simpl; lia|].
    specialize (Hlen w (list_elem_of_here _ _)). nia.
  - intros a Ha. specialize (Hlen a Ha). lia.
Qed.

(** Every vertex has an owner. *)
Lemma owner_of (n loc_n : Z) (ws : list worker) (x : Z) :
  wf_group n loc_n ws -> 0 <= x < n ->
  exists (r : nat) w (j : nat),
    ws !! r = Some w /\ (j < Z.to_nat loc_n)%nat /\ x = glbl loc_n r j.
Proof.
  intros [Hpos Hne Hn Hfit _] Hx.
  assert (Hr : (Z.to_nat (x / loc_n) < length ws)%nat).
  { assert (x / loc_n < Z.of_nat (length ws))
      by (apply Z.div_lt_upper_bound; lia).
    pose proof (Z.div_pos x loc_n). lia. }
  destruct (lookup_lt_is_Some_2 ws _ Hr) as [w Hw].
  exists (Z.to_nat (x / loc_n)), w, (Z.to_nat (x mod loc_n)).
  pose proof (Z.mod_pos_bound x loc_n Hpos).
  pose proof (Z.div_pos x loc_n).
  split; [done|]. split; [lia|]. unfold glbl.
  rewrite !Z2Nat.id by lia. pose proof (Z.div_mod x loc_n). lia.
Qed.

Lemma wf_field_lengths (n loc_n : Z) (ws : list worker) :
  wf_group n loc_n ws ->
  (forall w, w ∈ ws -> Z.of_nat (length (loc_dist w)) = loc_n) /\
  (forall w, w ∈ ws -> Z.of_nat (length (loc_pred w)) = loc_n) /\
  (forall w, w ∈ ws -> Z.of_nat (length (loc_known w)) = loc_n).
Proof.
  intros Hwf. split_and!; intros w Hin;
    apply list_elem_of_lookup in Hin as [r Hr];
    by destruct (wf_each _ _ _ Hwf r w Hr).
Qed.

(** ** Same graph, two partitions *)

Lemma gunvisited_local (n loc_n : Z) (ws : list worker) (r j : nat) (w : worker) (d : Z) :
  wf_group n loc_n ws -> ws !! r = Some w -> (j < Z.to_nat loc_n)%nat ->
  gunvisited ws (glbl loc_n r j) d <-> unvisited (loc_dist w) (loc_known w) j d.
Proof.
  intros Hwf Hw Hj. destruct (wf_field_lengths n loc_n ws Hwf) as (Hd & _ & Hk).
  unfold gunvisited, unvisited.
  rewrite (gathered_lookup loc_dist n loc_n ws r j w) by done.
  rewrite (gathered_lookup loc_known n loc_n ws r j w) by done.
  pose proof (wf_pos _ _ _ Hwf). unfold glbl. split; [by intros [_ ?]|].
  intros ?. split; [nia|done].
Qed.

Lemma gunvisited_owner (n loc_n : Z) (ws : list worker) (x d : Z) :
  wf_group n loc_n ws -> gunvisited ws x d ->
  exists (r : nat) w (j : nat),
    ws !! r = Some w /\ (j < Z.to_nat loc_n)%nat /\ x = glbl loc_n r j /\
    unvisited (loc_dist w) (loc_known w) j d.
Proof.
  intros Hwf Hx. pose proof Hx as [Hx0 [Hk _]].
  apply lookup_lt_Some in Hk.
  destruct (wf_field_lengths n loc_n ws Hwf) as (_ & _ & Hlk).
  pose proof (gathered_length loc_known loc_n ws Hlk) as Hlen.
  pose proof (wf_size _ _ _ Hwf).
  destruct (owner_of n loc_n ws x Hwf) as (r & w & j & Hw & Hj & ->); [lia|].
  exists r, w, j. split_and!; auto. by eapply gunvisited_local.
Qed.

Lemma winner_global (n loc_n : Z) (ws : list worker) :
  wf_group n loc_n ws ->
  exists g,
    winner loc_n ws = Some g /\
    ((g = (INFINITY, -1) /\ forall x d, gunvisited ws x d -> INFINITY <= d) \/
     (gunvisited ws g.2 g.1 /\ g.1 < INFINITY /\
      forall x d, gunvisited ws x d -> g.1 < d \/ (g.1 = d /\ g.2 <= x))).
Proof.
  intros Hwf. destruct (winner_spec n loc_n ws Hwf) as (g & Hg & Hcase).
  exists g. split; [done|].
  destruct Hcase as [(-> & Hex & _)|(_ & (r & w & j & Hw & Hj & Hg2 & Hun & Hlt & Hall) & _)].
  - left. split; [done|]. intros x d Hx.
    destruct (gunvisited_owner n loc_n ws x d Hwf Hx) as (r & w & j & Hw & Hj & _ & Hun).
    by eapply Hex.
  - right. split_and!; auto.
    + rewrite Hg2. by eapply gunvisited_local.
    + intros x d Hx.
      destruct (gunvisited_owner n loc_n ws x d Hwf Hx)
        as (r' & w' & j' & Hw' & Hj' & -> & Hun').
      by eapply Hall.
Qed.

(** A completed round from a well-formed state, with all it needs. *)
Lemma round_step (n loc_n : Z) (ws ws' : list worker) :
  wf_group n loc_n ws -> round loc_n ws = Some (Next ws') ->
  exists g,
    winner loc_n ws = Some g /\ 0 <= g.2 < n /\ wf_group n loc_n ws' /\
    Forall2 (fun w w' => mark_and_relax loc_n (g.2 mod loc_n) g w = Some w') ws ws'.
Proof.
  intros Hwf Hround.
  destruct (round_total n loc_n ws Hwf) as (g & Hg & [[_ Hb]|(Hg2 & _ & ws2 & Hn & Hwf')]);
    [congruence|].
  assert (ws2 = ws') as -> by congruence.
  apply round_Next in Hround as (g' & loc_u & Hg' & _ & Hrem & Hall).
  assert (g' = g) as -> by congruence.
  exists g. split; [done|]. split; [done|]. split; [done|].
  unfold Int32.rem in Hrem. pose proof (wf_pos _ _ _ Hwf).
  rewrite decide_False in Hrem by lia. simplify_eq.
  by rewrite Z.rem_mod_nonneg in Hall by lia.
Qed.

Lemma glbl_mod (loc_n : Z) (r j : nat) :
  (j < Z.to_nat loc_n)%nat -> glbl loc_n r j mod loc_n = Z.of_nat j.
Proof.
  intros Hj. unfold glbl. rewrite Z.add_comm, Z_mod_plus_full.
  apply Z.mod_small. lia.
Qed.

(** The owner of the winner marks it known. *)
Lemma round_marks_winner (n loc_n : Z) (ws ws' : list worker) (g : Z * Z)
    (r j : nat) (w : worker) :
  wf_group n loc_n ws -> round loc_n ws = Some (Next ws') ->
  winner loc_n ws = Some g ->
  ws !! r = Some w -> (j < Z.to_nat loc_n)%nat -> g.2 = glbl loc_n r j ->
  exists w', ws' !! r = Some w' /\ loc_known w' !! j = Some 1.
Proof.
  intros Hwf Hround Hg Hw Hj Hg2.
  destruct (round_step n loc_n ws ws' Hwf Hround) as (g' & Hg' & _ & _ & Hall).
  assert (g' = g) as -> by congruence.
  destruct (Forall2_lookup_l _ _ _ _ _ Hall Hw) as (w' & Hw' & Hstep).
  exists w'. split; [done|].
  apply mark_and_relax_Some in Hstep as (_ & _ & Hu & -> & _).
  rewrite Hg2, glbl_mod, Nat2Z.id by done.
  apply list_lookup_insert_eq. rewrite Hg2, glbl_mod in Hu by done. lia.
Qed.

(** ** Claims about the reduction *)

(** C5. A rank all of whose local vertices are known hands the sentinel
    [(INFINITY, -1)] to the reduction; more exactly, a rank hands in the
    sentinel exactly when none of its unvisited local vertices has a distance
    below [INFINITY].  The index [-1] comes out of the reduction exactly when
    every rank has handed in the sentinel, which is exactly when no unvisited
    vertex of the whole graph has a distance below [INFINITY]; the loop is
    then left.  Otherwise the winner is an unvisited vertex with a distance
    below [INFINITY] and the round is completed. *)
Theorem sentinel_wins_only_at_exhaustion (n loc_n : Z) (ws : list worker) :
  wf_group n loc_n ws ->
  (forall w, w ∈ ws ->
     (forall v : nat, (v < Z.to_nat loc_n)%nat -> loc_known w !! v <> Some 0) ->
     my_min w loc_n = Some (INFINITY, -1)) /\
  (forall w, w ∈ ws ->
     (my_min w loc_n = Some (INFINITY, -1) <->
      forall (v : nat) d, (v < Z.to_nat loc_n)%nat ->
        unvisited (loc_dist w) (loc_known w) v d -> INFINITY <= d)) /\
  exists g,
    winner loc_n ws = Some g /\
    (g.2 = -1 <-> forall w, w ∈ ws -> my_min w loc_n = Some (INFINITY, -1)) /\
    (g.2 = -1 <-> forall x d, gunvisited ws x d -> INFINITY <= d) /\
    (g.2 = -1 -> round loc_n ws = Some Break) /\
    (g.2 <> -1 ->
     gunvisited ws g.2 g.1 /\ g.1 < INFINITY /\
     exists ws', round loc_n ws = Some (Next ws')).
Proof.
  intros Hwf. split; [|split].
  - intros w Hin Hknown. apply list_elem_of_lookup in Hin as [r Hr].
    destruct (my_min_spec n loc_n ws r w Hwf Hr) as (c & Hc & Hcand).
    destruct Hcand as [[-> _]|(j & _ & Hj & [Hk _] & _)]; [done|].
    by destruct (Hknown j Hj).
  - intros w Hin. apply list_elem_of_lookup in Hin as [r Hr].
    destruct (my_min_spec n loc_n ws r w Hwf Hr) as (c & Hc & Hcand).
    rewrite Hc.
    destruct Hcand as [[-> Hall]|(j & Hc2 & Hj & Hun & Hlt & _)].
    + split; [by intros _|done].
    + split.
      * intros E. assert (E2 : c.2 = -1) by (by simplify_eq). exfalso.
        pose proof (wf_pos _ _ _ Hwf). rewrite E2 in Hc2. unfold glbl in Hc2. nia.
      * intros Hall. specialize (Hall j c.1 Hj Hun). lia.
  - destruct (winner_spec n loc_n ws Hwf) as (g & Hg & Hcase).
    destruct (winner_global n loc_n ws Hwf) as (g' & Hg' & Hglobal).
    assert (g' = g) as -> by congruence.
    exists g. split; [done|]. split; [|split; [|split]].
    + destruct Hcase as [(-> & _ & Hall)|(Hg2 & _ & w & Hin & Hm)].
      * split; [by intros _|done].
      * split; [lia|]. intros Hall. specialize (Hall w Hin).
        rewrite Hm in Hall. simplify_eq. simpl in Hg2. lia.
    + destruct Hglobal as [[-> Hall]|(Hun & Hlt & _)].
      * split; [by intros _|done].
      * split.
        { intros E. destruct Hun as [H0 _]. lia. }
        { intros Hall. specialize (Hall _ _ Hun). lia. }
    + intros Hm1.
      destruct (round_total n loc_n ws Hwf) as (g' & Hg'' & [[_ Hb]|(Hg2 & _)]);
        [done|]. assert (g' = g) as -> by congruence. lia.
    + intros Hne.
      destruct Hglobal as [[-> _]|(Hun & Hlt & _)]; [done|].
      split; [done|]. split; [done|].
      destruct (round_total n loc_n ws Hwf)
        as (g' & Hg'' & [[Hs _]|(_ & _ & ws' & Hround & _)]).
      * assert (g' = g) as -> by congruence. done.
      * by exists ws'.
Qed.

Lemma winner_same_graph (n l1 l2 : Z) (ws1 ws2 : list worker) :
  wf_group n l1 ws1 -> wf_group n l2 ws2 ->
  gathered loc_dist ws1 = gathered loc_dist ws2 ->
  gathered loc_known ws1 = gathered loc_known ws2 ->
  winner l1 ws1 = winner l2 ws2.
Proof.
  intros Hwf1 Hwf2 Ed Ek.
  assert (Hsame : forall x d, gunvisited ws1 x d <-> gunvisited ws2 x d).
  { intros x d. unfold gunvisited. by rewrite Ed, Ek. }
  destruct (winner_global n l1 ws1 Hwf1) as ([a1 a2] & -> & H1).
  destruct (winner_global n l2 ws2 Hwf2) as ([b1 b2] & -> & H2).
  f_equal. simpl in *.
  destruct H1 as [[E1 A1]|(U1 & L1 & A1)], H2 as [[E2 A2]|(U2 & L2 & A2)].
  - congruence.
  - apply Hsame in U2. specialize (A1 _ _ U2). lia.
  - apply Hsame in U1. specialize (A2 _ _ U1). lia.
  - pose proof U1 as U1'. apply Hsame in U1'. apply Hsame in U2.
    specialize (A1 _ _ U2). specialize (A2 _ _ U1'). f_equal; lia.
Qed.

(** What holds of the reduction in every well-formed state: it returns
    one of the pairs handed in, least by distance and, among equal distances,
    by index.  The winner of a round is therefore the unvisited vertex that
    is least by (distance, global index), its owner marks it known in that
    round, and two partitions of the same global arrays (same [n], different
    numbers of ranks) agree on it.  Which other vertices the round marks is
    not settled by this. *)
Theorem winner_least_distance_then_index (n l1 l2 : Z) (ws1 ws2 : list worker) :
  wf_group n l1 ws1 -> wf_group n l2 ws2 ->
  gathered loc_dist ws1 = gathered loc_dist ws2 ->
  gathered loc_known ws1 = gathered loc_known ws2 ->
  exists g,
    winner l1 ws1 = Some g /\ winner l2 ws2 = Some g /\
    (exists w, w ∈ ws1 /\ my_min w l1 = Some g) /\
    (forall w c, w ∈ ws1 -> my_min w l1 = Some c -> lex_le g c) /\
    (g.2 <> -1 ->
     gunvisited ws1 g.2 g.1 /\
     (forall x d, gunvisited ws1 x d -> g.1 < d \/ (g.1 = d /\ g.2 <= x)) /\
     exists ws1',
       round l1 ws1 = Some (Next ws1') /\
       gathered loc_known ws1' !! Z.to_nat g.2 = Some 1).
Proof.
  intros Hwf1 Hwf2 Ed Ek.
  destruct (winner_candidates n l1 ws1 Hwf1) as (g & cs & Hcs & Hg & Hin & Hle).
  exists g. split; [done|].
  split; [by rewrite <- (winner_same_graph n l1 l2 ws1 ws2)|].
  split_and!.
  - apply list_elem_of_lookup in Hin as [r Hr].
    destruct (Forall2_lookup_r _ _ _ _ _ Hcs Hr) as (w & Hw & Hm).
    exists w. split; [by eapply list_elem_of_lookup_2|done].
  - intros w c Hw Hc. apply list_elem_of_lookup in Hw as [r Hr].
    destruct (Forall2_lookup_l _ _ _ _ _ Hcs Hr) as (c' & Hc' & Hm).
    assert (c' = c) as -> by congruence.
    by eapply Hle, list_elem_of_lookup_2.
  - intros Hne.
    destruct (winner_global n l1 ws1 Hwf1) as (g' & Hg' & Hcase).
    assert (g' = g) as -> by congruence.
    destruct Hcase as [[-> _]|(Hun & Hlt & Hall)]; [done|].
    split; [done|]. split; [done|].
    destruct (round_total n l1 ws1 Hwf1)
      as (g' & Hg'' & [[Hs _]|(_ & _ & ws' & Hround & Hwf')]).
    { assert (g' = g) as -> by congruence. done. }
    exists ws'. split; [done|].
    destruct (gunvisited_owner n l1 ws1 _ _ Hwf1 Hun) as (r & w & j & Hw & Hj & Hg2 & _).
    destruct (round_marks_winner n l1 ws1 ws' g r j w) as (w' & Hw' & Hk); auto.
    rewrite Hg2.
    destruct (wf_field_lengths n l1 ws' Hwf') as (_ & _ & Hlk).
    by rewrite (gathered_lookup loc_known n l1 ws' r j w').
Qed.

(** ** Claims about a run *)

(** C7. Across any number of rounds from any state the loop reaches, the
    distance of every local vertex can only go down, and the distance of a
    vertex that is known stays what it is and the vertex stays known. *)
Theorem dist_never_increases_and_settles (n loc_n : Z) (k : nat) (ws : list worker) :
  wf_group n loc_n ws ->
  exists ws',
    Dijkstra_loop loc_n k ws = Some ws' /\
    forall (r : nat) w w', ws !! r = Some w -> ws' !! r = Some w' ->
      forall (v : nat) (d : Z), loc_dist w !! v = Some d ->
        exists d',
          loc_dist w' !! v = Some d' /\ d' <= d /\
          forall kv, loc_known w !! v = Some kv -> kv <> 0 ->
            d' = d /\ exists kv', loc_known w' !! v = Some kv' /\ kv' <> 0.
Proof.
  intros Hwf.
  destruct (Dijkstra_loop_total n loc_n k ws Hwf) as (ws' & Hrun & _).
  exists ws'. split; [done|].
  assert (Hadv : Forall2 advances ws ws').
  { revert Hrun. apply Dijkstra_loop_ind.
    - intros l. apply Forall_Forall2_diag, Forall_forall. intros w _.
      apply advances_refl.
    - intros a b c. apply Forall2_trans. apply advances_trans.
    - apply round_advances. }
  intros r w w' Hw Hw' v d Hd.
  pose proof (Forall2_lookup_lr _ _ _ _ _ _ Hadv Hw Hw') as [Hl _ Hle Hfix].
  destruct (lookup_lt_is_Some_2 (loc_dist w') v) as [d' Hd'].
  { rewrite Hl. by eapply lookup_lt_Some. }
  exists d'. split; [done|]. split; [by eapply Hle|].
  intros kv Hkv Hne. destruct (Hfix v kv Hkv Hne) as [E Hk'].
  split; [congruence|done].
Qed.

(** C9. In a round from a well-formed state every array access is inside
    its array: when the reduced index is [-1] the loop is left before
    [loc_known] is written or the matrix is read; otherwise the index is a
    vertex, [loc_u] is a local index and every cell read from row [glbl_u]
    lies in the local block; the state after the round is well formed again,
    so this holds for as many rounds as the loop makes. *)
Theorem driver_accesses_in_bounds (n loc_n : Z) (k : nat) (ws : list worker) :
  wf_group n loc_n ws ->
  (exists g,
     winner loc_n ws = Some g /\
     ((g.2 = -1 /\ round loc_n ws = Some Break) \/
      (0 <= g.2 < n /\
       (exists loc_u, Int32.rem g.2 loc_n = Some loc_u /\ 0 <= loc_u < loc_n) /\
       (forall loc_v, 0 <= loc_v < loc_n ->
          0 <= Int32.add (Int32.mul g.2 loc_n) loc_v < n * loc_n) /\
       exists ws', round loc_n ws = Some (Next ws') /\ wf_group n loc_n ws'))) /\
  exists ws', Dijkstra_loop loc_n k ws = Some ws' /\ wf_group n loc_n ws'.
Proof.
  intros Hwf. split; [|by apply Dijkstra_loop_total].
  destruct (round_total n loc_n ws Hwf) as (g & Hg & Hcase).
  exists g. split; [done|].
  destruct Hcase as [?|(Hg2 & Hu & Hnext)]; [by left|right].
  split_and!; auto; try lia.
  intros loc_v Hv. pose proof Hwf as [Hpos _ _ Hfit _].
  destruct (row_index n loc_n g.2 (Z.to_nat loc_v) Hpos Hfit Hg2) as [E Hb]; [lia|].
  rewrite Z2Nat.id in E, Hb by lia. rewrite E. lia.
Qed.

(** ** The run from the input *)

Lemma run_start (p : nat) (n loc_n junk : Z) (mat : list Z) :
  valid_input p n loc_n mat ->
  exists ws0,
    Dijkstra_begin (rank_bufs p n loc_n mat junk) loc_n junk = Some ws0 /\
    wf_group n loc_n ws0 /\ length ws0 = p /\
    forall (r : nat) w, ws0 !! r = Some w ->
      initial loc_n w /\ loc_mat w = blk_col mat n loc_n r.
Proof.
  intros Hvi. pose proof Hvi as [Hp Hpos Hn Hfit Hm].
  assert (Hlen : length (rank_bufs p n loc_n mat junk) = p).
  { unfold rank_bufs, Read_matrix. by rewrite !length_fmap, length_seq. }
  assert (Hbuf : forall (r : nat) b, rank_bufs p n loc_n mat junk !! r = Some b ->
            (r < p)%nat /\
            b = (blk_col mat n loc_n r, malloc loc_n junk, malloc loc_n junk)).
  { intros r b Hb. unfold rank_bufs, Read_matrix in Hb.
    rewrite !list_lookup_fmap in Hb.
    destruct (seq 0 p !! r) as [i|] eqn:Hi; [|done]. simpl in Hb.
    apply lookup_seq in Hi as [-> ?]. by simplify_eq. }
  destruct (Dijkstra_begin_spec n loc_n junk (rank_bufs p n loc_n mat junk))
    as (ws0 & Hrun & Hwf & Hall); auto; try (rewrite Hlen; lia).
  { intros r b Hb. destruct (Hbuf r b Hb) as [Hr ->]. simpl.
    split; [by eapply blk_col_length|].
    unfold malloc. rewrite length_replicate. lia. }
  exists ws0. split_and!; auto.
  - unfold Dijkstra_begin in Hrun. apply mapM_Some, Forall2_length in Hrun.
    rewrite length_imap in Hrun. lia.
  - intros r w Hw. destruct (Hall r w Hw) as (Hinit & b & Hb & Hmat).
    split; [done|]. destruct (Hbuf r b Hb) as [_ ->]. done.
Qed.

(** ** Weights between 0 and [INFINITY] *)

Lemma initial_bounded (n loc_n : Z) (r : nat) (w : worker) :
  wf_worker n loc_n r w -> initial loc_n w ->
  Forall weight_ok (loc_mat w) -> bounded w.
Proof.
  intros [_ _ Hd _ _] [_ _ Hinit _] Hmat. split; [done|].
  apply Forall_lookup. intros v x Hx.
  assert (Hv : (v < Z.to_nat loc_n)%nat) by (apply lookup_lt_Some in Hx; lia).
  rewrite Hinit in Hx by done. by eapply Forall_lookup_1.
Qed.

Lemma winner_bounded (n loc_n : Z) (ws : list worker) (g : Z * Z) :
  wf_group n loc_n ws -> Forall bounded ws ->
  winner loc_n ws = Some g -> g.2 <> -1 -> 0 <= g.1 < INFINITY.
Proof.
  intros Hwf Hb Hg Hne.
  destruct (winner_spec n loc_n ws Hwf) as (g' & Hg' & Hcase).
  assert (g' = g) as -> by congruence.
  destruct Hcase as [[-> _]|(_ & (r & w & j & Hw & _ & _ & [_ Hd] & Hlt & _) & _)];
    [done|].
  assert (Hbw : bounded w) by (by eapply Forall_lookup_1).
  destruct Hbw as [_ Hbd].
  pose proof (Forall_lookup_1 _ _ _ _ Hbd Hd) as [? _]. lia.
Qed.

Lemma relaxation_sum (D m : Z) :
  0 <= D < INFINITY -> weight_ok m ->
  0 <= D + m <= 2000000 /\ Int32.add D m = D + m.
Proof.
  unfold weight_ok, INFINITY. intros HD Hm. split; [lia|].
  apply wrap_small. unfold Int32.in_range, Int32.min_signed, Int32.max_signed. lia.
Qed.

Lemma mark_and_relax_bounded (loc_n loc_u : Z) (g : Z * Z) (w w' : worker) :
  0 <= g.1 < INFINITY -> bounded w ->
  mark_and_relax loc_n loc_u g w = Some w' ->
  bounded w' /\
  forall v : nat,
    rd (loc_mat w) (Int32.add (Int32.mul g.2 loc_n) (Z.of_nat v)) = Some INFINITY ->
    loc_dist w' !! v = loc_dist w !! v.
Proof.
  intros HD [Hbm Hbd] Hstep.
  apply mark_and_relax_Some in Hstep as (_ & Emat & _ & _ & Hld & _ & Hc).
  split; [split|].
  - by rewrite Emat.
  - apply Forall_lookup. intros v x Hx.
    destruct (Hc v) as [[E _]|(_ & m & cur & Hm & Hcur & Hlt & Hnew & _)].
    + rewrite E in Hx. exact (Forall_lookup_1 _ _ _ _ Hbd Hx).
    + assert (weight_ok m).
      { apply rd_Some in Hm as [_ Hm]. exact (Forall_lookup_1 _ _ _ _ Hbm Hm). }
      pose proof (Forall_lookup_1 _ _ _ _ Hbd Hcur) as Hcb.
      destruct (relaxation_sum g.1 m HD H) as [Hs E]. rewrite E in *.
      simplify_eq. unfold weight_ok in *. lia.
  - intros v Hinf.
    destruct (Hc v) as [[E _]|(_ & m & cur & Hm & Hcur & Hlt & _)]; [done|].
    exfalso. assert (m = INFINITY) as -> by congruence.
    pose proof (Forall_lookup_1 _ _ _ _ Hbd Hcur) as Hcb.
    assert (Hok : weight_ok INFINITY) by (unfold weight_ok, INFINITY; lia).
    destruct (relaxation_sum g.1 INFINITY HD Hok) as [_ E]. rewrite E in Hlt.
    unfold weight_ok in Hcb. lia.
Qed.

Lemma round_bounded (n loc_n : Z) (ws ws' : list worker) :
  wf_group n loc_n ws -> Forall bounded ws ->
  round loc_n ws = Some (Next ws') -> Forall bounded ws'.
Proof.
  intros Hwf Hb Hround.
  destruct (round_step n loc_n ws ws' Hwf Hround) as (g & Hg & Hg2 & _ & Hall).
  assert (HD : 0 <= g.1 < INFINITY) by (eapply winner_bounded; eauto; lia).
  apply Forall_lookup. intros r w' Hw'.
  destruct (Forall2_lookup_r _ _ _ _ _ Hall Hw') as (w & Hw & Hstep).
  eapply mark_and_relax_bounded; [done| |done]. by eapply Forall_lookup_1.
Qed.

Lemma Dijkstra_loop_bounded (n loc_n : Z) (k : nat) (ws ws' : list worker) :
  wf_group n loc_n ws -> Forall bounded ws ->
  Dijkstra_loop loc_n k ws = Some ws' ->
  wf_group n loc_n ws' /\ Forall bounded ws'.
Proof.
  intros Hwf Hb Hrun. revert Hwf Hb.
  apply (Dijkstra_loop_ind
    (fun a b => wf_group n loc_n a -> Forall bounded a ->
                wf_group n loc_n b /\ Forall bounded b) loc_n) with (k := k);
    [| | |done].
  - done.
  - intros a b c Hab Hbc Hwa Hba. destruct (Hab Hwa Hba). by apply Hbc.
  - intros a b Hround Hwa Hba. split; [|by eapply round_bounded].
    by destruct (round_step n loc_n a b Hwa Hround) as (_ & _ & _ & ? & _).
Qed.

(** C8. With every input weight between 0 and [INFINITY] = 1,000,000, the
    state after any number of rounds has every distance between 0 and
    1,000,000; in the round that follows, the winning distance is below
    1,000,000, so every sum [dist_glbl_u + weight] the relaxation may form
    lies between 0 and 2,000,000 and the 32-bit addition does not wrap; and
    a vertex whose edge from the winner is the no-edge value keeps its
    distance. *)
Theorem distances_bounded_no_overflow (p : nat) (n loc_n junk : Z) (mat : list Z)
    (k : nat) :
  valid_input p n loc_n mat -> Forall weight_ok mat ->
  exists ws0 ws,
    Dijkstra_begin (rank_bufs p n loc_n mat junk) loc_n junk = Some ws0 /\
    Dijkstra_loop loc_n k ws0 = Some ws /\
    (forall w, w ∈ ws -> Forall weight_ok (loc_dist w)) /\
    exists g,
      winner loc_n ws = Some g /\
      (g.2 <> -1 ->
       0 <= g.1 < INFINITY /\
       (forall w m, w ∈ ws -> m ∈ loc_mat w ->
          0 <= g.1 + m <= 2000000 /\ Int32.add g.1 m = g.1 + m) /\
       exists ws',
         round loc_n ws = Some (Next ws') /\
         (forall w', w' ∈ ws' -> Forall weight_ok (loc_dist w')) /\
         forall (r : nat) w w' (v : nat),
           ws !! r = Some w -> ws' !! r = Some w' ->
           rd (loc_mat w) (Int32.add (Int32.mul g.2 loc_n) (Z.of_nat v))
             = Some INFINITY ->
           loc_dist w' !! v = loc_dist w !! v).
Proof.
  intros Hvi Hmat.
  destruct (run_start p n loc_n junk mat Hvi) as (ws0 & Hbegin & Hwf0 & _ & Hinit).
  assert (Hb0 : Forall bounded ws0).
  { apply Forall_lookup. intros r w Hw. destruct (Hinit r w Hw) as [Hi Hm].
    eapply initial_bounded; [by eapply wf_each|done|].
    rewrite Hm. by apply blk_col_Forall. }
  destruct (Dijkstra_loop_total n loc_n k ws0 Hwf0) as (ws & Hrun & _).
  destruct (Dijkstra_loop_bounded n loc_n k ws0 ws Hwf0 Hb0 Hrun) as [Hwf Hb].
  exists ws0, ws. split; [done|]. split; [done|]. split.
  { intros w Hw. by destruct (proj1 (Forall_forall _ _) Hb w Hw). }
  destruct (round_total n loc_n ws Hwf) as (g & Hg & Hcase).
  exists g. split; [done|]. intros Hne.
  pose proof (winner_bounded n loc_n ws g Hwf Hb Hg Hne) as HD.
  split; [done|]. split.
  { intros w m Hw Hm. apply relaxation_sum; [done|].
    destruct (proj1 (Forall_forall _ _) Hb w Hw) as [Hbm _].
    by apply (proj1 (Forall_forall _ _) Hbm). }
  destruct Hcase as [[? _]|(_ & _ & ws' & Hround & _)]; [done|].
  exists ws'. split; [done|]. split.
  { intros w' Hw'.
    by destruct (proj1 (Forall_forall _ _) (round_bounded n loc_n ws ws' Hwf Hb Hround) w' Hw'). }
  intros r w w' v Hw Hw' Hinf.
  destruct (round_step n loc_n ws ws' Hwf Hround) as (g' & Hg' & _ & _ & Hall).
  assert (g' = g) as -> by congruence.
  pose proof (Forall2_lookup_lr _ _ _ _ _ _ Hall Hw Hw') as Hstep.
  destruct (mark_and_relax_bounded loc_n _ g w w' HD
              (Forall_lookup_1 _ _ _ _ Hb Hw) Hstep) as [_ Hkeep].
  by apply Hkeep.
Qed.

(** ** Predecessor chains *)

Lemma pred_into_mono (W : list Z) (u x : Z) : pred_into W x -> pred_into (u :: W) x.
Proof. intros [?|?]; [by left|right]. by apply list_elem_of_further. Qed.

Lemma mark_and_relax_pred (loc_n loc_u : Z) (g : Z * Z) (w w' : worker) :
  mark_and_relax loc_n loc_u g w = Some w' ->
  (forall (v : nat) x', loc_pred w' !! v = Some x' ->
     loc_pred w !! v = Some x' \/ x' = g.2) /\
  (forall (v : nat) kv', loc_known w' !! v = Some kv' -> kv' <> 0 ->
     loc_pred w' !! v = loc_pred w !! v) /\
  (forall (v : nat) kv, loc_known w !! v = Some kv -> kv <> 0 ->
     exists kv', loc_known w' !! v = Some kv' /\ kv' <> 0).
Proof.
  intros Hstep. pose proof (mark_and_relax_advances _ _ _ _ _ Hstep) as Hadv.
  apply mark_and_relax_Some in Hstep as (_ & _ & _ & _ & _ & _ & Hc).
  split_and!.
  - intros v x' Hx'. destruct (Hc v) as [[_ E]|(_ & m & cur & _ & _ & _ & _ & Hp)].
    + left. congruence.
    + right. congruence.
  - intros v kv' Hkv' Hne. destruct (Hc v) as [[_ E]|(Hz & _)]; [done|].
    congruence.
  - intros v kv Hkv Hne. by destruct (adv_fixed _ _ Hadv v kv Hkv Hne) as [_ ?].
Qed.

Lemma won_step (loc_n : Z) (g : Z * Z) (loc_u : Z) (ws ws' : list worker) (W : list Z) :
  Forall2 (fun w w' => mark_and_relax loc_n loc_u g w = Some w') ws ws' ->
  won loc_n ws W -> won loc_n ws' W.
Proof.
  intros Hall. induction W as [|u W IH]; [done|].
  intros [(r & w & j & Hw & Hj & Hu & (kv & Hkv & Hne) & x & Hx & Hinto) Hrest].
  split; [|by apply IH].
  destruct (Forall2_lookup_l _ _ _ _ _ Hall Hw) as (w' & Hw' & Hstep).
  destruct (mark_and_relax_pred _ _ _ _ _ Hstep) as (_ & Hfix & Hkeep).
  destruct (Hkeep j kv Hkv Hne) as (kv' & Hkv' & Hne').
  exists r, w', j. split_and!; auto; [by exists kv'|].
  exists x. split; [|done]. by rewrite (Hfix j kv' Hkv' Hne').
Qed.

Lemma round_chained (n loc_n : Z) (ws ws' : list worker) (W : list Z) :
  wf_group n loc_n ws -> chained loc_n ws W ->
  round loc_n ws = Some (Next ws') ->
  exists u, chained loc_n ws' (u :: W).
Proof.
  intros Hwf [Hch Hwon] Hround.
  destruct (round_step n loc_n ws ws' Hwf Hround) as (g & Hg & Hg2 & Hwf' & Hall).
  exists g.2. split.
  - intros r w' j x' Hw' Hx'.
    destruct (Forall2_lookup_r _ _ _ _ _ Hall Hw') as (w & Hw & Hstep).
    destruct (mark_and_relax_pred _ _ _ _ _ Hstep) as (Hp & _ & _).
    destruct (Hp j x' Hx') as [Hold| ->].
    + apply pred_into_mono. by eapply Hch.
    + right. apply list_elem_of_here.
  - simpl. split; [|by eapply won_step].
    destruct (owner_of n loc_n ws g.2 Hwf Hg2) as (r & w & j & Hw & Hj & Hu).
    destruct (round_marks_winner n loc_n ws ws' g r j w) as (w' & Hw' & Hk); auto.
    pose proof (Forall2_lookup_lr _ _ _ _ _ _ Hall Hw Hw') as Hstep.
    destruct (mark_and_relax_pred _ _ _ _ _ Hstep) as (_ & Hfix & _).
    pose proof (wf_each _ _ _ Hwf r w Hw) as [_ _ _ Hlp _].
    destruct (lookup_lt_is_Some_2 (loc_pred w) j) as [x Hx]; [lia|].
    exists r, w', j. split_and!; auto; [by exists 1|].
    exists x. split; [by rewrite (Hfix j 1 Hk)|]. by eapply Hch.
Qed.

Lemma Dijkstra_loop_chained (n loc_n : Z) (k : nat) (ws ws' : list worker) (W : list Z) :
  wf_group n loc_n ws -> chained loc_n ws W ->
  Dijkstra_loop loc_n k ws = Some ws' ->
  exists W', chained loc_n ws' W' /\ (length W' <= length W + k)%nat.
Proof.
  revert ws W. induction k as [|k IH]; intros ws W Hwf Hch Hrun; simpl in Hrun.
  - simplify_eq. exists W. split; [done|lia].
  - bind_case Hrun c Hc. destruct c as [|ws1].
    + simplify_eq. exists W. split; [done|lia].
    + destruct (round_chained n loc_n ws ws1 W Hwf Hch Hc) as (u & Hch1).
      destruct (round_step n loc_n ws ws1 Hwf Hc) as (_ & _ & _ & Hwf1 & _).
      destruct (IH ws1 (u :: W) Hwf1 Hch1 Hrun) as (W' & HW' & Hlen).
      exists W'. split; [done|]. simpl in Hlen. lia.
Qed.

Lemma path_loop_0 (fuel : nat) (G path : list Z) (count : Z) :
  path_loop fuel G path count 0 = Some (path, count).
Proof. by destruct fuel. Qed.

Lemma path_loop_S (fuel : nat) (G path : list Z) (count w : Z) :
  w <> 0 ->
  path_loop (Datatypes.S fuel) G path count w =
    path' ← wr path count w; w' ← rd G w;
    path_loop fuel G path' (Int32.add count 1) w'.
Proof. intros H. simpl. by rewrite decide_True. Qed.

Lemma path_loop_won (n loc_n : Z) (ws : list worker) (W : list Z) :
  wf_group n loc_n ws -> won loc_n ws W ->
  forall (x : Z) (fuel : nat) (path : list Z) (count : Z),
    pred_into W x -> (length W <= fuel)%nat ->
    0 <= count -> count + Z.of_nat (length W) <= Z.of_nat (length path) ->
    Z.of_nat (length path) <= Int32.max_signed ->
    is_Some (path_loop fuel (gathered loc_pred ws) path count x).
Proof.
  intros Hwf. destruct (wf_field_lengths n loc_n ws Hwf) as (_ & Hlp & _).
  induction W as [|u W IH]; intros Hwon x fuel path count Hx Hfuel Hc0 Hc Hmax.
  - destruct Hx as [->|Hx]; [|by apply elem_of_nil in Hx].
    rewrite path_loop_0. by eexists.
  - destruct Hwon as [(r & w & j & Hw & Hj & Hu & _ & x' & Hx' & Hinto) Hrest].
    simpl in Hfuel, Hc.
    destruct (decide (x = 0)) as [->|Hx0]; [rewrite path_loop_0; by eexists|].
    destruct Hx as [?|Hx]; [done|].
    apply elem_of_cons in Hx as [->|Hx].
    + destruct fuel as [|fuel]; [lia|]. rewrite path_loop_S by done.
      unfold wr. rewrite decide_True by lia. simpl.
      assert (Hrd : rd (gathered loc_pred ws) u = Some x').
      { apply rd_Some. rewrite Hu.
        rewrite (gathered_lookup loc_pred n loc_n ws r j w) by done.
        split; [|done]. pose proof (wf_pos _ _ _ Hwf). unfold glbl. nia. }
      rewrite Hrd. simpl.
      assert (E : Int32.add count 1 = count + 1).
      { apply wrap_small. unfold Int32.in_range, Int32.min_signed. lia. }
      rewrite E. apply IH; auto; try lia; rewrite length_insert; lia.
    + apply IH; auto; try lia. by right.
Qed.

Lemma MPI_Gather_wf (field : worker -> list Z) (n loc_n junk : Z) (ws : list worker) :
  wf_group n loc_n ws ->
  (forall w, w ∈ ws -> Z.of_nat (length (field w)) = loc_n) ->
  MPI_Gather (field <$> ws) loc_n (malloc n junk) = gathered field ws.
Proof.
  intros Hwf Hlen. unfold MPI_Gather.
  assert (E : ((field <$> ws) ≫= (fun l => take (Z.to_nat loc_n) l))
              = gathered field ws).
  { rewrite list_fmap_bind. unfold gathered. apply Forall_bind_ext, Forall_forall.
    intros w Hw. simpl. apply take_ge. specialize (Hlen w Hw). lia. }
  cbv zeta. rewrite E. pose proof (gathered_length field loc_n ws Hlen) as Hg.
  pose proof (wf_size _ _ _ Hwf) as Hn.
  assert (Hm : length (malloc n junk) = Z.to_nat n)
    by (unfold malloc; apply length_replicate).
  rewrite take_ge, drop_ge by lia. apply app_nil_r.
Qed.

Lemma main_run (p : nat) (n loc_n junk : Z) (mat : list Z) :
  valid_input p n loc_n mat ->
  exists ws0 ws,
    Dijkstra_begin (rank_bufs p n loc_n mat junk) loc_n junk = Some ws0 /\
    Dijkstra_loop loc_n (Z.to_nat (n - 1)) ws0 = Some ws /\
    wf_group n loc_n ws0 /\ wf_group n loc_n ws /\
    main p n mat true junk
      = Some (Results loc_n (gathered loc_dist ws) (gathered loc_pred ws)).
Proof.
  intros Hvi. pose proof Hvi as [Hp Hpos Hn Hfit Hm].
  destruct (run_start p n loc_n junk mat Hvi) as (ws0 & Hbegin & Hwf0 & _ & _).
  destruct (Dijkstra_loop_total n loc_n (Z.to_nat (n - 1)) ws0 Hwf0)
    as (ws & Hrun & Hwf).
  exists ws0, ws. split_and!; auto.
  unfold main, Int32.quot. rewrite decide_False by lia. simpl.
  assert (Eq : Int32.wrap (Z.quot n (Z.of_nat p)) = loc_n).
  { rewrite Hn, Z.mul_comm, Z.quot_mul by lia. apply wrap_small.
    unfold Int32.in_range, Int32.min_signed. nia. }
  rewrite Eq. unfold Dijkstra. rewrite Hbegin. simpl.
  assert (Es : Int32.sub n 1 = n - 1).
  { apply wrap_small. unfold Int32.in_range, Int32.min_signed. nia. }
  rewrite Es, Hrun. simpl.
  destruct (wf_field_lengths n loc_n ws Hwf) as (Hd & Hpr & _).
  by rewrite !(MPI_Gather_wf _ n loc_n junk ws Hwf).
Qed.

Lemma path_loop_length (fuel : nat) (G path : list Z) (count w : Z)
    (path' : list Z) (count' : Z) :
  path_loop fuel G path count w = Some (path', count') ->
  length path' = length path.
Proof.
  revert path count w. induction fuel as [|fuel IH]; intros path count w H.
  - simpl in H. destruct (decide (w <> 0)); [done|]. by simplify_eq.
  - destruct (decide (w = 0)) as [->|Hw].
    + rewrite path_loop_0 in H. by simplify_eq.
    + rewrite path_loop_S in H by done. bind_case H p1 Hp1. bind_case H w1 Hw1.
      apply IH in H. apply wr_Some in Hp1 as [_ ->].
      by rewrite length_insert in H.
Qed.

(** In the state the run ends in, the chain of every vertex is followed to
    the source within [n] iterations, whatever [path] holds. *)
Lemma path_loop_final (n loc_n : Z) (ws : list worker) (W : list Z)
    (v : Z) (path : list Z) :
  wf_group n loc_n ws -> chained loc_n ws W ->
  (length W <= Z.to_nat (n - 1))%nat ->
  0 <= v < n -> Z.of_nat (length path) = n ->
  exists path' count,
    path_loop (Z.to_nat n) (gathered loc_pred ws) path 0 v = Some (path', count) /\
    length path' = length path.
Proof.
  intros Hwf [Hall Hwon] HlenW Hv Hpath.
  assert (Hloop : is_Some (path_loop (Z.to_nat n) (gathered loc_pred ws) path 0 v)).
  { pose proof (wf_size _ _ _ Hwf) as Hn. pose proof (wf_fits _ _ _ Hwf) as Hfit.
    pose proof (wf_pos _ _ _ Hwf) as Hpos.
    destruct (decide (v = 0)) as [->|Hv0]; [rewrite path_loop_0; by eexists|].
    destruct (Z.to_nat n) as [|fuel] eqn:Hfuel; [lia|].
    rewrite path_loop_S by done.
    unfold wr. rewrite decide_True by lia. simpl.
    destruct (owner_of n loc_n ws v Hwf Hv) as (r & w & j & Hw & Hj & ->).
    pose proof (wf_each _ _ _ Hwf r w Hw) as [_ _ _ Hlpw _].
    destruct (lookup_lt_is_Some_2 (loc_pred w) j) as [x Hx]; [lia|].
    destruct (wf_field_lengths n loc_n ws Hwf) as (_ & Hlp & _).
    assert (Hrd : rd (gathered loc_pred ws) (glbl loc_n r j) = Some x).
    { apply rd_Some. split; [lia|].
      by rewrite (gathered_lookup loc_pred n loc_n ws r j w). }
    rewrite Hrd. simpl.
    replace (Int32.add 0 1) with 1 by done.
    apply (path_loop_won n loc_n ws W Hwf Hwon); try lia.
    - by eapply Hall.
    - rewrite length_insert. lia.
    - rewrite length_insert. nia. }
  destruct Hloop as [[path' count] Hrun]. exists path', count.
  split; [done|]. by eapply path_loop_length.
Qed.

(** C10. For every admissible input, the predecessor array the run
    delivers sends every vertex to the source in at most [n] steps: the
    [while] loop of [Print_paths] started at any vertex ends within [n]
    iterations without leaving [path] or the predecessor array, and so
    [Print_paths] prints a path for every vertex. *)
Theorem pred_chains_reach_source (p : nat) (n loc_n junk : Z) (mat : list Z) :
  valid_input p n loc_n mat ->
  exists global_dist global_pred,
    main p n mat true junk = Some (Results loc_n global_dist global_pred) /\
    Z.of_nat (length global_pred) = n /\
    (forall v, 0 <= v < n ->
       is_Some (path_loop (Z.to_nat n) global_pred (malloc n junk) 0 v)) /\
    is_Some (Print_paths (Z.to_nat n) global_pred n junk).
Proof.
  intros Hvi.
  destruct (main_run p n loc_n junk mat Hvi)
    as (ws0 & ws & Hbegin & Hrun & Hwf0 & Hwf & Hmain).
  destruct (run_start p n loc_n junk mat Hvi) as (ws0' & Hbegin' & _ & _ & Hinit).
  assert (ws0' = ws0) as -> by congruence.
  assert (Hch0 : chained loc_n ws0 []).
  { split; [|done]. intros r w j x Hw Hx. left.
    destruct (Hinit r w Hw) as [[_ _ _ Hp0] _].
    pose proof (wf_each _ _ _ Hwf0 r w Hw) as [_ _ _ Hlp _].
    apply lookup_lt_Some in Hx as Hj. rewrite Hp0 in Hx by lia. congruence. }
  destruct (Dijkstra_loop_chained n loc_n _ ws0 ws [] Hwf0 Hch0 Hrun)
    as (W & Hch & HlenW).
  simpl in HlenW.
  destruct (wf_field_lengths n loc_n ws Hwf) as (_ & Hlp & _).
  pose proof (gathered_length loc_pred loc_n ws Hlp) as Hlen.
  pose proof (wf_size _ _ _ Hwf) as Hn. pose proof (wf_pos _ _ _ Hwf) as Hpos.
  pose proof (wf_ranks _ _ _ Hwf) as Hne.
  assert (Hmal : Z.of_nat (length (malloc n junk)) = n).
  { unfold malloc. rewrite length_replicate. nia. }
  exists (gathered loc_dist ws), (gathered loc_pred ws).
  split; [done|]. split; [lia|]. split.
  - intros v Hv.
    destruct (path_loop_final n loc_n ws W v (malloc n junk) Hwf Hch HlenW Hv Hmal)
      as (path' & count & -> & _). by eexists.
  - unfold Print_paths, for_loop.
    destruct (for_range_total
      (fun (_ : nat) (st : list Z * list (list Z)) => Z.of_nat (length st.1) = n)
      (Print_paths_body (Z.to_nat n) (gathered loc_pred ws))
      (Z.to_nat (n - 1)) 1 (malloc n junk, [])) as (st & -> & _); [done| |by eexists].
    intros j [path out] Hj Hpath. simpl in Hpath. unfold Print_paths_body. simpl.
    destruct (path_loop_final n loc_n ws W (1 + Z.of_nat j) path Hwf Hch HlenW)
      as (path' & count & -> & Hlen'); [lia|done|].
    simpl. eexists. split; [done|]. simpl. lia.
Qed.

(** ** Claims settled on the scenario *)

(** A concrete group is well formed by inspection. *)
Ltac wf_concrete :=
  split;
  [ lia | simpl; lia | simpl; lia | unfold Int32.max_signed; lia
  | let r := fresh "r" in let w := fresh "w" in let Hr := fresh "Hr" in
    intros r w Hr;
    repeat (destruct r as [|r];
            [ simpl in Hr; injection Hr as <-; split; reflexivity | ]);
    simpl in Hr; discriminate Hr ].

(** C1. On the scenario matrix the sequential algorithm gives distances
    [0; 1; 3; 4].  The run with one rank gives these and the predecessors
    [0; 0; 1; 2]; the run with two ranks leaves vertex 3 at [INFINITY], the
    run with four ranks leaves vertex 2 at 4 and vertex 3 at [INFINITY]. *)
Theorem scenario4_result_by_rank_count (junk : Z) :
  Reference.sequential_Dijkstra 4 scenario4 = [0; 1; 3; 4] /\
  main 1 4 scenario4 true junk = Some (Results 4 [0; 1; 3; 4] [0; 0; 1; 2]) /\
  main 2 4 scenario4 true junk
    = Some (Results 2 [0; 1; 3; INFINITY] [0; 0; 1; 0]) /\
  main 4 4 scenario4 true junk
    = Some (Results 1 [0; 1; 4; INFINITY] [0; 0; 0; 0]).
Proof. split_and!; vm_compute; reflexivity. Qed.

(** C2. First round of the scenario on two ranks: the winner is vertex 1,
    owned by rank 0, and rank 1, which does not own it, changes its
    [loc_known] from [0; 0] to [0; 1] (line 300 runs on every rank). *)
Theorem non_owner_marks_known (junk : Z) :
  Dijkstra_begin (rank_bufs 2 4 2 scenario4 junk) 2 junk = Some scenario4_start2 /\
  winner 2 scenario4_start2 = Some (1, 1) /\ owner 2 1 = 0 /\
  round 2 scenario4_start2 = Some (Next scenario4_round1) /\
  loc_known <$> scenario4_start2 !! 1%nat = Some [0; 0] /\
  loc_known <$> scenario4_round1 !! 1%nat = Some [0; 1].
Proof. split_and!; vm_compute; reflexivity. Qed.

(** C3. The same round takes the number of known vertices from 1 to 3:
    vertex 1 at its owner, and vertex 3 at rank 1. *)
Theorem round_marks_two_vertices :
  round 2 scenario4_start2 = Some (Next scenario4_round1) /\
  known_total scenario4_start2 = 1%nat /\
  known_total scenario4_round1 = 3%nat.
Proof. split_and!; vm_compute; reflexivity. Qed.

(** C6. On [tie4] vertices 1, 2 and 3 are unvisited at the same, least,
    distance 1 when the loop starts, whether the graph is held by two ranks
    or by one, and the reduction returns [(1, 1)] in both runs.  With two
    ranks the first round marks vertex 1 and vertex 3 known and leaves
    vertex 2 unvisited: of the tied vertices 2 and 3 the larger one is
    finalized first.  With one rank the first round marks vertex 1 only and
    the second round vertex 2, before vertex 3.  (Line 300 runs on every
    rank.) *)
Theorem tied_vertices_finalized_by_rank_count (junk : Z) :
  Dijkstra_begin (rank_bufs 2 4 2 tie4 junk) 2 junk = Some tie4_start2 /\
  Dijkstra_begin (rank_bufs 1 4 4 tie4 junk) 4 junk = Some tie4_start1 /\
  gathered loc_dist tie4_start2 = [0; 1; 1; 1] /\
  gathered loc_known tie4_start2 = [1; 0; 0; 0] /\
  gathered loc_dist tie4_start1 = [0; 1; 1; 1] /\
  gathered loc_known tie4_start1 = [1; 0; 0; 0] /\
  winner 2 tie4_start2 = Some (1, 1) /\
  winner 4 tie4_start1 = Some (1, 1) /\
  round 2 tie4_start2 = Some (Next tie4_round1_of2) /\
  gathered loc_known tie4_round1_of2 = [1; 1; 0; 1] /\
  round 4 tie4_start1 = Some (Next tie4_round1_of1) /\
  gathered loc_known tie4_round1_of1 = [1; 1; 0; 0] /\
  round 4 tie4_round1_of1 = Some (Next tie4_round2_of1) /\
  gathered loc_known tie4_round2_of1 = [1; 1; 1; 0].
Proof. split_and!; vm_compute; reflexivity. Qed.

(** C4, as stated, fails: with [n = 5] and two ranks the program does not
    stop; it distributes blocks of [loc_n = 2] columns, runs, and gathers
    (the fifth cell of each result array is never written). *)
Lemma indivisible_n_runs :
  5 mod 2 <> 0 /\
  main 2 5 path5 true 77
    = Some (Results 2 [0; 1; 2; INFINITY; 77] [0; 0; 1; 0; 77]).
Proof. split; [done|]. vm_compute. reflexivity. Qed.

(** C4, amended. [main] has no test of divisibility: [loc_n] is the
    truncated quotient [n / p]; a failed allocation is the one fatal exit
    before the distribution, and when the allocations succeed the [p] blocks
    of [loc_n] columns are scattered and [Dijkstra] is run on them. *)
Theorem main_takes_truncated_quotient (p : nat) (n junk : Z) (mat : list Z) :
  (0 < p)%nat -> 0 <= n <= Int32.max_signed ->
  let loc_n := Z.quot n (Z.of_nat p) in
  main p n mat false junk = Some (Exit_failure "Memory allocation failed") /\
  main p n mat true junk =
    (ws ← Dijkstra (rank_bufs p n loc_n mat junk) loc_n n junk;
     Some (Results loc_n
             (MPI_Gather (loc_dist <$> ws) loc_n (malloc n junk))
             (MPI_Gather (loc_pred <$> ws) loc_n (malloc n junk)))) /\
  (forall msg, main p n mat true junk <> Some (Exit_failure msg)) /\
  length (rank_bufs p n loc_n mat junk) = p /\
  forall r : nat, (r < p)%nat ->
    rank_bufs p n loc_n mat junk !! r
      = Some (blk_col mat n loc_n r, malloc loc_n junk, malloc loc_n junk).
Proof.
  intros Hp Hn loc_n.
  assert (Eq : Int32.quot n (Z.of_nat p) = Some loc_n).
  { unfold Int32.quot. rewrite decide_False by lia. f_equal.
    apply wrap_small. unfold Int32.in_range, Int32.min_signed.
    pose proof (Z.quot_pos n (Z.of_nat p)).
    pose proof (Z.quot_le_upper_bound n (Z.of_nat p) n). nia. }
  assert (Emain : main p n mat true junk =
    (ws ← Dijkstra (rank_bufs p n loc_n mat junk) loc_n n junk;
     Some (Results loc_n
             (MPI_Gather (loc_dist <$> ws) loc_n (malloc n junk))
             (MPI_Gather (loc_pred <$> ws) loc_n (malloc n junk))))).
  { unfold main. by rewrite Eq. }
  split_and!.
  - unfold main. by rewrite Eq.
  - done.
  - intros msg. rewrite Emain.
    by destruct (Dijkstra (rank_bufs p n loc_n mat junk) loc_n n junk).
  - unfold rank_bufs, Read_matrix. by rewrite !length_fmap, length_seq.
  - intros r Hr. unfold rank_bufs, Read_matrix.
    rewrite !list_lookup_fmap, lookup_seq_lt by done. done.
Qed.

(** ** The theorems at the scenario *)

Lemma main_takes_truncated_quotient_at_path5 :
  (0 < 2)%nat /\ 0 <= 5 <= Int32.max_signed /\
  main 2 5 path5 false 77 = Some (Exit_failure "Memory allocation failed") /\
  (forall msg, main 2 5 path5 true 77 <> Some (Exit_failure msg)) /\
  length (rank_bufs 2 5 (Z.quot 5 (Z.of_nat 2)) path5 77) = 2%nat.
Proof.
  assert (H1 : (0 < 2)%nat) by lia.
  assert (H2 : 0 <= 5 <= Int32.max_signed) by (unfold Int32.max_signed; lia).
  split; [exact H1|]. split; [exact H2|].
  destruct (main_takes_truncated_quotient 2 5 77 path5 H1 H2)
    as (Hfail & _ & Hno & Hlen & _).
  split; [exact Hfail|]. split; [exact Hno|exact Hlen].
Defined.

Lemma sentinel_wins_only_at_exhaustion_at_scenario4 :
  wf_group 4 2 scenario4_round1 /\
  (scenario4_round1 !! 0%nat) ≫= (fun w => my_min w 2) = Some (INFINITY, -1) /\
  winner 2 scenario4_round1 = Some (3, 2) /\
  (forall w, w ∈ scenario4_round1 ->
     (forall v : nat, (v < Z.to_nat 2)%nat -> loc_known w !! v <> Some 0) ->
     my_min w 2 = Some (INFINITY, -1)) /\
  (forall w, w ∈ scenario4_round1 ->
     (my_min w 2 = Some (INFINITY, -1) <->
      forall (v : nat) d, (v < Z.to_nat 2)%nat ->
        unvisited (loc_dist w) (loc_known w) v d -> INFINITY <= d)) /\
  exists g,
    winner 2 scenario4_round1 = Some g /\
    (g.2 = -1 <->
     forall w, w ∈ scenario4_round1 -> my_min w 2 = Some (INFINITY, -1)) /\
    (g.2 = -1 <-> forall x d, gunvisited scenario4_round1 x d -> INFINITY <= d) /\
    (g.2 = -1 -> round 2 scenario4_round1 = Some Break) /\
    (g.2 <> -1 ->
     gunvisited scenario4_round1 g.2 g.1 /\ g.1 < INFINITY /\
     exists ws', round 2 scenario4_round1 = Some (Next ws')).
Proof.
  assert (H : wf_group 4 2 scenario4_round1) by wf_concrete.
  split; [exact H|]. split; [reflexivity|]. split; [reflexivity|].
  exact (sentinel_wins_only_at_exhaustion 4 2 scenario4_round1 H).
Defined.

Lemma winner_least_distance_then_index_at_scenario4 :
  wf_group 4 2 scenario4_start2 /\ wf_group 4 4 scenario4_start1 /\
  gathered loc_dist scenario4_start2 = gathered loc_dist scenario4_start1 /\
  gathered loc_known scenario4_start2 = gathered loc_known scenario4_start1 /\
  exists g,
    winner 2 scenario4_start2 = Some g /\ winner 4 scenario4_start1 = Some g /\
    (forall w c, w ∈ scenario4_start2 -> my_min w 2 = Some c -> lex_le g c).
Proof.
  assert (H1 : wf_group 4 2 scenario4_start2) by wf_concrete.
  assert (H2 : wf_group 4 4 scenario4_start1) by wf_concrete.
  assert (Hd : gathered loc_dist scenario4_start2 = gathered loc_dist scenario4_start1)
    by reflexivity.
  assert (Hk : gathered loc_known scenario4_start2 = gathered loc_known scenario4_start1)
    by reflexivity.
  split; [exact H1|]. split; [exact H2|]. split; [exact Hd|]. split; [exact Hk|].
  destruct (winner_least_distance_then_index 4 2 4
              scenario4_start2 scenario4_start1 H1 H2 Hd Hk)
    as (g & Hg1 & Hg2 & _ & Hle & _).
  exists g. split; [exact Hg1|]. split; [exact Hg2|exact Hle].
Defined.

Lemma dist_never_increases_and_settles_at_scenario4 :
  wf_group 4 2 scenario4_start2 /\
  exists ws',
    Dijkstra_loop 2 3 scenario4_start2 = Some ws' /\
    forall (r : nat) w w', scenario4_start2 !! r = Some w -> ws' !! r = Some w' ->
      forall (v : nat) (d : Z), loc_dist w !! v = Some d ->
        exists d',
          loc_dist w' !! v = Some d' /\ d' <= d /\
          forall kv, loc_known w !! v = Some kv -> kv <> 0 ->
            d' = d /\ exists kv', loc_known w' !! v = Some kv' /\ kv' <> 0.
Proof.
  assert (H : wf_group 4 2 scenario4_start2) by wf_concrete.
  split; [exact H|].
  exact (dist_never_increases_and_settles 4 2 3 scenario4_start2 H).
Defined.

Lemma distances_bounded_no_overflow_at_scenario4 :
  valid_input 2 4 2 scenario4 /\ Forall weight_ok scenario4 /\
  exists ws0 ws,
    Dijkstra_begin (rank_bufs 2 4 2 scenario4 0) 2 0 = Some ws0 /\
    Dijkstra_loop 2 1 ws0 = Some ws /\
    (forall w, w ∈ ws -> Forall weight_ok (loc_dist w)).
Proof.
  assert (H1 : valid_input 2 4 2 scenario4).
  { split; [lia|lia|lia|unfold Int32.max_signed; lia|reflexivity]. }
  assert (H2 : Forall weight_ok scenario4).
  { unfold scenario4. repeat constructor; unfold weight_ok, INFINITY; lia. }
  split; [exact H1|]. split; [exact H2|].
  destruct (distances_bounded_no_overflow 2 4 2 0 scenario4 1 H1 H2)
    as (ws0 & ws & Hb & Hl & Hd & _).
  exists ws0, ws. split; [exact Hb|]. split; [exact Hl|exact Hd].
Defined.

Lemma driver_accesses_in_bounds_at_scenario4 :
  wf_group 4 2 scenario4_start2 /\
  exists ws', Dijkstra_loop 2 3 scenario4_start2 = Some ws' /\ wf_group 4 2 ws'.
Proof.
  assert (H : wf_group 4 2 scenario4_start2) by wf_concrete.
  split; [exact H|].
  exact (proj2 (driver_accesses_in_bounds 4 2 3 scenario4_start2 H)).
Defined.

Lemma pred_chains_reach_source_at_scenario4 :
  valid_input 2 4 2 scenario4 /\
  exists global_dist global_pred,
    main 2 4 scenario4 true 0 = Some (Results 2 global_dist global_pred) /\
    Z.of_nat (length global_pred) = 4 /\
    (forall v, 0 <= v < 4 ->
       is_Some (path_loop (Z.to_nat 4) global_pred (malloc 4 0) 0 v)) /\
    is_Some (Print_paths (Z.to_nat 4) global_pred 4 0).
Proof.
  assert (H1 : valid_input 2 4 2 scenario4).
  { split; [lia|lia|lia|unfold Int32.max_signed; lia|reflexivity]. }
  split; [exact H1|].
  exact (pred_chains_reach_source 2 4 2 0 scenario4 H1).
Defined.

(** * Further properties of the program *)

(** ** [Find_min_dist] *)

(** X1. On arrays that cover the [loc_n] cells, [Find_min_dist] returns
    [-1] exactly when no unvisited cell has a distance below [INFINITY] (so an
    unvisited cell at [INFINITY] or above is never chosen), and otherwise the
    first index among the unvisited cells of least distance. *)
Theorem Find_min_dist_first_least (loc_dist loc_known : list Z) (loc_n : Z) :
  loc_n <= Z.of_nat (length loc_dist) ->
  loc_n <= Z.of_nat (length loc_known) ->
  exists u,
    Find_min_dist loc_dist loc_known loc_n = Some u /\
    ((u = -1 /\
      forall (v : nat) d, (v < Z.to_nat loc_n)%nat ->
        unvisited loc_dist loc_known v d -> INFINITY <= d) \/
     (exists (i : nat) d,
        u = Z.of_nat i /\ (i < Z.to_nat loc_n)%nat /\
        unvisited loc_dist loc_known i d /\ d < INFINITY /\
        forall (v : nat) d', (v < Z.to_nat loc_n)%nat ->
          unvisited loc_dist loc_known v d' ->
          d < d' \/ (d = d' /\ (i <= v)%nat))).
Proof.
  intros Hd Hk.
  destruct (Find_min_loop_spec loc_dist loc_known loc_n Hd Hk) as ([sd u] & Hrun & Hinv).
  exists u. unfold Find_min_dist. rewrite Hrun. split; [done|].
  destruct Hinv as [[E Hall]|(i & Hu & Hi & Hun & Hlt & Hall)]; simpl in *.
  - left. by simplify_eq.
  - right. exists i, sd. by split_and!.
Qed.

Lemma Find_min_dist_first_least_at_example :
  3 <= Z.of_nat (length [7; 5; 5]) /\ 3 <= Z.of_nat (length [0; 0; 0]) /\
  exists u, Find_min_dist [7; 5; 5] [0; 0; 0] 3 = Some u.
Proof.
  assert (H1 : 3 <= Z.of_nat (length [7; 5; 5])) by (simpl; lia).
  assert (H2 : 3 <= Z.of_nat (length [0; 0; 0])) by (simpl; lia).
  split; [exact H1|]. split; [exact H2|].
  destruct (Find_min_dist_first_least [7; 5; 5] [0; 0; 0] 3 H1 H2) as (u & Hu & _).
  exists u. exact Hu.
Defined.

(** ** [Dijkstra_Init] *)

(** X2. With [loc_n >= 1] cells per rank, [Dijkstra_Init] leaves every
    predecessor at 0 and every distance at the weight of the edge from the
    source (row 0 of the block), whatever the arrays held before; only local
    vertex 0 of rank 0 is known. *)
Theorem Dijkstra_Init_post (loc_mat loc_pred loc_dist loc_known : list Z)
    (my_rank loc_n : Z) :
  0 < loc_n <= Int32.max_signed ->
  loc_n <= Z.of_nat (length loc_mat) ->
  Z.of_nat (length loc_pred) = loc_n ->
  Z.of_nat (length loc_dist) = loc_n ->
  Z.of_nat (length loc_known) = loc_n ->
  exists pr d kn,
    Dijkstra_Init loc_mat loc_pred loc_dist loc_known my_rank loc_n
      = Some (pr, d, kn) /\
    length pr = length loc_pred /\ length d = length loc_dist /\
    length kn = length loc_known /\
    forall v : nat, (v < Z.to_nat loc_n)%nat ->
      pr !! v = Some 0 /\ d !! v = loc_mat !! v /\
      kn !! v = Some (if decide (v = 0%nat /\ my_rank = 0) then 1 else 0).
Proof.
  intros Hn Hm Hp Hd Hk. unfold Dijkstra_Init.
  set (b := if decide (my_rank = 0) then 1 else 0).
  assert (Hw0 : wr loc_known 0 b = Some (<[0%nat := b]> loc_known))
    by (apply (wr_nat _ 0%nat); lia).
  rewrite Hw0. simpl.
  destruct (known_loop_spec loc_n (<[0%nat := b]> loc_known))
    as (kn & -> & Hlk & Hk0 & Hkall); [by rewrite length_insert|]. simpl.
  destruct (Init_loop_spec loc_n loc_mat loc_dist loc_pred)
    as (d & pr & -> & Hld & Hlp & Hall); [lia|lia|done|done|]. simpl.
  exists pr, d, kn. rewrite length_insert in Hlk. split_and!; auto.
  intros v Hv. destruct (Hall v Hv) as [Hdv Hpv]. split_and!; auto.
  destruct v as [|v].
  - rewrite Hk0, list_lookup_insert_eq by lia. subst b.
    destruct (decide (my_rank = 0)).
    + by rewrite decide_True.
    + rewrite decide_False; [done|]. by intros [_ ?].
  - rewrite Hkall by lia. rewrite decide_False; [done|]. by intros [? _].
Qed.

Lemma Dijkstra_Init_post_at_example :
  0 < 2 <= Int32.max_signed /\
  exists pr d kn,
    Dijkstra_Init [4; 9; 2; 5] [8; 8] [8; 8] [8; 8] 1 2 = Some (pr, d, kn) /\
    length pr = length [8; 8] /\ length d = length [8; 8] /\
    length kn = length [8; 8] /\
    forall v : nat, (v < Z.to_nat 2)%nat ->
      pr !! v = Some 0 /\ d !! v = [4; 9; 2; 5] !! v /\
      kn !! v = Some (if decide (v = 0%nat /\ 1 = 0) then 1 else 0).
Proof.
  assert (H1 : 0 < 2 <= Int32.max_signed) by (unfold Int32.max_signed; lia).
  split; [exact H1|].
  apply (Dijkstra_Init_post [4; 9; 2; 5] [8; 8] [8; 8] [8; 8] 1 2 H1);
    simpl; lia.
Defined.

(** X3. With fewer vertices than ranks the truncated quotient [loc_n] is
    0, and when the allocations succeed the run is undefined: line 245/247 of
    [Dijkstra_Init] writes [loc_known[0]] into an array of no cells. *)
Theorem fewer_vertices_than_ranks_undefined (p : nat) (n junk : Z) (mat : list Z) :
  0 <= n < Z.of_nat p ->
  (forall rank m d pr, Dijkstra_start 0 junk rank m d pr = None) /\
  main p n mat true junk = None.
Proof.
  intros Hn.
  assert (Hstart : forall rank m d pr, Dijkstra_start 0 junk rank m d pr = None).
  { intros rank m d pr. reflexivity. }
  split; [done|].
  unfold main, Int32.quot. rewrite decide_False by lia. simpl.
  rewrite Z.quot_small by lia.
  replace (Int32.wrap 0) with 0 by reflexivity.
  unfold Dijkstra.
  destruct (Dijkstra_begin (rank_bufs p n 0 mat junk) 0 junk) as [ws|] eqn:Hb;
    [|done].
  exfalso. unfold Dijkstra_begin in Hb.
  assert (Hsome : is_Some (mapM (fun rb : nat * (list Z * list Z * list Z) =>
            Dijkstra_start 0 junk (Z.of_nat rb.1) rb.2.1.1 rb.2.1.2 rb.2.2)
            (imap pair (rank_bufs p n 0 mat junk)))) by (by eexists).
  apply mapM_is_Some_1 in Hsome.
  assert (Hlen : (0 < length (imap pair (rank_bufs p n 0 mat junk)))%nat).
  { rewrite length_imap. unfold rank_bufs, Read_matrix.
    rewrite !length_fmap, length_seq. lia. }
  destruct (lookup_lt_is_Some_2 _ 0%nat Hlen) as [x Hx].
  pose proof (Forall_lookup_1 _ _ _ _ Hsome Hx) as [w Hw].
  simpl in Hw. by rewrite Hstart in Hw.
Qed.

Lemma fewer_vertices_than_ranks_undefined_at_example :
  0 <= 2 < Z.of_nat 3 /\ main 3 2 [0; 1; 1; 0] true 0 = None.
Proof.
  assert (H : 0 <= 2 < Z.of_nat 3) by (simpl; lia).
  split; [exact H|].
  exact (proj2 (fewer_vertices_than_ranks_undefined 3 2 0 [0; 1; 1; 0] H)).
Defined.

(** ** The scattered blocks *)

Lemma blk_col_lookup (mat : list Z) (n loc_n : Z) (r : nat) (i j : Z) :
  Z.of_nat (length mat) = n * n ->
  (Z.of_nat r + 1) * loc_n <= n ->
  0 <= i < n -> 0 <= j < loc_n ->
  rd (blk_col mat n loc_n r) (i * loc_n + j)
    = edge mat n i (Z.of_nat r * loc_n + j).
Proof.
  intros Hm Hr Hi Hj. unfold blk_col.
  set (N := Z.to_nat n). set (L := Z.to_nat loc_n).
  set (f := fun a : nat => take L (drop (a * N + r * L)%nat mat)).
  assert (Hf : forall a, a ∈ seq 0 N -> length (f a) = L).
  { intros a Ha. apply elem_of_seq in Ha. unfold f.
    rewrite length_take, length_drop. subst N L. nia. }
  change (rd (seq 0 N ≫= f) (i * loc_n + j) = edge mat n i (Z.of_nat r * loc_n + j)).
  unfold rd, edge, rd. rewrite !decide_True by nia.
  replace (Z.to_nat (i * loc_n + j)) with (Z.to_nat i * L + Z.to_nat j)%nat
    by (subst L; nia).
  rewrite (lookup_bind_uniform f L (seq 0 N) (Z.to_nat i) (Z.to_nat j) (Z.to_nat i));
    [|done|apply lookup_seq; subst N; lia|subst L; lia].
  unfold f. rewrite lookup_take_lt by (subst L; lia). rewrite lookup_drop.
  f_equal. subst N L. nia.
Qed.

(** X4. Whenever the columns of rank [r] lie inside the matrix, its block
    holds all [n] rows of its [loc_n] columns: local cell [(i, j)], stored at
    [i * loc_n + j], is the weight of the edge from [i] to global vertex
    [r * loc_n + j].  This does not need [n] to be divisible by [p]. *)
Theorem blk_col_cell (mat : list Z) (n loc_n : Z) (r : nat) (i j : Z) :
  Z.of_nat (length mat) = n * n ->
  (Z.of_nat r + 1) * loc_n <= n ->
  0 <= i < n -> 0 <= j < loc_n ->
  Z.of_nat (length (blk_col mat n loc_n r)) = n * loc_n /\
  rd (blk_col mat n loc_n r) (i * loc_n + j)
    = edge mat n i (Z.of_nat r * loc_n + j) /\
  is_Some (edge mat n i (Z.of_nat r * loc_n + j)).
Proof.
  intros Hm Hr Hi Hj. split; [|split].
  - unfold blk_col. rewrite (length_bind_const _ (Z.to_nat loc_n)).
    + rewrite length_seq. nia.
    + intros a Ha. apply elem_of_seq in Ha. rewrite length_take, length_drop. nia.
  - by apply blk_col_lookup.
  - unfold edge, rd. rewrite decide_True by nia.
    apply lookup_lt_is_Some_2. nia.
Qed.

Lemma blk_col_cell_at_scenario4 :
  Z.of_nat (length scenario4) = 4 * 4 /\ (Z.of_nat 1 + 1) * 2 <= 4 /\
  rd (blk_col scenario4 4 2 1) (1 * 2 + 1) = edge scenario4 4 1 (Z.of_nat 1 * 2 + 1).
Proof.
  assert (H1 : Z.of_nat (length scenario4) = 4 * 4) by reflexivity.
  assert (H2 : (Z.of_nat 1 + 1) * 2 <= 4) by (simpl; lia).
  split; [exact H1|]. split; [exact H2|].
  assert (H3 : 0 <= 1 < 4) by lia. assert (H4 : 0 <= 1 < 2) by lia.
  exact (proj1 (proj2 (blk_col_cell scenario4 4 2 1 1 1 H1 H2 H3 H4))).
Defined.

(** ** Distances and predecessors fit together *)

Lemma mark_and_relax_known_kept (loc_n loc_u : Z) (g : Z * Z) (w w' : worker) :
  mark_and_relax loc_n loc_u g w = Some w' ->
  forall (v : nat) kv', loc_known w' !! v = Some kv' -> kv' <> 0 ->
    loc_dist w' !! v = loc_dist w !! v /\ loc_pred w' !! v = loc_pred w !! v.
Proof.
  intros Hstep v kv' Hkv' Hne.
  apply mark_and_relax_Some in Hstep as (_ & _ & _ & _ & _ & _ & Hc).
  destruct (Hc v) as [?|(Hz & _)]; [done|]. congruence.
Qed.

Lemma settled_step (loc_n loc_u : Z) (g : Z * Z) (ws ws' : list worker) (x dx : Z) :
  Forall2 (fun w w' => mark_and_relax loc_n loc_u g w = Some w') ws ws' ->
  settled loc_n ws x dx -> settled loc_n ws' x dx.
Proof.
  intros Hall (r & w & j & Hw & Hj & Hx & Hd & kv & Hkv & Hne).
  destruct (Forall2_lookup_l _ _ _ _ _ Hall Hw) as (w' & Hw' & Hstep).
  pose proof (mark_and_relax_advances _ _ _ _ _ Hstep) as Hadv.
  destruct (adv_fixed _ _ Hadv j kv Hkv Hne) as [E Hk'].
  exists r, w', j. split_and!; auto. congruence.
Qed.

(** The winner of a completed round is settled at its winning distance. *)
Lemma winner_settled (n loc_n : Z) (ws ws' : list worker) (g : Z * Z) :
  wf_group n loc_n ws -> round loc_n ws = Some (Next ws') ->
  winner loc_n ws = Some g ->
  settled loc_n ws' g.2 g.1 /\ g.1 < INFINITY /\
  exists (r : nat) w (j : nat),
    ws !! r = Some w /\ (j < Z.to_nat loc_n)%nat /\ g.2 = glbl loc_n r j /\
    unvisited (loc_dist w) (loc_known w) j g.1.
Proof.
  intros Hwf Hround Hg.
  destruct (round_step n loc_n ws ws' Hwf Hround) as (g' & Hg' & Hg2 & _ & Hall).
  assert (g' = g) as -> by congruence.
  destruct (winner_spec n loc_n ws Hwf) as (g' & Hg'' & Hcase).
  assert (g' = g) as -> by congruence.
  destruct Hcase as [[-> _]|(_ & (r & w & j & Hw & Hj & Hgj & Hun & Hlt & _) & _)];
    [simpl in Hg2; lia|].
  split; [|split; [done|by exists r, w, j]].
  destruct (round_marks_winner n loc_n ws ws' g r j w) as (w' & Hw' & Hk); auto.
  pose proof (Forall2_lookup_lr _ _ _ _ _ _ Hall Hw Hw') as Hstep.
  destruct (mark_and_relax_known_kept _ _ _ _ _ Hstep j 1 Hk) as [Ed _]; [done|].
  exists r, w', j. split_and!; auto.
  - rewrite Ed. by destruct Hun.
  - by exists 1.
Qed.

Lemma round_explained (n loc_n : Z) (ws ws' : list worker) (W : list Z) (g : Z * Z) :
  wf_group n loc_n ws -> Forall bounded ws -> explained loc_n ws W ->
  round loc_n ws = Some (Next ws') -> winner loc_n ws = Some g ->
  explained loc_n ws' (g.2 :: W).
Proof.
  intros Hwf Hb [Hcells Hsrc Hnz] Hround Hg.
  destruct (round_step n loc_n ws ws' Hwf Hround) as (g' & Hg' & Hg2 & Hwf' & Hall).
  assert (g' = g) as -> by congruence.
  destruct (winner_settled n loc_n ws ws' g Hwf Hround Hg)
    as (Hset & Hlt & r0 & w0 & j0 & Hw0 & Hj0 & Hgj & Hun0).
  assert (Hne1 : g.2 <> -1) by lia.
  pose proof (winner_bounded n loc_n ws g Hwf Hb Hg Hne1) as HD.
  pose proof Hwf as [Hpos _ _ Hfit _].
  split.
  - intros r w' j Hw' Hj.
    destruct (Forall2_lookup_r _ _ _ _ _ Hall Hw') as (w & Hw & Hstep).
    destruct (Hcells r w j Hw Hj) as (x & d & m & Hx & Hd & Hm & Hcase).
    pose proof (Forall_lookup_1 _ _ _ _ Hb Hw) as [Hbm Hbd].
    apply mark_and_relax_Some in Hstep as (_ & Emat & _ & _ & _ & _ & Hc).
    destruct (Hc j) as [[Ed Ep]|(_ & m' & cur & Hm' & Hcur & Hlt' & Hd' & Hp')].
    + exists x, d, m. rewrite Emat. split_and!; [congruence|congruence|done|].
      destruct Hcase as [?|(Hin & Hdlt & dx & Hsx & Hdx)]; [by left|right].
      split; [by apply list_elem_of_further|]. split; [done|].
      exists dx. split; [|done]. by eapply settled_step.
    + destruct (row_index n loc_n g.2 j Hpos Hfit Hg2 Hj) as [Eidx _].
      rewrite Eidx in Hm'.
      assert (Hwm : weight_ok m').
      { apply rd_Some in Hm' as [_ Hm']. exact (Forall_lookup_1 _ _ _ _ Hbm Hm'). }
      destruct (relaxation_sum g.1 m' HD Hwm) as [_ Esum].
      pose proof (Forall_lookup_1 _ _ _ _ Hbd Hcur) as Hcb. unfold weight_ok in Hcb.
      exists g.2, (g.1 + m'), m'. rewrite Emat, <- Esum.
      split_and!; auto. right. split; [apply list_elem_of_here|].
      split; [lia|]. exists g.1. split; [done|]. by rewrite Esum.
  - destruct Hsrc as (w & kv & Hw & Hkv & Hne & Hp & Hd).
    destruct (Forall2_lookup_l _ _ _ _ _ Hall Hw) as (w' & Hw' & Hstep).
    destruct (mark_and_relax_pred _ _ _ _ _ Hstep) as (_ & _ & Hkeep).
    destruct (Hkeep 0%nat kv Hkv Hne) as (kv' & Hkv' & Hne').
    destruct (mark_and_relax_known_kept _ _ _ _ _ Hstep 0%nat kv' Hkv' Hne')
      as [Ed Ep].
    apply mark_and_relax_Some in Hstep as (_ & Emat & _).
    exists w', kv'. split_and!; auto; congruence.
  - intros u Hu. apply elem_of_cons in Hu as [->|Hu]; [|by apply Hnz].
    intros E0. destruct Hsrc as (w & kv & Hw & Hkv & Hne & _).
    rewrite E0 in Hgj. unfold glbl in Hgj.
    assert (r0 = 0%nat /\ j0 = 0%nat) as [-> ->] by nia.
    destruct Hun0 as [Hk0 _]. congruence.
Qed.

Lemma Dijkstra_loop_explained (mat : list Z) (n loc_n : Z) (k : nat)
    (ws ws' : list worker) (W : list Z) :
  wf_group n loc_n ws -> Forall bounded ws -> holds_blocks mat n loc_n ws ->
  explained loc_n ws W ->
  Dijkstra_loop loc_n k ws = Some ws' ->
  wf_group n loc_n ws' /\ Forall bounded ws' /\ holds_blocks mat n loc_n ws' /\
  exists W', explained loc_n ws' W'.
Proof.
  revert ws W. induction k as [|k IH]; intros ws W Hwf Hb Hblk Hex Hrun;
    simpl in Hrun.
  - simplify_eq. split_and!; auto. by exists W.
  - bind_case Hrun c Hc. destruct c as [|ws1].
    + simplify_eq. split_and!; auto. by exists W.
    + destruct (round_step n loc_n ws ws1 Hwf Hc) as (g & Hg & _ & Hwf1 & Hall).
      apply (IH ws1 (g.2 :: W)); auto.
      * exact (round_bounded n loc_n ws ws1 Hwf Hb Hc).
      * intros r w1 Hw1.
        destruct (Forall2_lookup_r _ _ _ _ _ Hall Hw1) as (w & Hw & Hstep).
        apply mark_and_relax_Some in Hstep as (_ & -> & _). by apply Hblk.
      * exact (round_explained n loc_n ws ws1 W g Hwf Hb Hex Hc Hg).
Qed.

Lemma rd_gathered (field : worker -> list Z) (n loc_n : Z) (ws : list worker)
    (r j : nat) (w : worker) :
  wf_group n loc_n ws ->
  (forall w, w ∈ ws -> Z.of_nat (length (field w)) = loc_n) ->
  ws !! r = Some w -> (j < Z.to_nat loc_n)%nat ->
  rd (gathered field ws) (glbl loc_n r j) = field w !! j.
Proof.
  intros Hwf Hlen Hw Hj. unfold rd.
  pose proof (glbl_bounds n loc_n ws r j Hwf (lookup_lt_Some _ _ _ Hw) Hj)
    as (_ & Hb & _).
  rewrite decide_True by lia. by apply (gathered_lookup field n).
Qed.

Lemma settled_gathered (n loc_n : Z) (ws : list worker) (x dx : Z) :
  wf_group n loc_n ws -> settled loc_n ws x dx ->
  0 <= x < n /\ rd (gathered loc_dist ws) x = Some dx.
Proof.
  intros Hwf (r & w & j & Hw & Hj & -> & Hd & _).
  destruct (wf_field_lengths n loc_n ws Hwf) as (Hld & _ & _).
  pose proof (glbl_bounds n loc_n ws r j Hwf (lookup_lt_Some _ _ _ Hw) Hj)
    as (_ & Hb & _).
  split; [done|]. by rewrite (rd_gathered loc_dist n loc_n ws r j w).
Qed.

Lemma main_consistent (p : nat) (n loc_n junk : Z) (mat : list Z) :
  valid_input p n loc_n mat -> Forall weight_ok mat ->
  exists gd gp,
    main p n mat true junk = Some (Results loc_n gd gp) /\
    consistent mat n gd gp.
Proof.
  intros Hvi Hmat. pose proof Hvi as [Hp Hpos Hn Hfit Hm].
  destruct (main_run p n loc_n junk mat Hvi)
    as (ws0 & ws & Hbegin & Hrun & Hwf0 & _ & Hmain).
  destruct (run_start p n loc_n junk mat Hvi) as (ws0' & Hbegin' & _ & Hlen0 & Hinit).
  assert (ws0' = ws0) as -> by congruence.
  assert (Hb0 : Forall bounded ws0).
  { apply Forall_lookup. intros r w Hw. destruct (Hinit r w Hw) as [Hi Hmw].
    eapply initial_bounded; [by eapply wf_each|done|].
    rewrite Hmw. by apply blk_col_Forall. }
  assert (Hblk0 : holds_blocks mat n loc_n ws0).
  { intros r w Hw. by destruct (Hinit r w Hw). }
  assert (Hex0 : explained loc_n ws0 []).
  { split.
    - intros r w j Hw Hj. destruct (Hinit r w Hw) as [[_ _ Hid Hip] _].
      pose proof (wf_each _ _ _ Hwf0 r w Hw) as [_ _ Hld _ _].
      destruct (lookup_lt_is_Some_2 (loc_dist w) j) as [d Hd]; [lia|].
      exists 0, d, d. split_and!; auto.
      + rewrite Z.mul_0_l, Z.add_0_l, rd_nat. by rewrite <- Hid.
    - destruct (lookup_lt_is_Some_2 ws0 0%nat) as [w Hw]; [lia|].
      destruct (Hinit 0%nat w Hw) as [[Hk0 _ Hid Hip] _].
      pose proof (wf_each _ _ _ Hwf0 0%nat w Hw) as [Hrk _ _ _ _].
      rewrite decide_True in Hk0 by (by rewrite Hrk).
      exists w, 1. split_and!; auto; [apply Hip|apply Hid]; lia.
    - intros u Hu. by apply elem_of_nil in Hu. }
  destruct (Dijkstra_loop_explained mat n loc_n _ ws0 ws [] Hwf0 Hb0 Hblk0 Hex0 Hrun)
    as (Hwf & Hb & Hblk & W & [Hcells Hsrc Hnz]).
  destruct (wf_field_lengths n loc_n ws Hwf) as (Hld & Hlp & _).
  pose proof (wf_size _ _ _ Hwf) as Hsz.
  exists (gathered loc_dist ws), (gathered loc_pred ws). split; [done|].
  assert (Hlenws : length ws = p).
  { pose proof (wf_size _ _ _ Hwf0). nia. }
  assert (Hcol : forall (r : nat) w, ws !! r = Some w -> (Z.of_nat r + 1) * loc_n <= n).
  { intros r w Hw. apply lookup_lt_Some in Hw. nia. }
  split.
  - rewrite (gathered_length loc_dist loc_n ws Hld). lia.
  - rewrite (gathered_length loc_pred loc_n ws Hlp). lia.
  - unfold gathered. apply Forall_bind, Forall_forall. intros w Hw. simpl.
    by destruct (proj1 (Forall_forall _ _) Hb w Hw).
  - destruct Hsrc as (w & kv & Hw & _ & _ & Hp0 & Hd0).
    assert (Hj0 : (0 < Z.to_nat loc_n)%nat) by lia.
    pose proof (rd_gathered loc_pred n loc_n ws 0 0 w Hwf Hlp Hw Hj0) as Ep.
    pose proof (rd_gathered loc_dist n loc_n ws 0 0 w Hwf Hld Hw Hj0) as Ed.
    replace (glbl loc_n 0 0) with 0 in Ep, Ed by (unfold glbl; lia).
    rewrite Ep, Ed. split; [done|].
    rewrite Hd0, (Hblk 0%nat w Hw).
    assert (Eb : rd (blk_col mat n loc_n 0) (0 * loc_n + 0)
                 = edge mat n 0 (Z.of_nat 0 * loc_n + 0))
      by (apply (blk_col_lookup mat n loc_n 0 0 0 Hm (Hcol 0%nat w Hw)); lia).
    unfold edge in Eb.
    replace (0 * n + (Z.of_nat 0 * loc_n + 0)) with 0 in Eb by lia.
    replace (0 * loc_n + 0) with (Z.of_nat 0) in Eb by lia.
    rewrite rd_nat in Eb. done.
  - intros v Hv.
    destruct (owner_of n loc_n ws v Hwf Hv) as (r & w & j & Hw & Hj & ->).
    destruct (Hcells r w j Hw Hj) as (x & d & m & Hx & Hd & Hmx & Hcase).
    assert (Hxr : 0 <= x < n).
    { destruct Hcase as [[-> _]|(_ & _ & dx & Hsx & _)]; [nia|].
      by destruct (settled_gathered n loc_n ws x dx Hwf Hsx). }
    exists x, d, m.
    rewrite (rd_gathered loc_pred n loc_n ws r j w), (rd_gathered loc_dist n loc_n ws r j w)
      by done.
    split_and!; auto; try lia.
    + rewrite (Hblk r w Hw) in Hmx.
      rewrite (blk_col_lookup mat n loc_n r x (Z.of_nat j) Hm (Hcol r w Hw)) in Hmx
        by lia. done.
    + destruct Hcase as [?|(Hin & Hlt & dx & Hsx & Hdx)]; [by left|right].
      split; [by apply Hnz|]. split; [done|]. exists dx. split; [|done].
      by destruct (settled_gathered n loc_n ws x dx Hwf Hsx).
Qed.

(** ** What [Print_paths] prints *)

Lemma path_loop_chain (fuel : nat) (G : list Z) :
  forall (path : list Z) (count w : Z) (path' : list Z) (count' : Z),
    0 <= count -> Z.of_nat (length path) <= Int32.max_signed ->
    path_loop fuel G path count w = Some (path', count') ->
    exists xs,
      is_chain G w xs /\ count' = count + Z.of_nat (length xs) /\
      length path' = length path /\
      take (Z.to_nat count) path' = take (Z.to_nat count) path /\
      take (length xs) (drop (Z.to_nat count) path') = xs.
Proof.
  induction fuel as [|fuel IH]; intros path count w path' count' Hc Hmax Hrun.
  - simpl in Hrun. destruct (decide (w <> 0)) as [|Hw]; [done|]. simplify_eq.
    exists []. simpl. split_and!; auto; [lia|lia].
  - destruct (decide (w = 0)) as [->|Hw].
    + rewrite path_loop_0 in Hrun. simplify_eq.
      exists []. simpl. split_and!; auto; lia.
    + rewrite path_loop_S in Hrun by done.
      bind_case Hrun p1 Hp1. bind_case Hrun w1 Hw1.
      apply wr_Some in Hp1 as [Hcount ->].
      assert (E : Int32.add count 1 = count + 1).
      { apply wrap_small. unfold Int32.in_range, Int32.min_signed. lia. }
      rewrite E in Hrun.
      apply IH in Hrun as (xs & Hch & Hcnt & Hlen & Hpre & Hseg);
        [|lia|rewrite length_insert; lia].
      rewrite length_insert in Hlen.
      replace (Z.to_nat (count + 1)) with (Datatypes.S (Z.to_nat count)) in * by lia.
      set (c := Z.to_nat count) in *.
      assert (Hat : path' !! c = Some w).
      { rewrite <- (lookup_take_lt path' (Datatypes.S c) c) by lia.
        rewrite Hpre, lookup_take_lt by lia. apply list_lookup_insert_eq. lia. }
      exists (w :: xs). split_and!.
      * simpl. split; [done|]. split; [done|]. by exists w1.
      * simpl length. lia.
      * done.
      * assert (Ht : take c (take (Datatypes.S c) path')
                     = take c (take (Datatypes.S c) (<[c := w]> path)))
          by (by rewrite Hpre).
        rewrite !take_take in Ht. rewrite !Nat.min_l in Ht by lia.
        rewrite Ht. apply take_insert_ge. lia.
      * rewrite (drop_S _ _ _ Hat). simpl. by rewrite Hseg.
Qed.

Lemma walk_weight_snoc (mat : list Z) (n : Z) (ys : list Z) :
  forall (x z a m : Z),
    walk_weight mat n x ys = Some a ->
    edge mat n (walk_end x ys) z = Some m ->
    walk_weight mat n x (ys ++ [z]) = Some (a + m) /\
    walk_end x (ys ++ [z]) = z.
Proof.
  induction ys as [|y ys IH]; intros x z a m Ha Hm.
  - simpl in *. simplify_eq. unfold walk_end in *. simpl in *.
    rewrite Hm. simpl. split; [f_equal; lia|done].
  - simpl in Ha. bind_case Ha m1 Hm1. bind_case Ha a' Ha'. simplify_eq.
    assert (Hend : walk_end x (y :: ys) = walk_end y ys).
    { unfold walk_end. destruct ys as [|y' ys]; [done|].
      rewrite last_cons_cons. destruct (last (y' :: ys)) eqn:El; [done|].
      by apply last_None in El. }
    rewrite Hend in Hm. destruct (IH y z a' m Ha' Hm) as [Hw He].
    split.
    + simpl. rewrite Hm1. simpl. rewrite Hw. simpl. f_equal. lia.
    + unfold walk_end in *. by rewrite last_snoc.
Qed.

(** Under [consistent], the walk along the chain of [w], taken from the
    source, has the distance of [w] as its weight and ends at [w]. *)
Lemma chain_walk (mat : list Z) (n : Z) (gd gp : list Z) :
  consistent mat n gd gp ->
  forall (xs : list Z) (w : Z),
    0 <= w < n -> is_chain gp w xs ->
    exists wt,
      walk_weight mat n 0 (reverse xs) = Some wt /\
      walk_end 0 (reverse xs) = w /\
      ((w = 0 /\ wt = 0) \/ (w <> 0 /\ rd gd w = Some wt)).
Proof.
  intros Hco. induction xs as [|x xs IH]; intros w Hw Hch.
  - simpl in Hch. subst w. exists 0. split_and!; auto.
  - destruct Hch as (-> & Hw0 & w' & Hw' & Hch').
    destruct (co_cells _ _ _ _ Hco w Hw) as (u & d & m & Hu & Hur & Hd & Hm & Hcase).
    assert (u = w') as -> by congruence.
    destruct (IH w' Hur Hch') as (wt' & Hwalk & Hend & Hwt).
    rewrite <- Hend in Hm.
    destruct (walk_weight_snoc mat n (reverse xs) 0 w wt' m Hwalk Hm) as [Hws Hwe].
    exists (wt' + m). rewrite reverse_cons. split_and!; auto.
    right. split; [done|]. rewrite Hd. f_equal.
    destruct Hcase as [[-> ->]|(Hne & _ & du & Hdu & ->)].
    + destruct Hwt as [[_ ->]|[? _]]; [lia|done].
    + destruct Hwt as [[? _]|[_ Hdw]]; [done|]. congruence.
Qed.

Lemma Print_paths_lines (fuel : nat) (gp : list Z) (n junk : Z) :
  0 <= n <= Int32.max_signed ->
  (forall v path, 1 <= v < n -> Z.of_nat (length path) = n ->
     exists path' count,
       path_loop fuel gp path 0 v = Some (path', count) /\
       length path' = length path) ->
  exists lines,
    Print_paths fuel gp n junk = Some lines /\
    length lines = Z.to_nat (n - 1) /\
    forall (k : nat) line, lines !! k = Some line ->
      exists xs, is_chain gp (1 + Z.of_nat k) xs /\ line = 0 :: reverse xs.
Proof.
  intros Hn Hloop. unfold Print_paths, for_loop.
  destruct (for_range_total
    (fun (j : nat) (st : list Z * list (list Z)) =>
       Z.of_nat (length st.1) = n /\ length st.2 = j /\
       forall (k : nat) line, st.2 !! k = Some line ->
         exists xs, is_chain gp (1 + Z.of_nat k) xs /\ line = 0 :: reverse xs)
    (Print_paths_body fuel gp) (Z.to_nat (n - 1)) 1 (malloc n junk, []))
    as ([path lines] & Hrun & _ & Hlen & Hall).
  - simpl. split_and!; auto.
    + unfold malloc. rewrite length_replicate. lia.
    + intros k line Hk. done.
  - intros j [path out] Hj (Hpath & Hout & Hall). simpl in *.
    destruct (Hloop (1 + Z.of_nat j) path) as (path' & count & Hrun & Hlen');
      [lia|done|].
    unfold Print_paths_body. simpl. rewrite Hrun. simpl.
    eexists. split; [done|]. simpl. rewrite length_app. simpl.
    split_and!; [lia|lia|].
    intros k line Hk. apply lookup_app_Some in Hk as [Hk|[Hge Hk]].
    + by apply Hall.
    + apply list_lookup_singleton_Some in Hk as [Hk0 <-].
      assert (k = j) as -> by lia.
      destruct (path_loop_chain fuel gp path 0 (1 + Z.of_nat j) path' count)
        as (xs & Hch & Hcnt & _ & _ & Hseg); [lia|lia|done|].
      exists xs. split; [done|]. unfold printed_path.
      rewrite Z2Nat.inj_0, drop_0 in Hseg.
      rewrite Hcnt, Z.add_0_l, Nat2Z.id. by rewrite Hseg.
  - exists lines. rewrite Hrun. simpl in *. by split_and!.
Qed.

Lemma Print_dists_rows (gd : list Z) (n : Z) :
  n <= Z.of_nat (length gd) ->
  exists rows,
    Print_dists gd n = Some rows /\
    length rows = Z.to_nat (n - 1) /\
    forall (k : nat) row, rows !! k = Some row ->
      row.1 = 1 + Z.of_nat k /\ rd gd (1 + Z.of_nat k) = Some row.2.
Proof.
  intros Hn. unfold Print_dists, for_loop.
  destruct (for_range_total
    (fun (j : nat) (out : list (Z * Z)) =>
       length out = j /\
       forall (k : nat) row, out !! k = Some row ->
         row.1 = 1 + Z.of_nat k /\ rd gd (1 + Z.of_nat k) = Some row.2)
    (Print_dists_body gd) (Z.to_nat (n - 1)) 1 [])
    as (rows & Hrun & Hlen & Hall).
  - split; [done|]. intros k row Hk. done.
  - intros j out Hj (Hout & Hall). unfold Print_dists_body.
    assert (Hrd : is_Some (rd gd (1 + Z.of_nat j))).
    { unfold rd. rewrite decide_True by lia. apply lookup_lt_is_Some_2. lia. }
    destruct Hrd as [d Hd]. rewrite Hd. simpl.
    eexists. split; [done|]. rewrite length_app. simpl. split; [lia|].
    intros k row Hk. apply lookup_app_Some in Hk as [Hk|[Hge Hk]].
    + by apply Hall.
    + apply list_lookup_singleton_Some in Hk as [Hk0 <-].
      assert (k = j) as -> by lia. done.
  - exists rows. by split_and!.
Qed.

(** The run delivers arrays on which the loop of [Print_paths] ends for
    every vertex, whatever [path] holds. *)
Lemma main_paths (p : nat) (n loc_n junk : Z) (mat : list Z) :
  valid_input p n loc_n mat ->
  exists gd gp,
    main p n mat true junk = Some (Results loc_n gd gp) /\
    forall v path, 0 <= v < n -> Z.of_nat (length path) = n ->
      exists path' count,
        path_loop (Z.to_nat n) gp path 0 v = Some (path', count) /\
        length path' = length path.
Proof.
  intros Hvi.
  destruct (main_run p n loc_n junk mat Hvi)
    as (ws0 & ws & Hbegin & Hrun & Hwf0 & Hwf & Hmain).
  destruct (run_start p n loc_n junk mat Hvi) as (ws0' & Hbegin' & _ & _ & Hinit).
  assert (ws0' = ws0) as -> by congruence.
  assert (Hch0 : chained loc_n ws0 []).
  { split; [|done]. intros r w j x Hw Hx. left.
    destruct (Hinit r w Hw) as [[_ _ _ Hp0] _].
    pose proof (wf_each _ _ _ Hwf0 r w Hw) as [_ _ _ Hlp _].
    apply lookup_lt_Some in Hx as Hj. rewrite Hp0 in Hx by lia. congruence. }
  destruct (Dijkstra_loop_chained n loc_n _ ws0 ws [] Hwf0 Hch0 Hrun)
    as (W & Hch & HlenW).
  simpl in HlenW.
  exists (gathered loc_dist ws), (gathered loc_pred ws). split; [done|].
  intros v path Hv Hpath.
  by apply (path_loop_final n loc_n ws W v path Hwf Hch HlenW Hv Hpath).
Qed.

(** X5. For every admissible input with weights between 0 and [INFINITY]
    and every number of ranks: the delivered arrays have [n] cells; the
    source keeps predecessor 0 and distance [mat[0][0]]; and the distance of
    every vertex [v] is accounted for by its predecessor [u]: it is the weight
    of the edge from the source when [u = 0], and otherwise the delivered
    distance of [u] plus the weight of the edge from [u] to [v]. *)
Theorem distance_is_predecessor_distance_plus_edge (p : nat) (n loc_n junk : Z)
    (mat : list Z) :
  valid_input p n loc_n mat -> Forall weight_ok mat ->
  exists gd gp,
    main p n mat true junk = Some (Results loc_n gd gp) /\
    Z.of_nat (length gd) = n /\ Z.of_nat (length gp) = n /\
    rd gp 0 = Some 0 /\ rd gd 0 = rd mat 0 /\
    forall v, 0 <= v < n ->
      exists u d m,
        rd gp v = Some u /\ 0 <= u < n /\ rd gd v = Some d /\
        edge mat n u v = Some m /\
        ((u = 0 /\ d = m) \/
         (u <> 0 /\ d < INFINITY /\ exists du, rd gd u = Some du /\ d = du + m)).
Proof.
  intros Hvi Hmat.
  destruct (main_consistent p n loc_n junk mat Hvi Hmat)
    as (gd & gp & Hmain & [Hld Hlp _ [Hs1 Hs2] Hcells]).
  exists gd, gp. by split_and!.
Qed.

(** A vertex that is its own predecessor has no chain. *)
Lemma chain_no_self_loop (G : list Z) (w : Z) (xs : list Z) :
  is_chain G w xs -> w <> 0 -> rd G w <> Some w.
Proof.
  induction xs as [|x xs IH]; simpl; intros Hch Hw Hself; [done|].
  destruct Hch as (_ & _ & w' & Hw' & Hch).
  assert (w' = w) as -> by congruence. by apply IH.
Qed.

(** X6. A vertex other than the source into which every edge from another
    vertex has the no-edge weight is delivered with distance [INFINITY] and
    predecessor 0, for every number of ranks and whatever its own diagonal
    entry is. *)
Theorem vertex_without_inbound_edge (p : nat) (n loc_n junk : Z) (mat : list Z)
    (v : Z) :
  valid_input p n loc_n mat -> Forall weight_ok mat -> 1 <= v < n ->
  (forall u, 0 <= u < n -> u <> v -> edge mat n u v = Some INFINITY) ->
  exists gd gp,
    main p n mat true junk = Some (Results loc_n gd gp) /\
    rd gd v = Some INFINITY /\ rd gp v = Some 0.
Proof.
  intros Hvi Hmat Hv Hcol.
  destruct (main_consistent p n loc_n junk mat Hvi Hmat)
    as (gd & gp & Hmain & [_ _ Hb _ Hcells]).
  destruct (main_paths p n loc_n junk mat Hvi) as (gd' & gp' & Hmain' & Hpaths).
  assert (gp' = gp) as -> by congruence.
  exists gd, gp. split; [done|].
  destruct (Hpaths v (replicate (Z.to_nat n) 0)) as (path' & count & Hloop & _);
    [lia|rewrite length_replicate; lia|].
  pose proof (vi_fits _ _ _ _ Hvi) as Hfit. pose proof (vi_loc_n _ _ _ _ Hvi) as Hpos.
  destruct (path_loop_chain (Z.to_nat n) gp (replicate (Z.to_nat n) 0) 0 v path' count)
    as (xs & Hch & _);
    [lia|rewrite length_replicate; unfold Int32.max_signed in *; nia|exact Hloop|].
  destruct (Hcells v) as (u & d & m & Hu & Hur & Hd & Hm & Hcase); [lia|].
  assert (Huv : u <> v).
  { intros ->. by apply (chain_no_self_loop gp v xs Hch); [lia|]. }
  rewrite (Hcol u Hur Huv) in Hm. simplify_eq.
  destruct Hcase as [[-> ->]|(_ & Hlt & du & Hdu & ->)]; [done|].
  exfalso. apply rd_Some in Hdu as [_ Hdu].
  pose proof (Forall_lookup_1 _ _ _ _ Hb Hdu) as [? _]. lia.
Qed.

(** X7. Whenever the [while] loop of [Print_paths] ends for a vertex [v],
    the line printed for it is 0 followed by the chain of [v] in reverse: it
    ends with [v], every vertex on it is the predecessor of the next, the
    vertex after the leading 0 has predecessor 0, and no more than the cells
    of [path] were used. *)
Theorem printed_line_is_reversed_chain (fuel : nat) (global_pred path : list Z)
    (v : Z) (path' : list Z) (count : Z) :
  Z.of_nat (length path) <= Int32.max_signed ->
  path_loop fuel global_pred path 0 v = Some (path', count) ->
  exists xs,
    is_chain global_pred v xs /\
    printed_path path' count = 0 :: reverse xs /\
    walk_end 0 (reverse xs) = v /\
    count = Z.of_nat (length xs) /\ count <= Z.of_nat (length path).
Proof.
  intros Hmax Hrun.
  destruct (path_loop_chain fuel global_pred path 0 v path' count)
    as (xs & Hch & Hcnt & Hlen & _ & Hseg); [lia|done|done|].
  rewrite Z2Nat.inj_0, drop_0 in Hseg.
  exists xs. split; [done|]. split; [|split; [|split]].
  - unfold printed_path. rewrite Hcnt, Z.add_0_l, Nat2Z.id. by rewrite Hseg.
  - unfold walk_end. rewrite last_reverse. destruct xs as [|x xs]; simpl in *.
    + done.
    + by destruct Hch as [-> _].
  - lia.
  - rewrite Hcnt, <- Hlen, <- Hseg, length_take. lia.
Qed.

(** X8. For every admissible input with weights between 0 and [INFINITY]
    and every number of ranks, the report fits together: [Print_dists] and
    [Print_paths] both print [n - 1] rows, row [k] is for vertex [k + 1], and
    the path printed for a vertex is a walk in the graph from the source to
    that vertex whose total weight is the distance printed for it. *)
Theorem printed_path_has_printed_length (p : nat) (n loc_n junk : Z) (mat : list Z) :
  valid_input p n loc_n mat -> Forall weight_ok mat ->
  exists gd gp rows lines,
    main p n mat true junk = Some (Results loc_n gd gp) /\
    Print_dists gd n = Some rows /\
    Print_paths (Z.to_nat n) gp n junk = Some lines /\
    length rows = Z.to_nat (n - 1) /\ length lines = Z.to_nat (n - 1) /\
    forall (k : nat) row line,
      rows !! k = Some row -> lines !! k = Some line ->
      row.1 = 1 + Z.of_nat k /\
      exists ys,
        line = 0 :: ys /\ walk_end 0 ys = row.1 /\
        walk_weight mat n 0 ys = Some row.2.
Proof.
  intros Hvi Hmat. pose proof Hvi as [Hp Hpos Hn Hfit Hm].
  destruct (main_consistent p n loc_n junk mat Hvi Hmat)
    as (gd & gp & Hmain & Hco).
  destruct (main_paths p n loc_n junk mat Hvi) as (gd' & gp' & Hmain' & Hloop).
  assert (gd' = gd /\ gp' = gp) as [-> ->] by (split; congruence).
  destruct (Print_dists_rows gd n) as (rows & Hrows & Hlr & Hrow).
  { rewrite (co_len_dist _ _ _ _ Hco). lia. }
  destruct (Print_paths_lines (Z.to_nat n) gp n junk) as (lines & Hlines & Hll & Hline).
  { nia. }
  { intros v path Hv Hpath. apply Hloop; [lia|done]. }
  exists gd, gp, rows, lines. split_and!; auto.
  intros k row line Hk Hl. destruct (Hrow k row Hk) as [Hr1 Hr2].
  split; [done|].
  destruct (Hline k line Hl) as (xs & Hch & ->).
  assert (Hkn : (k < Z.to_nat (n - 1))%nat)
    by (rewrite <- Hlr; by eapply lookup_lt_Some).
  destruct (chain_walk mat n gd gp Hco xs (1 + Z.of_nat k)) as (wt & Hw & He & Hwt);
    [lia|done|].
  exists (reverse xs). split_and!; auto; [congruence|].
  destruct Hwt as [[? _]|[_ Hd]]; [lia|]. congruence.
Qed.

Lemma printed_line_is_reversed_chain_at_example :
  Z.of_nat (length [9; 9; 9; 9]) <= Int32.max_signed /\
  path_loop 4 [0; 0; 1; 2] [9; 9; 9; 9] 0 3 = Some ([3; 2; 1; 9], 3) /\
  exists xs,
    is_chain [0; 0; 1; 2] 3 xs /\
    printed_path [3; 2; 1; 9] 3 = 0 :: reverse xs /\
    walk_end 0 (reverse xs) = 3 /\
    3 = Z.of_nat (length xs) /\ 3 <= Z.of_nat (length [9; 9; 9; 9]).
Proof.
  assert (H1 : Z.of_nat (length [9; 9; 9; 9]) <= Int32.max_signed)
    by (unfold Int32.max_signed; simpl; lia).
  assert (H2 : path_loop 4 [0; 0; 1; 2] [9; 9; 9; 9] 0 3 = Some ([3; 2; 1; 9], 3))
    by reflexivity.
  split; [exact H1|]. split; [exact H2|].
  exact (printed_line_is_reversed_chain 4 [0; 0; 1; 2] [9; 9; 9; 9] 3
           [3; 2; 1; 9] 3 H1 H2).
Defined.

Lemma distance_is_predecessor_distance_plus_edge_at_scenario4 :
  valid_input 2 4 2 scenario4 /\ Forall weight_ok scenario4 /\
  exists gd gp,
    main 2 4 scenario4 true 0 = Some (Results 2 gd gp) /\
    Z.of_nat (length gd) = 4 /\ Z.of_nat (length gp) = 4 /\
    rd gp 0 = Some 0 /\ rd gd 0 = rd scenario4 0.
Proof.
  assert (H1 : valid_input 2 4 2 scenario4).
  { split; [lia|lia|lia|unfold Int32.max_signed; lia|reflexivity]. }
  assert (H2 : Forall weight_ok scenario4).
  { unfold scenario4. repeat constructor; unfold weight_ok, INFINITY; lia. }
  split; [exact H1|]. split; [exact H2|].
  destruct (distance_is_predecessor_distance_plus_edge 2 4 2 0 scenario4 H1 H2)
    as (gd & gp & Hm & Hld & Hlp & Hp0 & Hd0 & _).
  exists gd, gp. split; [exact Hm|]. split; [exact Hld|]. split; [exact Hlp|].
  split; [exact Hp0|exact Hd0].
Defined.

Lemma printed_path_has_printed_length_at_scenario4 :
  valid_input 2 4 2 scenario4 /\ Forall weight_ok scenario4 /\
  exists gd gp rows lines,
    main 2 4 scenario4 true 0 = Some (Results 2 gd gp) /\
    Print_dists gd 4 = Some rows /\
    Print_paths (Z.to_nat 4) gp 4 0 = Some lines /\
    length rows = Z.to_nat (4 - 1) /\ length lines = Z.to_nat (4 - 1).
Proof.
  assert (H1 : valid_input 2 4 2 scenario4).
  { split; [lia|lia|lia|unfold Int32.max_signed; lia|reflexivity]. }
  assert (H2 : Forall weight_ok scenario4).
  { unfold scenario4. repeat constructor; unfold weight_ok, INFINITY; lia. }
  split; [exact H1|]. split; [exact H2|].
  destruct (printed_path_has_printed_length 2 4 2 0 scenario4 H1 H2)
    as (gd & gp & rows & lines & Hm & Hr & Hl & Hlr & Hll & _).
  exists gd, gp, rows, lines.
  split; [exact Hm|]. split; [exact Hr|]. split; [exact Hl|].
  split; [exact Hlr|exact Hll].
Defined.

Lemma vertex_without_inbound_edge_at_island4 :
  valid_input 2 4 2 island4 /\ Forall weight_ok island4 /\ 1 <= 3 < 4 /\
  edge island4 4 3 3 = Some 0 /\
  (forall u, 0 <= u < 4 -> u <> 3 -> edge island4 4 u 3 = Some INFINITY) /\
  exists gd gp,
    main 2 4 island4 true 0 = Some (Results 2 gd gp) /\
    rd gd 3 = Some INFINITY /\ rd gp 3 = Some 0.
Proof.
  assert (H1 : valid_input 2 4 2 island4).
  { split; [lia|lia|lia|unfold Int32.max_signed; lia|reflexivity]. }
  assert (H2 : Forall weight_ok island4).
  { unfold island4. repeat constructor; unfold weight_ok, INFINITY; lia. }
  assert (H3 : 1 <= 3 < 4) by lia.
  assert (H4 : forall u, 0 <= u < 4 -> u <> 3 -> edge island4 4 u 3 = Some INFINITY).
  { intros u Hu Hne.
    assert (u = 0 \/ u = 1 \/ u = 2) as [->|[->| ->]] by lia; reflexivity. }
  split; [exact H1|]. split; [exact H2|]. split; [exact H3|].
  split; [reflexivity|]. split; [exact H4|].
  exact (vertex_without_inbound_edge 2 4 2 0 island4 3 H1 H2 H3 H4).
Defined.

(** ** Cells the gather never writes *)

Lemma Dijkstra_start_lengths (loc_n junk rank : Z) (m d pr : list Z) (w : worker) :
  Dijkstra_start loc_n junk rank m d pr = Some w ->
  length (loc_dist w) = length d /\ length (loc_pred w) = length pr.
Proof.
  unfold Dijkstra_start, Dijkstra_Init. intros H.
  bind_case H st Hst. simplify_eq. simpl.
  bind_case Hst kn0 Hkn0. bind_case Hst kn Hkn. bind_case Hst st2 Hst2.
  simplify_eq. simpl. unfold for_loop in Hst2.
  apply (for_range_partial
    (fun (_ : nat) (s : list Z * list Z) =>
       length s.1 = length d /\ length s.2 = length pr)) in Hst2; [done|done|].
  intros j [dj pj] [dj' pj'] _ [Hd Hp] Hb. simpl in *.
  unfold Init_body in Hb. simpl in Hb.
  bind_case Hb x Hx. bind_case Hb d1 Hd1. bind_case Hb p1 Hp1. simplify_eq.
  apply wr_Some in Hd1 as [_ ->]. apply wr_Some in Hp1 as [_ ->].
  by rewrite !length_insert.
Qed.

Lemma Dijkstra_loop_lengths (loc_n : Z) (k : nat) (ws ws' : list worker) :
  Dijkstra_loop loc_n k ws = Some ws' ->
  Forall2 (fun w w' => length (loc_dist w') = length (loc_dist w) /\
                       length (loc_pred w') = length (loc_pred w)) ws ws'.
Proof.
  apply Dijkstra_loop_ind.
  - intros l. by apply Forall_Forall2_diag, Forall_forall.
  - intros a b c. apply Forall2_trans. intros x y z [? ?] [? ?]. split; congruence.
  - intros l l' Hround. apply round_Next in Hround as (g & loc_u & _ & _ & _ & H).
    eapply Forall2_impl; [exact H|]. intros w w' Hstep. simpl in Hstep.
    by apply mark_and_relax_Some in Hstep as (_ & _ & _ & _ & ? & ? & _).
Qed.

Lemma MPI_Gather_tail (field : worker -> list Z) (loc_n n junk : Z) (ws : list worker) :
  0 <= loc_n -> Z.of_nat (length ws) * loc_n <= n ->
  (forall w, w ∈ ws -> length (field w) = Z.to_nat loc_n) ->
  let gathered_cells := MPI_Gather (field <$> ws) loc_n (malloc n junk) in
  Z.of_nat (length gathered_cells) = n /\
  forall v, Z.of_nat (length ws) * loc_n <= v < n -> rd gathered_cells v = Some junk.
Proof.
  intros Hl Hn Hlen. unfold MPI_Gather. cbv zeta.
  set (got := (field <$> ws) ≫= (fun l => take (Z.to_nat loc_n) l)).
  assert (Hgot : length got = (length ws * Z.to_nat loc_n)%nat).
  { unfold got. rewrite (length_bind_const _ (Z.to_nat loc_n)).
    - by rewrite length_fmap.
    - intros l Hin. apply list_elem_of_fmap in Hin as (w & -> & Hw).
      rewrite length_take, (Hlen w Hw). lia. }
  assert (Hmal : length (malloc n junk) = Z.to_nat n)
    by (unfold malloc; apply length_replicate).
  rewrite Hmal, Hgot, take_ge by nia.
  split.
  - rewrite length_app, length_drop, Hgot, Hmal. nia.
  - intros v Hv. unfold rd. rewrite decide_True by nia.
    rewrite lookup_app_r by nia. rewrite lookup_drop. unfold malloc.
    apply lookup_replicate_2. nia.
Qed.

(** X9. Whatever [n] and [p] are, a run that comes back has used the
    truncated quotient [loc_n = n / p], delivers arrays of [n] cells, and has
    written only the first [p * loc_n] of them: when [n] is not a multiple of
    [p], the cells of the last [n mod p] vertices still hold what the
    allocation returned. *)
Theorem cells_beyond_last_block_never_written (p : nat) (n junk : Z)
    (mat : list Z) (loc_n : Z) (gd gp : list Z) :
  (0 < p)%nat -> 0 <= n <= Int32.max_signed ->
  main p n mat true junk = Some (Results loc_n gd gp) ->
  loc_n = Z.quot n (Z.of_nat p) /\
  Z.of_nat (length gd) = n /\ Z.of_nat (length gp) = n /\
  forall v, Z.of_nat p * loc_n <= v < n ->
    rd gd v = Some junk /\ rd gp v = Some junk.
Proof.
  intros Hp Hn Hmain. unfold main, Int32.quot in Hmain.
  rewrite decide_False in Hmain by lia. simpl in Hmain.
  assert (Hq : 0 <= Z.quot n (Z.of_nat p) /\ Z.of_nat p * Z.quot n (Z.of_nat p) <= n).
  { pose proof (Z.quot_pos n (Z.of_nat p)).
    pose proof (Z.mul_quot_le n (Z.of_nat p)). lia. }
  rewrite wrap_small in Hmain
    by (unfold Int32.in_range, Int32.min_signed; nia).
  bind_case Hmain ws Hws. injection Hmain as <- <- <-.
  set (loc_n := Z.quot n (Z.of_nat p)) in *.
  unfold Dijkstra in Hws. bind_case Hws ws0 Hws0.
  pose proof (Dijkstra_loop_lengths _ _ _ _ Hws) as Hshape.
  unfold Dijkstra_begin in Hws0. apply mapM_Some in Hws0.
  assert (Hlen0 : length ws0 = p).
  { apply Forall2_length in Hws0. rewrite length_imap in Hws0.
    unfold rank_bufs, Read_matrix in Hws0.
    rewrite !length_fmap, length_seq in Hws0. lia. }
  assert (Hlenws : length ws = p) by (apply Forall2_length in Hshape; lia).
  assert (Hcells : forall w, w ∈ ws ->
            length (loc_dist w) = Z.to_nat loc_n /\
            length (loc_pred w) = Z.to_nat loc_n).
  { intros w Hin. apply list_elem_of_lookup in Hin as [r Hr].
    destruct (Forall2_lookup_r _ _ _ _ _ Hshape Hr) as (w0 & Hw0 & [Ed Ep]).
    destruct (Forall2_lookup_r _ _ _ _ _ Hws0 Hw0) as (rb & Hrb & Hstart).
    apply Dijkstra_start_lengths in Hstart as [Ed0 Ep0].
    rewrite list_lookup_imap in Hrb. unfold rank_bufs in Hrb.
    rewrite list_lookup_fmap in Hrb.
    destruct (Read_matrix mat n loc_n p !! r) as [m|]; [|done].
    simpl in Hrb. simplify_eq. simpl in Ed0, Ep0.
    unfold malloc in Ed0, Ep0. rewrite length_replicate in Ed0, Ep0.
    split; congruence. }
  split; [done|].
  destruct (MPI_Gather_tail loc_dist loc_n n junk ws) as [Hld Htd];
    [lia|rewrite Hlenws; lia|intros w Hw; by destruct (Hcells w Hw)|].
  destruct (MPI_Gather_tail loc_pred loc_n n junk ws) as [Hlp Htp];
    [lia|rewrite Hlenws; lia|intros w Hw; by destruct (Hcells w Hw)|].
  split; [done|]. split; [done|].
  intros v Hv. rewrite Hlenws in Htd, Htp. by split; [apply Htd|apply Htp].
Qed.

Lemma cells_beyond_last_block_never_written_at_path5 :
  (0 < 2)%nat /\ 0 <= 5 <= Int32.max_signed /\
  main 2 5 path5 true 77
    = Some (Results 2 [0; 1; 2; INFINITY; 77] [0; 0; 1; 0; 77]) /\
  forall v, Z.of_nat 2 * 2 <= v < 5 ->
    rd [0; 1; 2; INFINITY; 77] v = Some 77 /\ rd [0; 0; 1; 0; 77] v = Some 77.
Proof.
  assert (H1 : (0 < 2)%nat) by lia.
  assert (H2 : 0 <= 5 <= Int32.max_signed) by (unfold Int32.max_signed; lia).
  assert (H3 : main 2 5 path5 true 77
    = Some (Results 2 [0; 1; 2; INFINITY; 77] [0; 0; 1; 0; 77]))
    by (vm_compute; reflexivity).
  split; [exact H1|]. split; [exact H2|]. split; [exact H3|].
  exact (proj2 (proj2 (proj2
    (cells_beyond_last_block_never_written 2 5 77 path5 2 _ _ H1 H2 H3)))).
Defined.

(** ** One rank: the distances are the least walk weights *)

Lemma Relax_loop_offered (mat kn : list Z) (loc_n U D : Z) (d0 p0 d p : list Z) :
  for_loop 0 loc_n (Relax_body mat kn loc_n U D) (d0, p0) = Some (d, p) ->
  forall v : nat, (v < Z.to_nat loc_n)%nat -> kn !! v = Some 0 ->
    exists m x,
      rd mat (Int32.add (Int32.mul U loc_n) (Z.of_nat v)) = Some m /\
      d !! v = Some x /\ x <= Int32.add D m.
Proof.
  unfold for_loop. rewrite Z.sub_0_r. intros Hrun.
  pose (P := fun (j : nat) (st : list Z * list Z) =>
    forall v : nat, (v < j)%nat -> kn !! v = Some 0 ->
      exists m x,
        rd mat (Int32.add (Int32.mul U loc_n) (Z.of_nat v)) = Some m /\
        st.1 !! v = Some x /\ x <= Int32.add D m).
  apply (for_range_partial P) in Hrun; [done| |].
  - intros v Hv. lia.
  - clear Hrun. intros j [dj pj] [dj' pj'] _ Hinv Hb. unfold P in *. simpl in *.
    unfold Relax_body in Hb. simpl in Hb. rewrite Z.add_0_l, !rd_nat in Hb.
    bind_case Hb k Hk.
    assert (Hold : forall v : nat, (v < j)%nat -> dj' !! v = dj !! v).
    { intros v Hv. destruct (decide (k = 0)); [|by simplify_eq].
      bind_case Hb m Hm. bind_case Hb cur Hcur.
      destruct (decide (Int32.add D m < cur)); [|by simplify_eq].
      bind_case Hb d1 Hd1. bind_case Hb p1 Hp1. simplify_eq.
      apply wr_Some in Hd1 as [_ ->]. rewrite Nat2Z.id.
      apply list_lookup_insert_ne. lia. }
    intros v Hv Hkv. destruct (decide (v = j)) as [->|Hne].
    + assert (k = 0) as -> by congruence.
      rewrite decide_True in Hb by done.
      bind_case Hb m Hm. bind_case Hb cur Hcur. exists m.
      destruct (decide (Int32.add D m < cur)).
      * bind_case Hb d1 Hd1. bind_case Hb p1 Hp1. simplify_eq.
        apply wr_Some in Hd1 as [Hi ->]. rewrite Nat2Z.id.
        exists (Int32.add D m). split_and!; auto; [|lia].
        apply list_lookup_insert_eq. lia.
      * simplify_eq. exists cur. split_and!; auto. lia.
    + rewrite Hold by lia. apply Hinv; [lia|done].
Qed.

Lemma walk_weight_nonneg (mat : list Z) (n : Z) (ys : list Z) :
  Forall weight_ok mat ->
  forall x wt, walk_weight mat n x ys = Some wt -> 0 <= wt.
Proof.
  intros Hmat. induction ys as [|y ys IH]; intros x wt H; simpl in H.
  - simplify_eq. lia.
  - bind_case H m Hm. bind_case H rest Hrest. simplify_eq.
    apply IH in Hrest. unfold edge in Hm. apply rd_Some in Hm as [_ Hm].
    pose proof (Forall_lookup_1 _ _ _ _ Hmat Hm) as [? _]. lia.
Qed.

Lemma walk_end_cons (x y : Z) (ys : list Z) :
  walk_end x (y :: ys) = walk_end y ys.
Proof.
  unfold walk_end. destruct ys as [|y' ys]; [done|].
  rewrite last_cons_cons. destruct (last (y' :: ys)) eqn:El; [done|].
  by apply last_None in El.
Qed.

Lemma glbl_inj (loc_n : Z) (r j r' j' : nat) :
  0 < loc_n -> (j < Z.to_nat loc_n)%nat -> (j' < Z.to_nat loc_n)%nat ->
  glbl loc_n r j = glbl loc_n r' j' -> r = r' /\ j = j'.
Proof.
  unfold glbl. intros Hpos Hj Hj' E.
  assert (Hr : Z.of_nat r = Z.of_nat r').
  { destruct (Z.lt_total (Z.of_nat r) (Z.of_nat r')) as [H|[H|H]]; [exfalso|done|exfalso].
    - assert ((Z.of_nat r + 1) * loc_n <= Z.of_nat r' * loc_n)
        by (apply Z.mul_le_mono_nonneg_r; lia). lia.
    - assert ((Z.of_nat r' + 1) * loc_n <= Z.of_nat r * loc_n)
        by (apply Z.mul_le_mono_nonneg_r; lia). lia. }
  rewrite Hr in E. split; lia.
Qed.

(** A vertex is not both settled and unvisited, and is settled at one
    distance only. *)
Lemma settled_not_unvisited (n loc_n : Z) (ws : list worker) (x dx d : Z) :
  wf_group n loc_n ws -> settled loc_n ws x dx -> gunvisited ws x d -> False.
Proof.
  intros Hwf (r & w & j & Hw & Hj & Hx & _ & kv & Hkv & Hne) Hun.
  destruct (gunvisited_owner n loc_n ws x d Hwf Hun)
    as (r' & w' & j' & Hw' & Hj' & Hx' & [Hk0 _]).
  destruct (glbl_inj loc_n r j r' j' (wf_pos _ _ _ Hwf) Hj Hj') as [-> ->];
    [congruence|]. congruence.
Qed.

Lemma settled_unique (n loc_n : Z) (ws : list worker) (x d1 d2 : Z) :
  wf_group n loc_n ws -> settled loc_n ws x d1 -> settled loc_n ws x d2 -> d1 = d2.
Proof.
  intros Hwf (r & w & j & Hw & Hj & Hx & Hd & _) (r' & w' & j' & Hw' & Hj' & Hx' & Hd' & _).
  destruct (glbl_inj loc_n r j r' j' (wf_pos _ _ _ Hwf) Hj Hj') as [-> ->];
    [congruence|]. congruence.
Qed.

Lemma edge_weight_ok (mat : list Z) (n u v m : Z) :
  Forall weight_ok mat -> edge mat n u v = Some m -> weight_ok m.
Proof.
  intros Hmat Hm. unfold edge in Hm. apply rd_Some in Hm as [_ Hm].
  exact (Forall_lookup_1 _ _ _ _ Hmat Hm).
Qed.

(** A walk from the source that ends at an unvisited vertex passes an
    unvisited vertex that is no farther than the walk is long. *)
Lemma crossing (mat : list Z) (n loc_n : Z) (ws : list worker) (W : list Z) :
  wf_group n loc_n ws -> Forall weight_ok mat ->
  tight mat n loc_n ws W -> all_accounted n ws W ->
  forall (ys pre : list Z) (c wt : Z),
    in_graph n ys ->
    walk_weight mat n 0 pre = Some c ->
    (walk_end 0 pre = 0 \/ walk_end 0 pre ∈ W) ->
    walk_weight mat n (walk_end 0 pre) ys = Some wt ->
    (exists d, gunvisited ws (walk_end (walk_end 0 pre) ys) d) ->
    in_graph n pre ->
    exists z dz, gunvisited ws z dz /\ dz <= c + wt.
Proof.
  intros Hwf Hmat Ht Hacc.
  induction ys as [|y ys IH]; intros pre c wt Hys Hpre Hx Hwalk [d Hd] Hin.
  - exfalso. unfold walk_end at 1 in Hd. simpl in Hd.
    destruct Hx as [E|Hx].
    + rewrite E in Hd. destruct (ti_source _ _ _ _ _ Ht) as [d0 H0].
      by eapply settled_not_unvisited.
    + destruct (ti_settled _ _ _ _ _ Ht _ Hx) as [du Hu].
      by eapply settled_not_unvisited.
  - simpl in Hwalk. bind_case Hwalk m Hm. bind_case Hwalk rest Hrest. simplify_eq.
    apply Forall_cons in Hys as [Hy Hys].
    pose proof (walk_weight_nonneg mat n ys Hmat _ _ Hrest) as Hr0.
    pose proof (walk_weight_nonneg mat n pre Hmat _ _ Hpre) as Hc0.
    pose proof (edge_weight_ok _ _ _ _ _ Hmat Hm) as [Hm0 _].
    destruct (walk_weight_snoc mat n pre 0 y c m Hpre Hm) as [Hpre' Hend'].
    rewrite walk_end_cons in Hd.
    destruct (Hacc y Hy) as [Hy0|[HyW|[dy Hdy]]].
    + destruct (IH (pre ++ [y]) (c + m) rest) as (z & dz & Hz & Hle).
      * done.
      * done.
      * left. by rewrite Hend'.
      * by rewrite Hend'.
      * rewrite Hend'. by exists d.
      * apply Forall_app. split; [done|]. by apply Forall_singleton.
      * exists z, dz. split; [done|lia].
    + destruct (IH (pre ++ [y]) (c + m) rest) as (z & dz & Hz & Hle).
      * done.
      * done.
      * right. by rewrite Hend'.
      * by rewrite Hend'.
      * rewrite Hend'. by exists d.
      * apply Forall_app. split; [done|]. by apply Forall_singleton.
      * exists z, dz. split; [done|lia].
    + exists y, dy. split; [done|].
      destruct Hx as [E|Hx].
      * rewrite E in Hm. pose proof (ti_source_edge _ _ _ _ _ Ht y dy m Hdy Hm). lia.
      * destruct (ti_settled _ _ _ _ _ Ht _ Hx) as [du Hu].
        pose proof (ti_winner_edge _ _ _ _ _ Ht y dy _ du m Hdy Hx Hu Hm).
        pose proof (ti_least _ _ _ _ _ Ht _ du pre c Hx Hu Hin eq_refl Hpre). lia.
Qed.

Lemma mark_and_relax_offered (loc_n loc_u : Z) (g : Z * Z) (w w' : worker) :
  mark_and_relax loc_n loc_u g w = Some w' ->
  forall v : nat, (v < Z.to_nat loc_n)%nat -> loc_known w' !! v = Some 0 ->
    exists m x,
      rd (loc_mat w) (Int32.add (Int32.mul g.2 loc_n) (Z.of_nat v)) = Some m /\
      loc_dist w' !! v = Some x /\ x <= Int32.add g.1 m.
Proof.
  unfold mark_and_relax. intros H v Hv Hk.
  bind_case H kn Hkn. bind_case H st Hst. destruct st as [d p].
  simplify_eq. simpl in *. by eapply Relax_loop_offered.
Qed.

(** What is unvisited after a round was unvisited before it, is not the
    winner, and has been offered the way through the winner. *)
Lemma round_unvisited_after (mat : list Z) (n loc_n : Z) (ws ws' : list worker)
    (g : Z * Z) (x d' : Z) :
  wf_group n loc_n ws -> Forall bounded ws -> Forall weight_ok mat ->
  holds_blocks mat n loc_n ws -> Z.of_nat (length mat) = n * n ->
  round loc_n ws = Some (Next ws') -> winner loc_n ws = Some g ->
  gunvisited ws' x d' ->
  exists d m,
    gunvisited ws x d /\ edge mat n g.2 x = Some m /\
    (d' = d \/ d' = g.1 + m) /\ d' <= d /\ d' <= g.1 + m /\ x <> g.2.
Proof.
  intros Hwf Hb Hmat Hblk Hlen Hround Hg Hun'.
  destruct (round_step n loc_n ws ws' Hwf Hround) as (g' & Hg' & Hg2 & Hwf' & Hall).
  assert (g' = g) as -> by congruence.
  assert (Hne1 : g.2 <> -1) by lia.
  pose proof (winner_bounded n loc_n ws g Hwf Hb Hg Hne1) as HD.
  pose proof Hwf as [Hpos _ Hsz Hfit _].
  destruct (gunvisited_owner n loc_n ws' x d' Hwf' Hun')
    as (r & w' & j & Hw' & Hj & -> & [Hk' Hd']).
  destruct (Forall2_lookup_r _ _ _ _ _ Hall Hw') as (w & Hw & Hstep).
  pose proof (mark_and_relax_advances _ _ _ _ _ Hstep) as [Hld Hlk Hle Hfix].
  pose proof (wf_each _ _ _ Hwf r w Hw) as [_ _ Hwd _ Hwk].
  destruct (lookup_lt_is_Some_2 (loc_known w) j) as [kv Hkv]; [lia|].
  destruct (lookup_lt_is_Some_2 (loc_dist w) j) as [d Hd]; [lia|].
  assert (kv = 0) as ->.
  { destruct (decide (kv = 0)) as [|Hne]; [done|].
    destruct (Hfix j kv Hkv Hne) as [_ (kv' & Hkv' & Hne')]. congruence. }
  destruct (mark_and_relax_offered _ _ _ _ _ Hstep j Hj Hk') as (m & x & Hm & Hx & Hoff).
  assert (x = d') as -> by congruence.
  destruct (row_index n loc_n g.2 j Hpos Hfit Hg2 Hj) as [Eidx _].
  rewrite Eidx, (Hblk r w Hw) in Hm.
  assert (Hcol : (Z.of_nat r + 1) * loc_n <= n).
  { apply lookup_lt_Some in Hw. nia. }
  rewrite (blk_col_lookup mat n loc_n r g.2 (Z.of_nat j) Hlen Hcol) in Hm by lia.
  pose proof (edge_weight_ok _ _ _ _ _ Hmat Hm) as Hwm.
  destruct (relaxation_sum g.1 m HD Hwm) as [_ Esum]. rewrite Esum in Hoff.
  exists d, m. split_and!; auto.
  - by apply (gunvisited_local n loc_n ws r j w).
  - apply mark_and_relax_Some in Hstep as (_ & _ & _ & _ & _ & _ & Hc).
    destruct (Hc j) as [[E _]|(_ & m2 & cur & Hm2 & _ & _ & Hnew & _)].
    + left. congruence.
    + right. rewrite Eidx, (Hblk r w Hw) in Hm2.
      rewrite (blk_col_lookup mat n loc_n r g.2 (Z.of_nat j) Hlen Hcol) in Hm2 by lia.
      assert (m2 = m) as -> by congruence. rewrite Esum in Hnew. congruence.
  - by eapply Hle.
  - intros E.
    destruct (winner_settled n loc_n ws ws' g Hwf Hround Hg) as (Hset & _).
    rewrite <- E in Hset. by eapply (settled_not_unvisited n loc_n ws').
Qed.

Lemma round_tight (mat : list Z) (n loc_n : Z) (ws ws' : list worker)
    (W : list Z) (g : Z * Z) :
  wf_group n loc_n ws -> Forall bounded ws -> Forall weight_ok mat ->
  holds_blocks mat n loc_n ws -> Z.of_nat (length mat) = n * n ->
  tight mat n loc_n ws W -> all_accounted n ws W ->
  round loc_n ws = Some (Next ws') -> winner loc_n ws = Some g ->
  tight mat n loc_n ws' (g.2 :: W).
Proof.
  intros Hwf Hb Hmat Hblk Hlen Ht Hacc Hround Hg.
  destruct (round_step n loc_n ws ws' Hwf Hround) as (g' & Hg' & Hg2 & Hwf' & Hall).
  assert (g' = g) as -> by congruence.
  destruct (winner_settled n loc_n ws ws' g Hwf Hround Hg)
    as (HsetU & HltU & r0 & w0 & j0 & Hw0 & Hj0 & Hgj & Hun0).
  assert (HunU : gunvisited ws g.2 g.1).
  { rewrite Hgj. by apply (gunvisited_local n loc_n ws r0 j0 w0). }
  assert (Hleast : forall x d, gunvisited ws x d -> g.1 <= d).
  { intros x d Hx. destruct (winner_global n loc_n ws Hwf) as (g' & Hg'' & Hcase).
    assert (g' = g) as -> by congruence.
    destruct Hcase as [[-> _]|(_ & _ & Hall')]; [simpl in Hg2; lia|].
    destruct (Hall' x d Hx) as [?|[? _]]; lia. }
  assert (Hafter := fun x d' => round_unvisited_after mat n loc_n ws ws' g x d'
                                  Hwf Hb Hmat Hblk Hlen Hround Hg).
  assert (Hold : forall u du, u ∈ W -> settled loc_n ws' u du -> settled loc_n ws u du).
  { intros u du Hu Hs'. destruct (ti_settled _ _ _ _ _ Ht u Hu) as [du0 Hs0].
    pose proof (settled_step _ _ _ _ _ _ _ Hall Hs0) as Hs0'.
    by rewrite (settled_unique n loc_n ws' u du du0 Hwf' Hs' Hs0'). }
  assert (HnewU : forall du, settled loc_n ws' g.2 du -> du = g.1).
  { intros du Hs. exact (settled_unique n loc_n ws' g.2 du g.1 Hwf' Hs HsetU). }
  split.
  - intros x d' m Hx Hm. destruct (Hafter x d' Hx) as (d & _ & Hxd & _ & _ & Hle & _).
    pose proof (ti_source_edge _ _ _ _ _ Ht x d m Hxd Hm). lia.
  - intros x d' u du m Hx Hu Hs Hm.
    destruct (Hafter x d' Hx) as (d & mU & Hxd & HmU & _ & Hle & Hoff & _).
    apply elem_of_cons in Hu as [->|Hu].
    + rewrite (HnewU du Hs). assert (mU = m) as -> by congruence. lia.
    + pose proof (ti_winner_edge _ _ _ _ _ Ht x d u du m Hxd Hu (Hold u du Hu Hs) Hm).
      lia.
  - intros u du x d' Hu Hs Hx.
    destruct (Hafter x d' Hx) as (d & mU & Hxd & HmU & Hcase & _).
    pose proof (edge_weight_ok _ _ _ _ _ Hmat HmU) as [Hm0 _].
    pose proof (Hleast x d Hxd) as HDd.
    apply elem_of_cons in Hu as [->|Hu].
    + rewrite (HnewU du Hs). destruct Hcase as [->| ->]; lia.
    + pose proof (ti_order _ _ _ _ _ Ht u du x d Hu (Hold u du Hu Hs) Hxd).
      pose proof (ti_order _ _ _ _ _ Ht u du g.2 g.1 Hu (Hold u du Hu Hs) HunU).
      destruct Hcase as [->| ->]; lia.
  - intros u du ys wt Hu Hs Hys Hend Hwalk.
    apply elem_of_cons in Hu as [->|Hu].
    + rewrite (HnewU du Hs).
      destruct (crossing mat n loc_n ws W Hwf Hmat Ht Hacc ys [] 0 wt)
        as (z & dz & Hz & Hle); auto.
      * exists g.1. unfold walk_end at 2. simpl. by rewrite Hend.
      * constructor.
      * pose proof (Hleast z dz Hz). lia.
    + exact (ti_least _ _ _ _ _ Ht u du ys wt Hu (Hold u du Hu Hs) Hys Hend Hwalk).
  - intros u Hu. apply elem_of_cons in Hu as [->|Hu]; [by exists g.1|].
    destruct (ti_settled _ _ _ _ _ Ht u Hu) as [du Hs]. exists du.
    by eapply settled_step.
  - destruct (ti_source _ _ _ _ _ Ht) as [d0 Hs]. exists d0. by eapply settled_step.
  - apply NoDup_cons. split; [|exact (ti_nodup _ _ _ _ _ Ht)].
    intros Hin. destruct (ti_settled _ _ _ _ _ Ht _ Hin) as [du Hs].
    by eapply (settled_not_unvisited n loc_n ws).
Qed.

(** With a single rank, line 300 marks the winner and nothing else. *)
Lemma round_accounted_single (n loc_n : Z) (ws ws' : list worker)
    (W : list Z) (g : Z * Z) :
  wf_group n loc_n ws -> length ws = 1%nat -> all_accounted n ws W ->
  round loc_n ws = Some (Next ws') -> winner loc_n ws = Some g ->
  all_accounted n ws' (g.2 :: W).
Proof.
  intros Hwf Hone Hacc Hround Hg x Hx.
  destruct (round_step n loc_n ws ws' Hwf Hround) as (g' & Hg' & Hg2 & Hwf' & Hall).
  assert (g' = g) as -> by congruence.
  pose proof Hwf as [Hpos _ Hsz _ _].
  assert (Hn : n = loc_n) by (rewrite Hone in Hsz; lia).
  destruct (Hacc x Hx) as [?|[HxW|[d Hd]]]; [by left|right; left|].
  { by apply list_elem_of_further. }
  destruct (decide (x = g.2)) as [->|Hne]; [right; left; apply list_elem_of_here|].
  right. right.
  destruct (gunvisited_owner n loc_n ws x d Hwf Hd) as (r & w & j & Hw & Hj & -> & [Hk _]).
  destruct (Forall2_lookup_l _ _ _ _ _ Hall Hw) as (w' & Hw' & Hstep).
  assert (r = 0%nat) as -> by (apply lookup_lt_Some in Hw; lia).
  pose proof (wf_each _ _ _ Hwf' 0%nat w' Hw') as [_ _ Hwd _ _].
  destruct (lookup_lt_is_Some_2 (loc_dist w') j) as [d' Hd']; [lia|].
  exists d'. apply (gunvisited_local n loc_n ws' 0 j w' d' Hwf' Hw' Hj).
  split; [|done].
  apply mark_and_relax_Some in Hstep as (_ & _ & _ & -> & _).
  rewrite list_lookup_insert_ne; [done|].
  unfold glbl in Hne. rewrite Z.mod_small by lia. lia.
Qed.

Lemma Dijkstra_loop_tight (mat : list Z) (n loc_n : Z) (k : nat)
    (ws ws' : list worker) (W : list Z) :
  wf_group n loc_n ws -> length ws = 1%nat -> Forall bounded ws ->
  Forall weight_ok mat -> holds_blocks mat n loc_n ws ->
  Z.of_nat (length mat) = n * n ->
  tight mat n loc_n ws W -> all_accounted n ws W -> (0 ∉ W) ->
  Dijkstra_loop loc_n k ws = Some ws' ->
  wf_group n loc_n ws' /\ Forall bounded ws' /\
  exists W',
    tight mat n loc_n ws' W' /\ all_accounted n ws' W' /\ (0 ∉ W') /\
    (length W' = (length W + k)%nat \/
     forall x d, gunvisited ws' x d -> INFINITY <= d).
Proof.
  intros Hwf Hone Hb Hmat Hblk Hlen. revert ws W Hwf Hone Hb Hblk.
  induction k as [|k IH]; intros ws W Hwf Hone Hb Hblk Ht Hacc Hnz Hrun;
    simpl in Hrun.
  - simplify_eq. split_and!; auto. exists W. split_and!; auto.
  - bind_case Hrun c Hc. destruct c as [|ws1].
    + simplify_eq. split_and!; auto. exists W. split_and!; auto. right.
      destruct (round_total n loc_n ws' Hwf) as (g & Hg & [[Hg2 _]|(_ & _ & ws2 & Hn & _)]);
        [|congruence].
      destruct (winner_global n loc_n ws' Hwf) as (g' & Hg' & Hcase).
      assert (g' = g) as -> by congruence.
      destruct Hcase as [[_ Hall]|([Hpos _] & _)]; [done|lia].
    + destruct (round_step n loc_n ws ws1 Hwf Hc) as (g & Hg & _ & Hwf1 & Hall).
      assert (Hg0 : g.2 <> 0).
      { intros E0.
        destruct (winner_settled n loc_n ws ws1 g Hwf Hc Hg)
          as (_ & _ & r0 & w0 & j0 & Hw0 & Hj0 & Hgj & Hun0).
        destruct (ti_source _ _ _ _ _ Ht) as [d0 Hs0].
        apply (settled_not_unvisited n loc_n ws 0 d0 g.1 Hwf Hs0).
        rewrite <- E0, Hgj. by apply (gunvisited_local n loc_n ws r0 j0 w0). }
      destruct (IH ws1 (g.2 :: W)) as (Hwf' & Hb' & W' & Ht' & Hacc' & Hnz' & Hcount);
        auto.
      * apply Forall2_length in Hall. lia.
      * exact (round_bounded n loc_n ws ws1 Hwf Hb Hc).
      * intros r w1 Hw1.
        destruct (Forall2_lookup_r _ _ _ _ _ Hall Hw1) as (w & Hw & Hstep).
        apply mark_and_relax_Some in Hstep as (_ & -> & _). by apply Hblk.
      * exact (round_tight mat n loc_n ws ws1 W g Hwf Hb Hmat Hblk Hlen Ht Hacc Hc Hg).
      * exact (round_accounted_single n loc_n ws ws1 W g Hwf Hone Hacc Hc Hg).
      * intros Hin. apply elem_of_cons in Hin as [E|Hin]; [by apply Hg0|done].
      * split_and!; auto. exists W'. split_and!; auto.
        destruct Hcount as [Hcount|?]; [left|by right]. simpl in Hcount. lia.
Qed.

(** All of [1 .. n-1] is in a list of [n - 1] different vertices other
    than the source. *)
Lemma winners_cover (n : Z) (W : list Z) (v : Z) :
  NoDup W -> (forall u, u ∈ W -> 1 <= u < n) ->
  length W = Z.to_nat (n - 1) -> 1 <= v < n -> v ∈ W.
Proof.
  intros Hnd Hrange Hlen Hv.
  assert (Hsub : W ⊆+ seqZ 1 (n - 1)).
  { apply NoDup_submseteq; [done|]. intros u Hu. apply elem_of_seqZ.
    specialize (Hrange u Hu). lia. }
  assert (Hperm : W ≡ₚ seqZ 1 (n - 1)).
  { apply submseteq_length_Permutation; [done|]. rewrite length_seqZ. lia. }
  rewrite Hperm. apply elem_of_seqZ. lia.
Qed.

Lemma chain_in_graph (mat : list Z) (n : Z) (gd gp : list Z) :
  consistent mat n gd gp ->
  forall (xs : list Z) (w : Z), 0 <= w < n -> is_chain gp w xs -> in_graph n xs.
Proof.
  intros Hco. induction xs as [|x xs IH]; intros w Hw Hch; [constructor|].
  destruct Hch as (-> & _ & w' & Hw' & Hch').
  destruct (co_cells _ _ _ _ Hco w Hw) as (u & _ & _ & Hu & Hur & _).
  assert (u = w') as -> by congruence.
  constructor; [done|]. by eapply IH.
Qed.

(** The state [Dijkstra_Init] leaves is where the textbook argument
    starts. *)
Lemma initial_tight (mat : list Z) (n loc_n : Z) (ws : list worker) :
  wf_group n loc_n ws -> Z.of_nat (length mat) = n * n ->
  holds_blocks mat n loc_n ws ->
  (forall (r : nat) w, ws !! r = Some w -> initial loc_n w) ->
  tight mat n loc_n ws [] /\ all_accounted n ws [].
Proof.
  intros Hwf Hlen Hblk Hinit. pose proof Hwf as [Hpos Hne Hsz Hfit Heach].
  split; [split|].
  - intros x d m Hx Hm.
    destruct (gunvisited_owner n loc_n ws x d Hwf Hx) as (r & w & j & Hw & Hj & -> & [_ Hd]).
    destruct (Hinit r w Hw) as [_ _ Hid _]. rewrite (Hid j Hj), (Hblk r w Hw) in Hd.
    assert (Hcol : (Z.of_nat r + 1) * loc_n <= n).
    { apply lookup_lt_Some in Hw. nia. }
    assert (Eb : rd (blk_col mat n loc_n r) (0 * loc_n + Z.of_nat j)
                 = edge mat n 0 (Z.of_nat r * loc_n + Z.of_nat j))
      by (apply (blk_col_lookup mat n loc_n r 0 (Z.of_nat j) Hlen Hcol); nia).
    rewrite Z.mul_0_l, Z.add_0_l, rd_nat in Eb. unfold glbl in Hm.
    assert (d = m) by congruence. lia.
  - intros x d u du m _ Hu. by apply elem_of_nil in Hu.
  - intros u du x d Hu. by apply elem_of_nil in Hu.
  - intros u du ys wt Hu. by apply elem_of_nil in Hu.
  - intros u Hu. by apply elem_of_nil in Hu.
  - destruct (lookup_lt_is_Some_2 ws 0%nat Hne) as [w Hw].
    destruct (Hinit 0%nat w Hw) as [Hk0 _ _ _].
    pose proof (Heach 0%nat w Hw) as [Hrk _ Hwd _ _].
    rewrite decide_True in Hk0 by (by rewrite Hrk).
    destruct (lookup_lt_is_Some_2 (loc_dist w) 0%nat) as [d0 Hd0]; [lia|].
    exists d0, 0%nat, w, 0%nat. split_and!; auto; [lia|by exists 1].
  - constructor.
  - intros x Hx.
    destruct (owner_of n loc_n ws x Hwf Hx) as (r & w & j & Hw & Hj & ->).
    destruct (decide (r = 0%nat /\ j = 0%nat)) as [[-> ->]|Hne0]; [by left|].
    right. right. destruct (Hinit r w Hw) as [Hk0 Hk _ _].
    pose proof (Heach r w Hw) as [Hrk _ Hwd _ _].
    destruct (lookup_lt_is_Some_2 (loc_dist w) j) as [d Hd]; [lia|].
    exists d. apply (gunvisited_local n loc_n ws r j w d Hwf Hw Hj).
    split; [|done]. destruct j as [|j].
    + rewrite Hk0, decide_False; [done|]. rewrite Hrk. lia.
    + apply Hk. lia.
Qed.

(** X10. Run by one rank on a matrix with weights in [0, 1000000], the
    program is exact: it produces results, and for every vertex [v]
    other than the source the distance it delivers is the weight of a
    walk from vertex 0 to [v] (the reversed predecessor chain, a
    missing edge counting 1000000) and no walk from 0 to [v] weighs
    less. *)
Theorem single_rank_distance_is_least_walk (n junk : Z) (mat : list Z) :
  valid_input 1 n n mat -> Forall weight_ok mat ->
  exists gd gp,
    main 1 n mat true junk = Some (Results n gd gp) /\
    forall v, 1 <= v < n ->
      exists d,
        rd gd v = Some d /\
        (exists ys, in_graph n ys /\ walk_end 0 ys = v /\
                    walk_weight mat n 0 ys = Some d) /\
        (forall ys wt, in_graph n ys -> walk_end 0 ys = v ->
                       walk_weight mat n 0 ys = Some wt -> d <= wt).
Proof.
  intros Hvi Hmat. pose proof Hvi as [Hp Hpos Hn Hfit Hm].
  destruct (main_run 1 n n junk mat Hvi)
    as (ws0 & ws & Hbegin & Hrun & Hwf0 & _ & Hmain).
  destruct (run_start 1 n n junk mat Hvi) as (ws0' & Hbegin' & _ & Hlen0 & Hinit).
  assert (ws0' = ws0) as -> by congruence.
  assert (Hb0 : Forall bounded ws0).
  { apply Forall_lookup. intros r w Hw. destruct (Hinit r w Hw) as [Hi Hmw].
    eapply initial_bounded; [by eapply wf_each|done|].
    rewrite Hmw. by apply blk_col_Forall. }
  assert (Hblk0 : holds_blocks mat n n ws0).
  { intros r w Hw. by destruct (Hinit r w Hw). }
  destruct (initial_tight mat n n ws0 Hwf0 Hm Hblk0) as [Ht0 Hacc0].
  { intros r w Hw. by destruct (Hinit r w Hw). }
  assert (Hnz0 : 0 ∉ ([] : list Z)) by (intros H; by apply elem_of_nil in H).
  destruct (Dijkstra_loop_tight mat n n _ ws0 ws [] Hwf0 Hlen0 Hb0 Hmat Hblk0 Hm
              Ht0 Hacc0 Hnz0 Hrun)
    as (Hwf & Hb & W & Ht & Hacc & Hnz & Hcount).
  destruct (main_consistent 1 n n junk mat Hvi Hmat) as (gd & gp & Hmain' & Hco).
  destruct (main_paths 1 n n junk mat Hvi) as (gd' & gp' & Hmain'' & Hpaths).
  assert (gd = gathered loc_dist ws /\ gp = gathered loc_pred ws) as [Egd Egp]
    by (split; congruence).
  assert (gp' = gp) as -> by congruence.
  exists gd, gp. split; [done|]. intros v Hv.
  (* the walk that attains the distance *)
  destruct (Hpaths v (replicate (Z.to_nat n) 0)) as (path' & count & Hloop & _);
    [lia|rewrite length_replicate; lia|].
  destruct (path_loop_chain (Z.to_nat n) gp (replicate (Z.to_nat n) 0) 0 v path' count)
    as (xs & Hch & _);
    [lia|rewrite length_replicate; unfold Int32.max_signed in *; nia|exact Hloop|].
  destruct (chain_walk mat n gd gp Hco xs v) as (d & Hwalk & Hend & Hd);
    [lia|done|].
  destruct Hd as [[-> _]|[_ Hd]]; [lia|].
  exists d. split; [done|]. split.
  { exists (reverse xs). split_and!; auto.
    apply Forall_reverse. eapply chain_in_graph; eauto. lia. }
  (* no walk is lighter *)
  assert (HW : forall u, u ∈ W -> 1 <= u < n).
  { intros u Hu. destruct (ti_settled _ _ _ _ _ Ht u Hu) as [du Hs].
    destruct (settled_gathered n n ws u du Hwf Hs) as [Hr _].
    assert (u <> 0) by (intros ->; by apply Hnz). lia. }
  assert (Hin : v ∈ W -> forall ys wt, in_graph n ys -> walk_end 0 ys = v ->
                          walk_weight mat n 0 ys = Some wt -> d <= wt).
  { intros Hv' ys wt Hys Hend' Hwt.
    destruct (ti_settled _ _ _ _ _ Ht v Hv') as [dv Hs].
    destruct (settled_gathered n n ws v dv Hwf Hs) as [_ Hrd].
    assert (dv = d) as -> by congruence.
    exact (ti_least _ _ _ _ _ Ht v d ys wt Hv' Hs Hys Hend' Hwt). }
  destruct (Hacc v) as [E|[Hv'|[dv Hun]]]; [lia|lia|by apply Hin|].
  destruct Hcount as [Hcount|Hex].
  { apply Hin, (winners_cover n W v);
      [exact (ti_nodup _ _ _ _ _ Ht)|exact HW|simpl in Hcount; lia|lia]. }
  intros ys wt Hys Hend' Hwt.
  assert (Edv : dv = d).
  { destruct Hun as [H0 [_ Hdv]]. rewrite <- Egd in Hdv.
    assert (rd gd v = Some dv) by (apply rd_Some; split; [lia|done]). congruence. }
  subst dv.
  assert (Hle : d <= INFINITY).
  { apply rd_Some in Hd as [_ Hd].
    exact (proj2 (proj1 (Forall_lookup _ _) (co_bounded _ _ _ _ Hco) _ _ Hd)). }
  assert (Hstart : walk_end 0 [] = 0) by reflexivity.
  assert (Hcross : exists z dz, gunvisited ws z dz /\ dz <= 0 + wt).
  { apply (crossing mat n n ws W Hwf Hmat Ht Hacc ys [] 0 wt Hys).
    - reflexivity.
    - by left.
    - by rewrite Hstart.
    - rewrite Hstart, Hend'. by exists d.
    - constructor. }
  destruct Hcross as (z & dz & Hz & Hdz).
  pose proof (Hex z dz Hz). lia.
Qed.

Lemma single_rank_distance_is_least_walk_at_scenario4 :
  valid_input 1 4 4 scenario4 /\ Forall weight_ok scenario4 /\
  exists gd gp,
    main 1 4 scenario4 true 0 = Some (Results 4 gd gp) /\
    forall v, 1 <= v < 4 ->
      exists d,
        rd gd v = Some d /\
        (exists ys, in_graph 4 ys /\ walk_end 0 ys = v /\
                    walk_weight scenario4 4 0 ys = Some d) /\
        (forall ys wt, in_graph 4 ys -> walk_end 0 ys = v ->
                       walk_weight scenario4 4 0 ys = Some wt -> d <= wt).
Proof.
  assert (H1 : valid_input 1 4 4 scenario4).
  { split; [lia|lia|lia|unfold Int32.max_signed; lia|reflexivity]. }
  assert (H2 : Forall weight_ok scenario4).
  { unfold scenario4. repeat constructor; unfold weight_ok, INFINITY; lia. }
  split; [exact H1|]. split; [exact H2|].
  exact (single_rank_distance_is_least_walk 4 0 scenario4 H1 H2).
Defined.

(** ** [Print_matrix]: the rows of a row-major matrix *)

Lemma Print_matrix_row_segment (mat : list Z) (cols i : Z) :
  0 <= i -> 0 <= cols ->
  (i + 1) * cols <= Z.of_nat (length mat) ->
  (i + 1) * cols <= Int32.max_signed ->
  for_loop 0 cols (Print_matrix_row mat cols i) []
    = Some (take (Z.to_nat cols) (drop (Z.to_nat (i * cols)) mat)).
Proof.
  intros Hi Hc Hlen Hfit. unfold for_loop. rewrite Z.sub_0_r.
  destruct (for_range_total
    (fun (j : nat) (row : list Z) =>
       row = take j (drop (Z.to_nat (i * cols)) mat))
    (Print_matrix_row mat cols i) (Z.to_nat cols) 0 [])
    as (row & Hrun & ->); [done| |done].
  intros j row Hj ->. unfold Print_matrix_row.
  assert (E : Int32.add (Int32.mul i cols) (0 + Z.of_nat j) = i * cols + Z.of_nat j).
  { unfold Int32.add, Int32.mul.
    rewrite (wrap_small (i * cols))
      by (unfold Int32.in_range, Int32.min_signed, Int32.max_signed in *; nia).
    rewrite wrap_small
      by (unfold Int32.in_range, Int32.min_signed, Int32.max_signed in *; nia).
    lia. }
  rewrite E.
  destruct (lookup_lt_is_Some_2 mat (Z.to_nat (i * cols) + j)) as [x Hx]; [nia|].
  assert (Hrd : rd mat (i * cols + Z.of_nat j) = Some x).
  { apply rd_Some. split; [nia|].
    by replace (Z.to_nat (i * cols + Z.of_nat j)) with (Z.to_nat (i * cols) + j)%nat
      by nia. }
  rewrite Hrd. simpl. eexists. split; [done|].
  symmetry. apply take_S_r. by rewrite lookup_drop.
Qed.

(** X11. [Print_matrix] on an array that holds at least [rows * cols]
    cells (and [rows * cols] fits an int) reads inside the array only and
    prints [rows] rows of [cols] numbers each; row [i] is the segment of
    the array that starts at [i * cols], so the rows put one after the
    other are the first [rows * cols] cells of the array. *)
Theorem Print_matrix_prints_row_segments (mat : list Z) (rows cols : Z) :
  0 <= rows -> 0 <= cols ->
  rows * cols <= Z.of_nat (length mat) ->
  rows * cols <= Int32.max_signed ->
  exists out,
    Print_matrix mat rows cols = Some out /\
    length out = Z.to_nat rows /\
    (forall (i : nat) row, out !! i = Some row ->
       row = take (Z.to_nat cols) (drop (i * Z.to_nat cols) mat) /\
       length row = Z.to_nat cols) /\
    concat out = take (Z.to_nat (rows * cols)) mat.
Proof.
  intros Hr Hc Hlen Hfit. unfold Print_matrix, for_loop. rewrite Z.sub_0_r.
  destruct (for_range_total
    (fun (j : nat) (out : list (list Z)) =>
       length out = j /\
       (forall (i : nat) row, out !! i = Some row ->
          row = take (Z.to_nat cols) (drop (i * Z.to_nat cols) mat) /\
          length row = Z.to_nat cols) /\
       concat out = take (j * Z.to_nat cols) mat)
    (Print_matrix_body mat cols) (Z.to_nat rows) 0 [])
    as (out & Hrun & Hl & Hrows & Hcat).
  - split; [done|]. split; [intros i row Hi; done|done].
  - intros j out Hj (Hl & Hrows & Hcat). unfold Print_matrix_body.
    rewrite Print_matrix_row_segment by nia. simpl.
    replace (Z.to_nat ((0 + Z.of_nat j) * cols)) with (j * Z.to_nat cols)%nat by nia.
    eexists. split; [done|]. split; [rewrite length_app; simpl; lia|]. split.
    + intros i row Hi. apply lookup_app_Some in Hi as [Hi|[Hge Hi]];
        [by apply Hrows|].
      apply list_lookup_singleton_Some in Hi as [Hi0 <-].
      assert (i = j) as -> by lia. split; [done|].
      rewrite length_take, length_drop. nia.
    + rewrite concat_app, Hcat. simpl. rewrite app_nil_r, take_take_drop.
      f_equal. lia.
  - exists out. split; [done|]. split; [done|]. split; [done|].
    rewrite Hcat. f_equal. nia.
Qed.

Lemma Print_matrix_prints_row_segments_at_scenario4 :
  0 <= 4 /\ 4 * 4 <= Z.of_nat (length scenario4) /\ 4 * 4 <= Int32.max_signed /\
  exists out,
    Print_matrix scenario4 4 4 = Some out /\ length out = 4%nat /\
    concat out = take 16 scenario4.
Proof.
  assert (H0 : 0 <= 4) by lia.
  assert (H1 : 4 * 4 <= Z.of_nat (length scenario4)) by (simpl; lia).
  assert (H2 : 4 * 4 <= Int32.max_signed) by (unfold Int32.max_signed; lia).
  split; [exact H0|]. split; [exact H1|]. split; [exact H2|].
  destruct (Print_matrix_prints_row_segments scenario4 4 4 H0 H0 H1 H2)
    as (out & Hrun & Hl & _ & Hcat).
  exists out. split; [exact Hrun|]. split; [exact Hl|exact Hcat].
Defined.
